(** * merdmaid: the ERD change-detection pipeline of [src/index.ts]

    A shallow embedding of the GitHub action's single source file.  The
    action collects schema files, composes a prompt, asks a chat-completion
    endpoint for a Mermaid ER diagram and classifies the answer against the
    diagram stored in the repository.

    JavaScript strings are sequences of UTF-16 code units; they are modelled
    as [list N].  The parts of the Node runtime the source calls
    ([Buffer], [String.prototype.trim], [Array.prototype.sort], ...) are
    modelled next to the functions of the source that use them.  The case
    mappings of the Unicode Character Database, which
    [String.prototype.toLowerCase] reads, are a parameter of the
    development: what is proved of the run holds whatever they are. *)

From Stdlib Require Import List NArith ZArith Bool Lia String Ascii Arith.
From Stdlib Require Import DecimalString Permutation.
Import ListNotations.

Open Scope N_scope.

(* ================================================================== *)
(** ** JavaScript strings *)
(* ================================================================== *)

Module JSString.

(** A string value: its UTF-16 code units. *)
Definition jsstring := list N.

Definition byte := N.

Fixpoint eqb (a b : jsstring) : bool :=
  match a, b with
  | [], [] => true
  | x :: a', y :: b' => (x =? y) && eqb a' b'
  | _, _ => false
  end.

Definition is_empty (s : jsstring) : bool :=
  match s with [] => true | _ => false end.

(** *** UTF-8 (the encoding of [Buffer.from(s, "utf8")] and
        [buf.toString("utf8")]) *)

Definition is_high_surrogate (u : N) : bool := (0xD800 <=? u) && (u <=? 0xDBFF).
Definition is_low_surrogate (u : N) : bool := (0xDC00 <=? u) && (u <=? 0xDFFF).

(** Code points of a string; an unpaired surrogate encodes as U+FFFD. *)
Fixpoint codePoints (s : jsstring) : list N :=
  match s with
  | [] => []
  | u :: rest =>
      if is_high_surrogate u then
        match rest with
        | v :: rest' =>
            if is_low_surrogate v
            then (0x10000 + (u - 0xD800) * 0x400 + (v - 0xDC00)) :: codePoints rest'
            else 0xFFFD :: codePoints rest
        | [] => [0xFFFD]
        end
      else if is_low_surrogate u then 0xFFFD :: codePoints rest
      else u :: codePoints rest
  end.

Definition utf8_of_codePoint (c : N) : list byte :=
  if c <? 0x80 then [c]
  else if c <? 0x800 then
    [N.lor 0xC0 (N.shiftr c 6); N.lor 0x80 (N.land c 0x3F)]
  else if c <? 0x10000 then
    [N.lor 0xE0 (N.shiftr c 12);
     N.lor 0x80 (N.land (N.shiftr c 6) 0x3F);
     N.lor 0x80 (N.land c 0x3F)]
  else
    [N.lor 0xF0 (N.shiftr c 18);
     N.lor 0x80 (N.land (N.shiftr c 12) 0x3F);
     N.lor 0x80 (N.land (N.shiftr c 6) 0x3F);
     N.lor 0x80 (N.land c 0x3F)].

(** [Buffer.from(s, "utf8")]. *)
Definition utf8_encode (s : jsstring) : list byte :=
  flat_map utf8_of_codePoint (codePoints s).

(** The decoder of [buf.toString("utf8")]: an ill-formed or truncated
    sequence yields one U+FFFD per maximal well-formed prefix, and the
    offending byte is looked at again as the start of a new sequence. *)
Record decoder := mkDecoder {
  dec_cp : N;          (* code point under construction *)
  dec_seen : N;        (* continuation bytes read *)
  dec_needed : N;      (* continuation bytes expected *)
  dec_lower : N;       (* bounds of the next continuation byte *)
  dec_upper : N
}.

Definition decoder_init : decoder := mkDecoder 0 0 0 0x80 0xBF.

Definition decode_lead (b : byte) : list N * decoder :=
  if b <=? 0x7F then ([b], decoder_init)
  else if (0xC2 <=? b) && (b <=? 0xDF) then
    ([], mkDecoder (N.land b 0x1F) 0 1 0x80 0xBF)
  else if (0xE0 <=? b) && (b <=? 0xEF) then
    ([], mkDecoder (N.land b 0xF) 0 2
           (if b =? 0xE0 then 0xA0 else 0x80)
           (if b =? 0xED then 0x9F else 0xBF))
  else if (0xF0 <=? b) && (b <=? 0xF4) then
    ([], mkDecoder (N.land b 0x7) 0 3
           (if b =? 0xF0 then 0x90 else 0x80)
           (if b =? 0xF4 then 0x8F else 0xBF))
  else ([0xFFFD], decoder_init).

Definition decode_step (st : decoder) (b : byte) : list N * decoder :=
  if dec_needed st =? 0 then decode_lead b
  else if (dec_lower st <=? b) && (b <=? dec_upper st) then
    let cp := N.lor (N.shiftl (dec_cp st) 6) (N.land b 0x3F) in
    if dec_seen st + 1 =? dec_needed st
    then ([cp], decoder_init)
    else ([], mkDecoder cp (dec_seen st + 1) (dec_needed st) 0x80 0xBF)
  else
    let '(out, st') := decode_lead b in (0xFFFD :: out, st').

Fixpoint decode_from (st : decoder) (bs : list byte) : list N :=
  match bs with
  | [] => if dec_needed st =? 0 then [] else [0xFFFD]
  | b :: bs' =>
      let '(out, st') := decode_step st b in
      out ++ decode_from st' bs'
  end.

Definition utf16_of_codePoint (c : N) : jsstring :=
  if c <? 0x10000 then [c]
  else [0xD800 + N.shiftr (c - 0x10000) 10; 0xDC00 + N.land (c - 0x10000) 0x3FF].

(** [buf.toString("utf8")]. *)
Definition utf8_decode (bs : list byte) : jsstring :=
  flat_map utf16_of_codePoint (decode_from decoder_init bs).

(** A string literal of the source, written here as its UTF-8 text. *)
Definition str (s : string) : jsstring :=
  utf8_decode (map N_of_ascii (list_ascii_of_string s)).

(** *** Methods of [String.prototype] used by the source *)

(** WhiteSpace and LineTerminator code points, as stripped by [trim]. *)
Definition is_whitespace (u : N) : bool :=
  (u =? 0x09) || (u =? 0x0A) || (u =? 0x0B) || (u =? 0x0C) || (u =? 0x0D)
  || (u =? 0x20) || (u =? 0xA0) || (u =? 0x1680)
  || ((0x2000 <=? u) && (u <=? 0x200A))
  || (u =? 0x2028) || (u =? 0x2029) || (u =? 0x202F) || (u =? 0x205F)
  || (u =? 0x3000) || (u =? 0xFEFF).

Fixpoint trimStart (s : jsstring) : jsstring :=
  match s with
  | [] => []
  | u :: rest => if is_whitespace u then trimStart rest else s
  end.

Definition trimEnd (s : jsstring) : jsstring := rev (trimStart (rev s)).

Definition trim (s : jsstring) : jsstring := trimEnd (trimStart s).

(** [s.split(sep)] for a one-unit separator. *)
Fixpoint split (sep : N) (s : jsstring) : list jsstring :=
  match s with
  | [] => [[]]
  | u :: rest =>
      if u =? sep then [] :: split sep rest
      else match split sep rest with
           | l :: ls => (u :: l) :: ls
           | [] => [[u]]
           end
  end.

(** [parts.join(sep)]. *)
Fixpoint join (sep : jsstring) (parts : list jsstring) : jsstring :=
  match parts with
  | [] => []
  | p :: rest =>
      match rest with
      | [] => p
      | _ :: _ => p ++ sep ++ join sep rest
      end
  end.

(** [s.replace(/\r\n/g, "\n")]. *)
Fixpoint replace_crlf (s : jsstring) : jsstring :=
  match s with
  | [] => []
  | u :: rest =>
      match rest with
      | v :: rest' =>
          if (u =? 0x0D) && (v =? 0x0A) then 0x0A :: replace_crlf rest'
          else u :: replace_crlf rest
      | [] => [u]
      end
  end.

(** *** [String.prototype.toLowerCase]

    The method lower-cases the code points of the string by the
    locale-insensitive case mappings of the Unicode Character Database:
    the lower-case mapping of each character and, for the capital sigma,
    the condition [Final_Sigma] of [SpecialCasing.txt].  The database is
    data of the engine, not of the program: the development takes the two
    columns the method reads as a parameter and models the method over
    them. *)

(** What the test of [Final_Sigma] makes of a character next to a sigma:
    a cased letter, a case-ignorable character, which the test skips, or
    any other character, at which the test stops.  The database has the
    two properties [Cased] and [Case_Ignorable], and some characters have
    both; the column says as which of the two the engine counts a
    character. *)
Inductive SigmaContext := Letter | Skipped | Break.

(** The two columns: the lower-case mapping of a code point, one code
    point or more (the code point itself when the database gives none),
    and its part in the test of [Final_Sigma]. *)
Class CaseData := {
  Lowercase_Mapping : N -> N * list N;
  Sigma_Context : N -> SigmaContext
}.

(** [StringToCodePoints]: a surrogate pair is one code point, an unpaired
    surrogate is a code point of its own. *)
Fixpoint StringToCodePoints (s : jsstring) : list N :=
  match s with
  | [] => []
  | u :: rest =>
      if is_high_surrogate u then
        match rest with
        | v :: rest' =>
            if is_low_surrogate v
            then (0x10000 + (u - 0xD800) * 0x400 + (v - 0xDC00))
                 :: StringToCodePoints rest'
            else u :: StringToCodePoints rest
        | [] => [u]
        end
      else u :: StringToCodePoints rest
  end.

Definition CodePointsToString (cps : list N) : jsstring :=
  flat_map utf16_of_codePoint cps.

Definition mapping {ucd : CaseData} (c : N) : list N :=
  let '(d, ds) := Lowercase_Mapping c in d :: ds.

(** Going away from the sigma: is a cased letter reached, with nothing
    but skipped characters on the way? *)
Fixpoint sigma_scan {ucd : CaseData} (l : list N) : bool :=
  match l with
  | [] => false
  | c :: l' =>
      match Sigma_Context c with
      | Letter => true
      | Skipped => sigma_scan l'
      | Break => false
      end
  end.

(** The lower-case form of the code point [c] between the code points
    [before] (the nearest first) and [after]: U+03A3 becomes the final
    sigma U+03C2 when a cased letter precedes it and none follows it. *)
Definition lower_codePoint {ucd : CaseData} (before after : list N) (c : N)
  : list N :=
  if (c =? 0x3A3) && sigma_scan before && negb (sigma_scan after)
  then [0x3C2]
  else mapping c.

Fixpoint toLowercase_from {ucd : CaseData} (before cps : list N) : list N :=
  match cps with
  | [] => []
  | c :: after =>
      lower_codePoint before after c ++ toLowercase_from (c :: before) after
  end.

Definition toLowerCase {ucd : CaseData} (s : jsstring) : jsstring :=
  CodePointsToString (toLowercase_from [] (StringToCodePoints s)).

(** [s.startsWith(p)]. *)
Fixpoint startsWith (p s : jsstring) : bool :=
  match p, s with
  | [], _ => true
  | x :: p', y :: s' => (x =? y) && startsWith p' s'
  | _ :: _, [] => false
  end.

(** [s.includes(p)]. *)
Fixpoint includes (p s : jsstring) : bool :=
  startsWith p s ||
  match s with
  | [] => false
  | _ :: s' => includes p s'
  end.

(** [s.endsWith(p)]. *)
Definition endsWith (p s : jsstring) : bool := startsWith (rev p) (rev s).

(** The [Canonicalize] step of a case-insensitive, non-unicode regular
    expression, restricted to what can match a Basic Latin pattern
    character: a code unit above 127 is never folded onto one below. *)
Definition canonicalize (u : N) : N :=
  if (0x61 <=? u) && (u <=? 0x7A) then u - 0x20 else u.

(** Does [s] start with the literal [p], ignoring case ([/^p/i])? *)
Fixpoint startsWith_i (p s : jsstring) : bool :=
  match p, s with
  | [], _ => true
  | x :: p', y :: s' => (canonicalize x =? canonicalize y) && startsWith_i p' s'
  | _ :: _, [] => false
  end.

(** Is [s] the literal [p], ignoring case ([/^p$/i])? *)
Fixpoint equals_i (p s : jsstring) : bool :=
  match p, s with
  | [], [] => true
  | x :: p', y :: s' => (canonicalize x =? canonicalize y) && equals_i p' s'
  | _, _ => false
  end.

End JSString.

Import JSString.

(* ================================================================== *)
(** ** [Array.prototype.sort] *)
(* ================================================================== *)

(** The sort of V8, the engine of the Node runtime the action runs on.
    [buildPrompt] calls it with a comparison function that looks at its
    first argument only; for such a function the language leaves the order
    of the result to the engine, and it depends on which comparisons the
    algorithm makes and with which argument first.  So the algorithm is
    modelled as it runs (a TimSort): natural runs, binary insertion up to
    the minimal run length, a stack of pending runs, and merges with
    galloping.  The names are those of the engine's implementation.

    The work array is the concatenation of the pending runs followed by
    the part not yet looked at; a merge of two neighbouring runs replaces
    them by one.  Each loop carries a fuel that bounds its iterations by
    the number of elements it can still move. *)
Module ArraySort.

Section Sort.

Context {A : Type}.
Variable comparefn : A -> A -> Z.

(** [order < 0] for [order = comparefn(a, b)]. *)
Definition before (a b : A) : bool := (comparefn a b <? 0)%Z.

Definition kMinGallopWins : Z := 7.

Definition at_index (a : list A) (d : A) (i : Z) : A := nth (Z.to_nat i) a d.

(** [ComputeMinRunLength]: [while (n >= 64) { r |= n & 1; n >>= 1 }; n + r]. *)
Fixpoint min_run_loop (fuel : nat) (n r : N) : N :=
  match fuel with
  | O => n + r
  | S fuel' =>
      if 64 <=? n then min_run_loop fuel' (N.shiftr n 1) (N.lor r (N.land n 1))
      else n + r
  end.

Definition ComputeMinRunLength (n : nat) : nat :=
  N.to_nat (min_run_loop n (N.of_nat n) 0).

(** The scan of [CountAndMakeRun] after its first comparison. *)
Fixpoint run_scan (descending : bool) (previous : A) (l : list A)
  : list A * list A :=
  match l with
  | [] => ([], [])
  | current :: tl =>
      let order_neg := before current previous in
      if (if descending then negb order_neg else order_neg) then ([], l)
      else let '(taken, rest) := run_scan descending current tl in
           (current :: taken, rest)
  end.

(** [CountAndMakeRun]: the run that starts the list (reversed when it is
    descending) and what follows it. *)
Definition CountAndMakeRun (l : list A) : list A * list A :=
  match l with
  | [] => ([], [])
  | [a0] => ([a0], [])
  | a0 :: a1 :: tl =>
      let descending := before a1 a0 in
      let '(taken, rest) := run_scan descending a1 tl in
      let run := a0 :: a1 :: taken in
      (if descending then rev run else run, rest)
  end.

(** The binary search for the place of [key] among the sorted elements
    [a[left..right)]: [order = comparefn(key, a[mid])], and
    [if (order < 0) right = mid else left = mid + 1]. *)
Fixpoint search_right (fuel : nat) (key : A) (a : list A) (left right : Z)
  : Z :=
  match fuel with
  | O => right
  | S fuel' =>
      if (left <? right)%Z then
        let mid := (left + Z.shiftr (right - left) 1)%Z in
        if before key (at_index a key mid)
        then search_right fuel' key a left mid
        else search_right fuel' key a (mid + 1)%Z right
      else right
  end.

(** The same with [order = comparefn(a[mid], key)], and
    [if (order < 0) left = mid + 1 else right = mid]. *)
Fixpoint search_left (fuel : nat) (key : A) (a : list A) (left right : Z)
  : Z :=
  match fuel with
  | O => right
  | S fuel' =>
      if (left <? right)%Z then
        let mid := (left + Z.shiftr (right - left) 1)%Z in
        if before (at_index a key mid) key
        then search_left fuel' key a (mid + 1)%Z right
        else search_left fuel' key a left mid
      else right
  end.

Definition insert_at (k : nat) (x : A) (l : list A) : list A :=
  firstn k l ++ x :: skipn k l.

(** [BinaryInsertionSort]: [count] more elements are taken from [rest]
    and inserted into the sorted part. *)
Fixpoint BinaryInsertionSort (count : nat) (sorted rest : list A)
  : list A * list A :=
  match count, rest with
  | S count', pivot :: rest' =>
      let n := Z.of_nat (List.length sorted) in
      let left := search_right (S (List.length sorted)) pivot sorted 0%Z n in
      BinaryInsertionSort count' (insert_at (Z.to_nat left) pivot sorted) rest'
  | _, _ => (sorted, rest)
  end.

(** The exponential search of the gallops: offsets 1, 3, 7, ... while they
    stay below [maxOfs] and [stop] does not hold there. *)
Fixpoint gallop_loop (fuel : nat) (stop : Z -> bool) (maxOfs lastOfs offset : Z)
  : Z * Z :=
  match fuel with
  | O => (lastOfs, offset)
  | S fuel' =>
      if (offset <? maxOfs)%Z then
        if stop offset then (lastOfs, offset)
        else gallop_loop fuel' stop maxOfs offset (Z.shiftl offset 1 + 1)%Z
      else (lastOfs, offset)
  end.

(** [GallopRight(a, key, 0, length a, hint)]. *)
Definition GallopRight (key : A) (a : list A) (hint : Z) : Z :=
  let length := Z.of_nat (List.length a) in
  let '(lastOfs, offset) :=
    if before key (at_index a key hint) then
      let maxOfs := (hint + 1)%Z in
      let '(lastOfs, offset) :=
        gallop_loop (Z.to_nat maxOfs)
          (fun ofs => negb (before key (at_index a key (hint - ofs))))
          maxOfs 0%Z 1%Z in
      let offset := if (maxOfs <? offset)%Z then maxOfs else offset in
      ((hint - offset)%Z, (hint - lastOfs)%Z)
    else
      let maxOfs := (length - hint)%Z in
      let '(lastOfs, offset) :=
        gallop_loop (Z.to_nat maxOfs)
          (fun ofs => before key (at_index a key (hint + ofs)))
          maxOfs 0%Z 1%Z in
      let offset := if (maxOfs <? offset)%Z then maxOfs else offset in
      ((lastOfs + hint)%Z, (offset + hint)%Z) in
  search_right (S (List.length a)) key a (lastOfs + 1)%Z offset.

(** [GallopLeft(a, key, 0, length a, hint)]. *)
Definition GallopLeft (key : A) (a : list A) (hint : Z) : Z :=
  let length := Z.of_nat (List.length a) in
  let '(lastOfs, offset) :=
    if before (at_index a key hint) key then
      let maxOfs := (length - hint)%Z in
      let '(lastOfs, offset) :=
        gallop_loop (Z.to_nat maxOfs)
          (fun ofs => negb (before (at_index a key (hint + ofs)) key))
          maxOfs 0%Z 1%Z in
      let offset := if (maxOfs <? offset)%Z then maxOfs else offset in
      ((lastOfs + hint)%Z, (offset + hint)%Z)
    else
      let maxOfs := (hint + 1)%Z in
      let '(lastOfs, offset) :=
        gallop_loop (Z.to_nat maxOfs)
          (fun ofs => before (at_index a key (hint - ofs)) key)
          maxOfs 0%Z 1%Z in
      let offset := if (maxOfs <? offset)%Z then maxOfs else offset in
      ((hint - offset)%Z, (hint - lastOfs)%Z) in
  search_left (S (List.length a)) key a (lastOfs + 1)%Z offset.

(** Where a merge loop stands: in the one-pair-at-a-time loop, with the
    number of wins in a row of each run, or in the galloping loop. *)
Inductive merge_mode :=
| OneByOne (nofWinsA nofWinsB : Z)
| Galloping.

Definition after_gallop (minGallop nofWinsA nofWinsB : Z) : merge_mode * Z :=
  if (kMinGallopWins <=? nofWinsA)%Z || (kMinGallopWins <=? nofWinsB)%Z
  then (Galloping, minGallop)
  else (OneByOne 0 0, (minGallop + 1)%Z).

(** The loops of [MergeLow].  [out] is what has been written to the
    destination, [ta] what is left of the copy of run A, [wb] what is left
    of run B; [minGallop] is the local of that name and [saved] the field
    [sortState.minGallop].  Label [Succeed] writes what is left of A after
    [out]; label [CopyB] moves what is left of B and puts the last element
    of A behind it. *)
Fixpoint merge_low_loop (fuel : nat) (mode : merge_mode) (minGallop saved : Z)
    (out ta wb : list A) : list A * Z :=
  match fuel with
  | O => (out ++ ta ++ wb, saved)
  | S fuel' =>
      match ta, wb with
      | a :: ta', b :: wb' =>
          match mode with
          | OneByOne nofWinsA nofWinsB =>
              if before b a then
                match wb' with
                | [] => (out ++ [b] ++ ta, saved)
                | _ :: _ =>
                    if (minGallop <=? nofWinsB + 1)%Z
                    then merge_low_loop fuel' Galloping (minGallop + 1)%Z saved
                           (out ++ [b]) ta wb'
                    else merge_low_loop fuel' (OneByOne 0 (nofWinsB + 1)%Z)
                           minGallop saved (out ++ [b]) ta wb'
                end
              else
                match ta' with
                | [_] => (out ++ [a] ++ wb ++ ta', saved)
                | _ =>
                    if (minGallop <=? nofWinsA + 1)%Z
                    then merge_low_loop fuel' Galloping (minGallop + 1)%Z saved
                           (out ++ [a]) ta' wb
                    else merge_low_loop fuel' (OneByOne (nofWinsA + 1)%Z 0)
                           minGallop saved (out ++ [a]) ta' wb
                end
          | Galloping =>
              let minGallop := Z.max 1 (minGallop - 1) in
              let saved := minGallop in
              let nofWinsA := GallopRight b ta 0 in
              let out1 := out ++ firstn (Z.to_nat nofWinsA) ta in
              let ta1 := skipn (Z.to_nat nofWinsA) ta in
              match (0 <? nofWinsA)%Z, ta1 with
              | true, [_] => (out1 ++ wb ++ ta1, saved)
              | true, [] => (out1 ++ wb, saved)
              | _, _ =>
                  match wb' with
                  | [] => (out1 ++ [b] ++ ta1, saved)
                  | _ :: _ =>
                      match ta1 with
                      | [] => (out1 ++ [b] ++ wb', saved)
                      | a1 :: ta2 =>
                          let nofWinsB := GallopLeft a1 wb' 0 in
                          let out2 := out1 ++ [b] ++ firstn (Z.to_nat nofWinsB) wb' in
                          let wb2 := skipn (Z.to_nat nofWinsB) wb' in
                          match (0 <? nofWinsB)%Z, wb2 with
                          | true, [] => (out2 ++ ta1, saved)
                          | _, _ =>
                              match ta2 with
                              | [_] => (out2 ++ [a1] ++ wb2 ++ ta2, saved)
                              | _ =>
                                  let '(mode', minGallop') :=
                                    after_gallop minGallop nofWinsA nofWinsB in
                                  merge_low_loop fuel' mode' minGallop'
                                    (match mode' with
                                     | Galloping => saved
                                     | OneByOne _ _ => minGallop'
                                     end)
                                    (out2 ++ [a1]) ta2 wb2
                              end
                          end
                      end
                  end
              end
          end
      | _, _ => (out ++ ta ++ wb, saved)
      end
  end.

(** [MergeLow]: run A is copied aside and the merge goes from the left; the
    first element of B is moved before any comparison. *)
Definition MergeLow (saved : Z) (runA runB : list A) : list A * Z :=
  match runB with
  | [] => (runA, saved)
  | b :: wb =>
      match wb, runA with
      | [], _ => (b :: runA, saved)
      | _, [_] => (b :: wb ++ runA, saved)
      | _, _ =>
          merge_low_loop (List.length runA + List.length runB)
            (OneByOne 0 0) saved saved [b] runA wb
      end
  end.

Definition unsnoc (l : list A) : option (list A * A) :=
  match rev l with
  | [] => None
  | x :: r => Some (rev r, x)
  end.

Definition lastn (n : nat) (l : list A) : list A :=
  skipn (List.length l - n) l.

Definition droplast (n : nat) (l : list A) : list A :=
  firstn (List.length l - n) l.

(** The loops of [MergeHigh], which merges from the right: [wa] is what is
    left of run A, [tb] what is left of the copy of run B, [out] what has
    been written at the end of the destination.  Label [Succeed] writes
    what is left of B before [out]; label [CopyA] moves what is left of A
    and puts the first element of B in front of it. *)
Fixpoint merge_high_loop (fuel : nat) (mode : merge_mode) (minGallop saved : Z)
    (wa tb out : list A) : list A * Z :=
  match fuel with
  | O => (wa ++ tb ++ out, saved)
  | S fuel' =>
      match unsnoc wa, unsnoc tb with
      | Some (wa', a), Some (tb', b) =>
          match mode with
          | OneByOne nofWinsA nofWinsB =>
              if before b a then
                match wa' with
                | [] => (tb ++ [a] ++ out, saved)
                | _ :: _ =>
                    if (minGallop <=? nofWinsA + 1)%Z
                    then merge_high_loop fuel' Galloping (minGallop + 1)%Z saved
                           wa' tb (a :: out)
                    else merge_high_loop fuel' (OneByOne (nofWinsA + 1)%Z 0)
                           minGallop saved wa' tb (a :: out)
                end
              else
                match tb' with
                | [_] => (tb' ++ wa ++ [b] ++ out, saved)
                | _ =>
                    if (minGallop <=? nofWinsB + 1)%Z
                    then merge_high_loop fuel' Galloping (minGallop + 1)%Z saved
                           wa tb' (b :: out)
                    else merge_high_loop fuel' (OneByOne 0 (nofWinsB + 1)%Z)
                           minGallop saved wa tb' (b :: out)
                end
          | Galloping =>
              let minGallop := Z.max 1 (minGallop - 1) in
              let saved := minGallop in
              let lengthA := Z.of_nat (List.length wa) in
              let k := GallopRight b wa (lengthA - 1) in
              let nofWinsA := (lengthA - k)%Z in
              let out1 := lastn (Z.to_nat nofWinsA) wa ++ out in
              let wa1 := droplast (Z.to_nat nofWinsA) wa in
              match (0 <? nofWinsA)%Z, wa1 with
              | true, [] => (tb ++ out1, saved)
              | _, _ =>
                  match tb' with
                  | [_] => (tb' ++ wa1 ++ [b] ++ out1, saved)
                  | _ =>
                      match unsnoc wa1 with
                      | None => (tb' ++ [b] ++ out1, saved)
                      | Some (wa2, a1) =>
                          let lengthB := Z.of_nat (List.length tb') in
                          let k := GallopLeft a1 tb' (lengthB - 1) in
                          let nofWinsB := (lengthB - k)%Z in
                          let out2 := lastn (Z.to_nat nofWinsB) tb' ++ [b] ++ out1 in
                          let tb2 := droplast (Z.to_nat nofWinsB) tb' in
                          match (0 <? nofWinsB)%Z, tb2 with
                          | true, [_] => (tb2 ++ wa1 ++ out2, saved)
                          | true, [] => (wa1 ++ out2, saved)
                          | _, _ =>
                              match wa2 with
                              | [] => (tb2 ++ [a1] ++ out2, saved)
                              | _ :: _ =>
                                  let '(mode', minGallop') :=
                                    after_gallop minGallop nofWinsA nofWinsB in
                                  merge_high_loop fuel' mode' minGallop'
                                    (match mode' with
                                     | Galloping => saved
                                     | OneByOne _ _ => minGallop'
                                     end)
                                    wa2 tb2 (a1 :: out2)
                              end
                          end
                      end
                  end
              end
          end
      | _, _ => (wa ++ tb ++ out, saved)
      end
  end.

(** [MergeHigh]: run B is copied aside; the last element of A is moved
    before any comparison. *)
Definition MergeHigh (saved : Z) (runA runB : list A) : list A * Z :=
  match unsnoc runA with
  | None => (runB, saved)
  | Some (wa, a) =>
      match wa, runB with
      | [], _ => (runB ++ [a], saved)
      | _, [_] => (runB ++ runA, saved)
      | _, _ =>
          merge_high_loop (List.length runA + List.length runB)
            (OneByOne 0 0) saved saved wa runB [a]
      end
  end.

(** [MergeAt]: the part of A that is already in place and the part of B
    that is already in place are left alone, the rest is merged. *)
Definition MergeAt (saved : Z) (runA runB : list A) : list A * Z :=
  match runB with
  | [] => (runA, saved)
  | keyRight :: _ =>
      let k := Z.to_nat (GallopRight keyRight runA 0) in
      let a1 := skipn k runA in
      match unsnoc a1 with
      | None => (runA ++ runB, saved)
      | Some (_, keyLeft) =>
          let lengthB :=
            Z.to_nat (GallopLeft keyLeft runB (Z.of_nat (List.length runB) - 1)) in
          let b1 := firstn lengthB runB in
          match b1 with
          | [] => (runA ++ runB, saved)
          | _ :: _ =>
              let '(merged, saved') :=
                if (List.length a1 <=? List.length b1)%nat
                then MergeLow saved a1 b1
                else MergeHigh saved a1 b1 in
              (firstn k runA ++ merged ++ skipn lengthB runB, saved')
          end
      end
  end.

(** The stack of pending runs, the latest run first. *)
Definition run_stack := list (list A).

(** [MergeCollapse]. *)
Fixpoint MergeCollapse (fuel : nat) (saved : Z) (pending : run_stack)
  : run_stack * Z :=
  match fuel with
  | O => (pending, saved)
  | S fuel' =>
      match pending with
      | x :: y :: below =>
          let lx := List.length x in
          let ly := List.length y in
          let established_top :=
            match below with
            | z :: _ => (ly + lx <? List.length z)%nat
            | [] => true
            end in
          let established_next :=
            match below with
            | z :: w :: _ => (List.length z + ly <? List.length w)%nat
            | _ => true
            end in
          if negb established_top || negb established_next then
            match below with
            | z :: below' =>
                if (List.length z <? lx)%nat then
                  let '(m, saved') := MergeAt saved z y in
                  MergeCollapse fuel' saved' (x :: m :: below')
                else
                  let '(m, saved') := MergeAt saved y x in
                  MergeCollapse fuel' saved' (m :: below)
            | [] =>
                let '(m, saved') := MergeAt saved y x in
                MergeCollapse fuel' saved' (m :: below)
            end
          else if (ly <=? lx)%nat then
            let '(m, saved') := MergeAt saved y x in
            MergeCollapse fuel' saved' (m :: below)
          else (pending, saved)
      | _ => (pending, saved)
      end
  end.

(** [MergeForceCollapse]. *)
Fixpoint MergeForceCollapse (fuel : nat) (saved : Z) (pending : run_stack)
  : run_stack * Z :=
  match fuel with
  | O => (pending, saved)
  | S fuel' =>
      match pending with
      | x :: y :: below =>
          match below with
          | z :: below' =>
              if (List.length z <? List.length x)%nat then
                let '(m, saved') := MergeAt saved z y in
                MergeForceCollapse fuel' saved' (x :: m :: below')
              else
                let '(m, saved') := MergeAt saved y x in
                MergeForceCollapse fuel' saved' (m :: below)
          | [] =>
              let '(m, saved') := MergeAt saved y x in
              MergeForceCollapse fuel' saved' (m :: below)
          end
      | _ => (pending, saved)
      end
  end.

(** The main loop of [ArrayTimSortImpl]. *)
Fixpoint timsort_loop (fuel : nat) (minRunLength : nat) (saved : Z)
    (pending : run_stack) (remaining : list A) : run_stack * Z :=
  match fuel with
  | O => (pending, saved)
  | S fuel' =>
      match remaining with
      | [] => (pending, saved)
      | _ :: _ =>
          let '(run, rest) := CountAndMakeRun remaining in
          let '(run, rest) :=
            if (List.length run <? minRunLength)%nat then
              let forcedRunLength := Nat.min minRunLength (List.length remaining) in
              BinaryInsertionSort (forcedRunLength - List.length run) run rest
            else (run, rest) in
          let '(pending', saved') :=
            MergeCollapse (S (List.length pending)) saved (run :: pending) in
          timsort_loop fuel' minRunLength saved' pending' rest
      end
  end.

(** [arr.sort(comparefn)] on an array without holes or [undefined]. *)
Definition sort (l : list A) : list A :=
  if (List.length l <? 2)%nat then l
  else
    let '(pending, saved) :=
      timsort_loop (List.length l) (ComputeMinRunLength (List.length l))
        kMinGallopWins [] l in
    let '(pending', _) :=
      MergeForceCollapse (List.length pending) saved pending in
    List.concat (rev pending').

End Sort.

End ArraySort.

(* ================================================================== *)
(** ** The pure helpers of the source *)
(* ================================================================== *)

(** [type FileBlob = { path: string; size: number; content: string }] *)
Record FileBlob := mkFileBlob {
  path : jsstring;
  size : N;
  content : jsstring
}.

(** [clampBytes(s, max)]:
    [b.byteLength <= max ? s : b.subarray(0, max).toString("utf8")]. *)
Definition clampBytes (s : jsstring) (max : N) : jsstring :=
  let b := utf8_encode s in
  if N.of_nat (List.length b) <=? max then s
  else utf8_decode (firstn (N.to_nat max) b).

(** [normalizeERD(s)]. *)
Definition normalizeERD {ucd : CaseData} (s : jsstring) : jsstring :=
  toLowerCase
    (join [0x0A]
       (filter (fun l => 0 <? N.of_nat (List.length l))
          (map trim
             (split 0x0A
                (replace_crlf s))))).

(** [args.schemaFiles.sort((a, b) => a.path.includes("db/schema.rb") ? -1 : 0)]:
    the comparison function. *)
Definition schema_first (a b : FileBlob) : Z :=
  if includes (str "db/schema.rb") (path a) then (-1)%Z else 0%Z.

(** [f => `# ${f.path}\n${f.content}`]. *)
Definition snippet (f : FileBlob) : jsstring :=
  str "# " ++ path f ++ [0x0A] ++ content f.

Definition MAX_SCHEMA_BYTES : N := 250000.

(** The separator of the snippets: a rule between two blank lines. *)
Definition snippet_separator : jsstring := [0x0A; 0x0A] ++ str "---" ++ [0x0A; 0x0A].

(** The fixed text of the template literal of [buildPrompt], in the four
    pieces its three substitutions leave. *)
Definition prompt_head : jsstring := str "
You are a meticulous database reverse-engineer.

Repository: ".

Definition prompt_rules : jsstring := str "

GOAL:
- Generate a **Mermaid ER diagram** for the repository’s database and return it ONLY if it differs from the provided ERD.

STRICT OUTPUT CONTRACT (very important):
- If the CURRENT_ERD is **semantically equivalent** and only differs by formatting, alignment, whitespace, ordering, or trivial label/style differences, output exactly: NO_CHANGE
- Otherwise, output **only** a single Mermaid ERD that begins with: erDiagram
- Do not wrap in backticks. No prose.
- The given CURRENT_ERD may contain backticks and a mermaid delimiter. DO NOT under any circumstance count this as a difference to yours.

MATERIAL CHANGE RULES (what counts as different):
- Added/removed entities (tables)
- Added/removed columns
- Column type/nullable/default changes
- Primary/unique/index constraints changed
- Foreign keys/relationships added/removed
- Relationship cardinality changed (e.g., one-to-many vs many-to-many)
- Entity/column rename **only** if schema clearly implies the rename (not just cosmetic)

NORMALIZATION RULES (to ignore cosmetic diffs):
- Sort entities and attributes alphabetically for stability.
- Normalize whitespace and indentation.
- Ignore comment text and layout/alignment differences.

CRITICAL INSTRUCTION:
- If the CURRENT_ERD is semantically equivalent to the diagram you generate, you must output the literal string: NO_CHANGE.
- Do NOT regenerate or echo the diagram in this case.
- Failure to comply will be treated as an error.

CURRENT ERD:
".

Definition prompt_schema_heading : jsstring := str "

SCHEMA SNIPPETS:
".

Definition prompt_tail : jsstring := str "
".

(** The argument object of [buildPrompt]. *)
Record PromptArgs := mkPromptArgs {
  repo : jsstring;
  schemaFiles : list FileBlob;
  currentERD : option jsstring     (* [string | null] *)
}.

(** What [cond ? a : b] tests on a [string | null]: [null] and the empty
    string are falsy. *)
Definition truthy (s : option jsstring) : bool :=
  match s with
  | Some (_ :: _) => true
  | _ => false
  end.

(** The text of a [string | null] that is truthy; the empty text
    otherwise. *)
Definition stored_text (currentERD : option jsstring) : jsstring :=
  match currentERD with
  | Some erd => erd
  | None => []
  end.

(** [args.currentERD ? `CURRENT_ERD:\n${args.currentERD}` : "CURRENT_ERD: (none)"]. *)
Definition current_section (currentERD : option jsstring) : jsstring :=
  if truthy currentERD
  then str "CURRENT_ERD:" ++ [0x0A] ++ stored_text currentERD
  else str "CURRENT_ERD: (none)".

Definition schemaJoined (sorted : list FileBlob) : jsstring :=
  join snippet_separator (map snippet sorted).

(** [buildPrompt(args)].  [sort] works in place: the second component is
    the array [args.schemaFiles] as the call leaves it. *)
Definition buildPrompt (args : PromptArgs) : jsstring * list FileBlob :=
  let sorted := ArraySort.sort schema_first (schemaFiles args) in
  let current := current_section (currentERD args) in
  (trim (prompt_head ++ repo args ++ prompt_rules ++ current
         ++ prompt_schema_heading
         ++ clampBytes (schemaJoined sorted) MAX_SCHEMA_BYTES
         ++ prompt_tail),
   sorted).

(* ================================================================== *)
(** ** The environment of a run and its effects *)
(* ================================================================== *)

(** A computation that may throw: [Throw m] is an [Error] with message [m]. *)
Inductive result (A : Type) : Type :=
| Ok (a : A)
| Throw (message : jsstring).

Arguments Ok {A} a.
Arguments Throw {A} message.

(** What [fs.stat] tells about a path. *)
Record Stats := mkStats {
  isFile : bool;
  st_size : N
}.

(** [type OpenAIChatResponse = { choices: { message?: { content?: string } }[] }] *)
Record ChatMessage := mkChatMessage { msg_content : option jsstring }.
Record ChatChoice := mkChatChoice { message : option ChatMessage }.
Record OpenAIChatResponse := mkChatResponse { choices : list ChatChoice }.

(** The request [callOpenAI] sends and the response it reads. *)
Record Request := mkRequest {
  req_url : jsstring;
  req_method : jsstring;
  req_authorization : jsstring;
  req_content_type : jsstring;
  body_model : jsstring;
  body_temperature : Z;
  body_messages : list (jsstring * jsstring)     (* role, content *)
}.

Record Response := mkResponse {
  res_ok : bool;
  res_status : N;
  res_text : result jsstring;
  res_json : result OpenAIChatResponse
}.

(** Everything outside the program that one run reads. *)
Record World := mkWorld {
  inputs : jsstring -> jsstring;                   (* the action's inputs, [""] when not given *)
  context_owner : jsstring;                        (* [github.context.repo.owner] *)
  context_repo : jsstring;                         (* [github.context.repo.repo] *)
  globby : list jsstring -> result (list jsstring);
  fs_stat : jsstring -> result Stats;
  fs_readFile : jsstring -> result jsstring;
  fetch : Request -> result Response;
  summary_write : jsstring -> result unit          (* appending to the step summary *)
}.

(** What a run does to the outside, in order. *)
Inductive Event :=
| LogInfo (m : jsstring)          (* [core.info] *)
| LogWarning (m : jsstring)       (* [core.warning] *)
| LogError (m : jsstring)         (* [core.error] *)
| SetFailed (m : jsstring)        (* [core.setFailed]: the job fails *)
| SummaryWrite (text : jsstring)  (* the call of [core.summary.addRaw(..).write()] *)
| HttpPost (r : Request).         (* the call of [fetch] *)

(** Computations that log events and may throw. *)
Definition M (A : Type) : Type := list Event -> result A * list Event.

Definition ret {A} (a : A) : M A := fun tr => (Ok a, tr).

Definition bind {A B} (c : M A) (k : A -> M B) : M B :=
  fun tr =>
    match c tr with
    | (Ok a, tr') => k a tr'
    | (Throw m, tr') => (Throw m, tr')
    end.

Definition throw {A} (m : jsstring) : M A := fun tr => (Throw m, tr).

Definition emit (e : Event) : M unit := fun tr => (Ok tt, tr ++ [e]).

Definition lift {A} (r : result A) : M A := fun tr => (r, tr).

Notation "x <- c ;; k" := (bind c (fun x => k))
  (at level 61, c at next level, right associativity).
Notation "c ;;; k" := (bind c (fun _ => k))
  (at level 61, right associativity).

Definition core_info (m : jsstring) : M unit := emit (LogInfo m).
Definition core_warning (m : jsstring) : M unit := emit (LogWarning m).
Definition core_error (m : jsstring) : M unit := emit (LogError m).
Definition core_setFailed (m : jsstring) : M unit := emit (SetFailed m).

(** [core.summary.addRaw(text, true).write()]: the text and an end of line
    are appended to the file of the step summary; the write throws when
    the runner names no such file or the file cannot be written. *)
Definition core_summary_write (w : World) (text : jsstring) : M unit :=
  let buffer := text ++ [0x0A] in
  emit (SummaryWrite buffer) ;;;
  lift (summary_write w buffer).

(** [core.getInput(name, { required })]: the trimmed value; a required
    input that is empty throws. *)
Definition core_getInput (w : World) (name : jsstring) (required : bool)
  : M jsstring :=
  let val := inputs w name in
  if required && is_empty val
  then throw (str "Input required and not supplied: " ++ name)
  else ret (trim val).

(** [fileExists(p)]: [try { await fs.stat(p); return true } catch { return false }]. *)
Definition fileExists (w : World) (p : jsstring) : bool :=
  match fs_stat w p with
  | Ok _ => true
  | Throw _ => false
  end.

(** [readText(p)]. *)
Definition readText (w : World) (p : jsstring) : result jsstring :=
  fs_readFile w p.

(** The loop of [collect]: a path whose [stat] or read throws is skipped. *)
Fixpoint collect_loop (w : World) (paths : list jsstring) (out : list FileBlob)
  : list FileBlob :=
  match paths with
  | [] => out
  | p :: rest =>
      match fs_stat w p with
      | Ok st =>
          if isFile st && (st_size st <? 1000000) then
            match readText w p with
            | Ok text => collect_loop w rest (out ++ [mkFileBlob p (st_size st) text])
            | Throw _ => collect_loop w rest out
            end
          else collect_loop w rest out
      | Throw _ => collect_loop w rest out
      end
  end.

(** [globsCSV.split(",").map(s => s.trim()).filter(Boolean)]. *)
Definition parse_globs (globsCSV : jsstring) : list jsstring :=
  filter (fun s => negb (is_empty s)) (map trim (split 0x2C globsCSV)).

(** [collect(globsCSV)]. *)
Definition collect (w : World) (globsCSV : jsstring) : result (list FileBlob) :=
  let globs := parse_globs globsCSV in
  match globby w globs with
  | Ok paths => Ok (collect_loop w paths [])
  | Throw m => Throw m
  end.

(** Decimal digits of a number, as [`${n}`] writes it. *)
Definition decimal (n : N) : jsstring :=
  str (NilEmpty.string_of_uint (N.to_uint n)).

(** [.replace(/^```(?:mermaid)?/i, "")]. *)
Definition strip_opening_fence (s : jsstring) : jsstring :=
  if startsWith (str "```") s then
    let r := skipn 3 s in
    if startsWith_i (str "mermaid") r then skipn 7 r else r
  else s.

(** [.replace(/```$/i, "")]. *)
Definition strip_closing_fence (s : jsstring) : jsstring :=
  if endsWith (str "```") s then firstn (List.length s - 3) s else s.

(** [data.choices?.[0]?.message?.content?.trim() || ""]. *)
Definition first_content (data : OpenAIChatResponse) : jsstring :=
  match choices data with
  | [] => []
  | c :: _ =>
      match message c with
      | None => []
      | Some m =>
          match msg_content m with
          | None => []
          | Some text => trim text
          end
      end
  end.

(** The request of [callOpenAI]: the URL, the method, the two headers and
    the fields of the JSON body. *)
Definition openai_request (apiKey model prompt : jsstring) : Request :=
  mkRequest (str "https://api.openai.com/v1/chat/completions")
            (str "POST")
            (str "Bearer " ++ apiKey)
            (str "application/json")
            model 0%Z [(str "user", prompt)].

(** [callOpenAI(apiKey, model, prompt)]. *)
Definition callOpenAI (w : World) (apiKey model prompt : jsstring) : M jsstring :=
  let request := openai_request apiKey model prompt in
  emit (HttpPost request) ;;;
  res <- lift (fetch w request) ;;
  if negb (res_ok res) then
    txt <- lift (res_text res) ;;
    throw (str "OpenAI API error: " ++ decimal (res_status res) ++ str " " ++ txt)
  else
    data <- lift (res_json res) ;;
    let text := first_content data in
    ret (trim (strip_closing_fence (strip_opening_fence text))).

(** The outcome of the classification. *)
Inductive ComparisonResult :=
| NoChange
| MaterialChange (diagramText : jsstring).

(** The [return] (or the end of the body) at which [run] leaves. *)
Inductive RunExit :=
| NoSchemaFiles                        (* the guard after [collect] *)
| Classified (c : ComparisonResult).

(** [`${currentERD}`] in a concatenation: [null] prints as its name. *)
Definition show_nullable (s : option jsstring) : jsstring :=
  match s with
  | Some t => t
  | None => str "null"
  end.

(** The summary of a material change. *)
Definition summary_text (outputPath result : jsstring) : jsstring :=
  join [0x0A]
    [ str "### ERD requires update";
      [];
      str "The generated ERD differs **materially** from the file in the repo.";
      str "Please update `" ++ outputPath ++ str "` to the following:";
      [];
      str "```mermaid";
      result;
      str "```" ].

(** [/^no_change$/i.test(result)]. *)
Definition is_sentinel (result : jsstring) : bool :=
  equals_i (str "no_change") result.

(** [(await fileExists(outputPath)) ? await readText(outputPath) : null]. *)
Definition read_currentERD (w : World) (outputPath : jsstring)
  : result (option jsstring) :=
  if fileExists w outputPath then
    match readText w outputPath with
    | Ok text => Ok (Some text)
    | Throw m => Throw m
    end
  else Ok None.

Definition detected_message (currentERD : option jsstring) : jsstring :=
  str "Detected current ERD as" ++ [0x0A] ++ show_nullable currentERD.

Definition no_schema_message : jsstring :=
  str "No schema-like files found. Adjust 'schema_globs'.".

(** [run()], lines 121 to 142: the inputs, the collection with its guard,
    the stored diagram, the prompt and the call of the generator.  [None]
    is the [return] of the guard; otherwise the values of [outputPath],
    [currentERD] and [result] are handed on. *)
Definition run_until_answer (w : World)
  : M (option (jsstring * option jsstring * jsstring)) :=
  openai_api_key <- core_getInput w (str "openai_api_key") true ;;
  model <- core_getInput w (str "model") false ;;
  outputPath <- core_getInput w (str "output_path") false ;;
  include_models <- core_getInput w (str "include_models") false ;;
  let includeModels := eqb include_models (str "true") in
  schemaGlobs <- core_getInput w (str "schema_globs") false ;;
  schemaFiles <- lift (collect w schemaGlobs) ;;
  match schemaFiles with
  | [] =>
      core_setFailed no_schema_message ;;;
      ret None
  | _ :: _ =>
      currentERD <- lift (read_currentERD w outputPath) ;;
      core_info (detected_message currentERD) ;;;
      let '(prompt, _) :=
        buildPrompt
          (mkPromptArgs (context_owner w ++ str "/" ++ context_repo w)
                        schemaFiles currentERD) in
      result <- callOpenAI w openai_api_key model prompt ;;
      ret (Some (outputPath, currentERD, result))
  end.

Definition no_change_message : jsstring :=
  str "Model reported NO_CHANGE — ERD is up to date.".

Definition unrecognized_message : jsstring :=
  str "Model did not return NO_CHANGE or an 'erDiagram' block. Treating as material change.".

Definition normalized_match_message : jsstring :=
  str "Normalized ERDs match; treating as NO_CHANGE.".

Definition received_message (result : jsstring) : jsstring :=
  str "Recieved the following response from OpenAI" ++ [0x0A] ++ result.

Definition update_message (outputPath : jsstring) : jsstring :=
  str "Material ERD change detected. Update " ++ outputPath
  ++ str " with the ERD shown in the job summary.".

(** [run()], lines 143 to 178: the classification of the answer. *)
Definition classify {ucd : CaseData} (w : World) (outputPath : jsstring)
    (currentERD : option jsstring) (result : jsstring) : M RunExit :=
  core_info (received_message result) ;;;
  if is_sentinel result then
    core_info no_change_message ;;;
    ret (Classified NoChange)
  else
    (if negb (startsWith (str "erdiagram") (toLowerCase result))
     then core_warning unrecognized_message
     else ret tt) ;;;
    let currentNorm :=
      if truthy currentERD then normalizeERD (stored_text currentERD) else [] in
    let newNorm := normalizeERD result in
    if eqb currentNorm newNorm then
      core_info normalized_match_message ;;;
      ret (Classified NoChange)
    else
      core_summary_write w (summary_text outputPath result) ;;;
      core_error (update_message outputPath) ;;;
      core_setFailed (str "ERD out of date") ;;;
      ret (Classified (MaterialChange result)).

(** [run()].  The value returned names the exit taken; the source returns
    nothing there. *)
Definition run {ucd : CaseData} (w : World) : M RunExit :=
  answer <- run_until_answer w ;;
  match answer with
  | None => ret NoSchemaFiles
  | Some (outputPath, currentERD, result) =>
      classify w outputPath currentERD result
  end.

(** [.catch(err => core.setFailed(err.message))]. *)
Definition catch_setFailed (r : result RunExit * list Event)
  : result RunExit * list Event :=
  match r with
  | (Ok e, tr) => (Ok e, tr)
  | (Throw m, tr) => (Throw m, tr ++ [SetFailed m])
  end.

(** [run().catch(err => core.setFailed(err.message))], from an empty log. *)
Definition main {ucd : CaseData} (w : World) : result RunExit * list Event :=
  catch_setFailed (run w []).

(** The job fails when [core.setFailed] was called. *)
Definition is_SetFailed (e : Event) : bool :=
  match e with SetFailed _ => true | _ => false end.

Definition is_HttpPost (e : Event) : bool :=
  match e with HttpPost _ => true | _ => false end.

Definition is_LogWarning (e : Event) : bool :=
  match e with LogWarning _ => true | _ => false end.

Definition job_failed (tr : list Event) : bool := existsb is_SetFailed tr.

(* ================================================================== *)
(** ** Notions used to state the properties *)
(* ================================================================== *)

(** The prompts of the requests in a log. *)
Definition sent_prompts (tr : list Event) : list jsstring :=
  flat_map (fun e => match e with
                     | HttpPost r => map snd (body_messages r)
                     | _ => []
                     end) tr.

(** The PromptContext of a run: the repository identifier, the collected
    schema files and the stored diagram, as [run] reads them. *)
Definition prompt_context (w : World) : result PromptArgs :=
  match collect w (trim (inputs w (str "schema_globs"))) with
  | Throw m => Throw m
  | Ok files =>
      match read_currentERD w (trim (inputs w (str "output_path"))) with
      | Throw m => Throw m
      | Ok cur =>
          Ok (mkPromptArgs (context_owner w ++ str "/" ++ context_repo w)
                           files cur)
      end
  end.

(** The events of the second layer before its decision. *)
Definition keyword_check {ucd : CaseData} (result : jsstring) : list Event :=
  if startsWith (str "erdiagram") (toLowerCase result) then []
  else [LogWarning unrecognized_message].

(** An optional element as a list of at most one. *)
Definition option_list {A} (o : option A) : list A :=
  match o with Some a => [a] | None => [] end.

(** The test of the filter of [normalizeERD]: [l.length > 0]. *)
Definition nonblank (l : jsstring) : bool := 0 <? N.of_nat (List.length l).

(** A text that does not begin with white space. *)
Definition head_ok (l : jsstring) : Prop :=
  match l with
  | [] => True
  | u :: _ => is_whitespace u = false
  end.

(** A text without white space at either end. *)
Definition trimmed (l : jsstring) : Prop := head_ok l /\ head_ok (rev l).

Definition all_whitespace (l : jsstring) : Prop :=
  Forall (fun u => is_whitespace u = true) l.

(** A line as the split leaves it, and the same line when the line ending
    was a carriage return and a line feed. *)
Definition with_cr (l l' : jsstring) : Prop := l' = l \/ l' = l ++ [0x0D].

(** The lines of a text that count for the comparison. *)
Definition significant_lines (s : jsstring) : list jsstring :=
  filter nonblank (map trim (split 0x0A s)).

(** Code units of the Basic Latin block: one byte each in UTF-8. *)
Definition basic_latin (s : jsstring) : Prop := Forall (fun u => u < 0x80) s.

(** A schema file of 249,986 bytes: 249,984 letters [a] and one [é]. *)
Definition long_schema : FileBlob :=
  mkFileBlob (str "db/schema.rb") 249986
             (repeat 0x61 (N.to_nat 249984) ++ [0xE9]).

(** The elements that satisfy [p], the latest first, and then the others
    in the order they had. *)
Definition primary_first {A} (p : A -> bool) (l : list A) : list A :=
  rev (filter p l) ++ filter (fun a => negb (p a)) l.

(** Eighty numbers out of order, and the comparison function [a - b]. *)
Definition eighty_numbers : list Z :=
  map (fun i => Z.of_nat ((i * 37) mod 80)) (seq 0 80).

Definition by_difference (a b : Z) : Z := (a - b)%Z.

(** Seventy schema files, every seventh of them a primary one. *)
Definition seventy_files : list FileBlob :=
  map (fun i =>
         mkFileBlob ((if (i mod 7 =? 3)%nat then str "engines/e" else str "db/migrate/m")
                     ++ decimal (N.of_nat i)
                     ++ (if (i mod 7 =? 3)%nat then str "/db/schema.rb" else str ".rb"))
                    (N.of_nat i) [])
      (seq 0 70).

(** What the loop of [collect] keeps of one matched path. *)
Definition collected (w : World) (p : jsstring) : option FileBlob :=
  match fs_stat w p with
  | Ok st =>
      if isFile st && (st_size st <? 1000000) then
        match readText w p with
        | Ok text => Some (mkFileBlob p (st_size st) text)
        | Throw _ => None
        end
      else None
  | Throw _ => None
  end.

(** Does the path name the primary schema definition file? *)
Definition is_primary (f : FileBlob) : bool :=
  includes (str "db/schema.rb") (path f).



(** *** Notions for the encoding *)

(** A Unicode scalar value: a code point that is not a surrogate. *)
Definition scalar (c : N) : bool :=
  (c <? 0xD800) || ((0xDFFF <? c) && (c <? 0x110000)).

(** A string of code units without unpaired surrogate. *)
Fixpoint well_formed (s : jsstring) : bool :=
  match s with
  | [] => true
  | u :: rest =>
      if is_high_surrogate u then
        match rest with
        | v :: rest' => is_low_surrogate v && well_formed rest'
        | [] => false
        end
      else negb (is_low_surrogate u) && (u <? 0x10000) && well_formed rest
  end.

(** Every unit of the string is a code unit. *)
Definition code_units (s : jsstring) : Prop := Forall (fun u => u < 0x10000) s.

(** The decoder run over some bytes without the end of input: what it
    emits and the state it is left in. *)
Fixpoint decode_run (st : decoder) (bs : list byte) : list N * decoder :=
  match bs with
  | [] => ([], st)
  | b :: bs' =>
      let '(out, st') := decode_step st b in
      let '(outs, st'') := decode_run st' bs' in
      (out ++ outs, st'')
  end.

Definition decoder_is_init (st : decoder) : bool :=
  (dec_cp st =? 0) && (dec_seen st =? 0) && (dec_needed st =? 0)
  && (dec_lower st =? 0x80) && (dec_upper st =? 0xBF).

(** The bytes were the whole encoding of [c]. *)
Definition decodes_to (c : N) (r : list N * decoder) : bool :=
  eqb (fst r) [c] && decoder_is_init (snd r).

(** The bytes were the start of an encoding and no more. *)
Definition decodes_pending (r : list N * decoder) : bool :=
  is_empty (fst r) && negb (dec_needed (snd r) =? 0).

Definition utf16_ok (c : N) : bool :=
  match utf16_of_codePoint c with
  | [u] =>
      (u =? c) && negb (is_high_surrogate u) && negb (is_low_surrogate u)
  | [h; l] =>
      is_high_surrogate h && is_low_surrogate l
      && (0x10000 + (h - 0xD800) * 0x400 + (l - 0xDC00) =? c)
  | _ => false
  end.

(** What the proofs about the encoding need of one scalar value: its
    bytes decode to it, every proper start of its bytes is an incomplete
    sequence, and its code units give it back. *)
Definition scalar_ok (c : N) : bool :=
  let bs := utf8_of_codePoint c in
  decodes_to c (decode_run decoder_init bs)
  && forallb (fun j => (List.length bs <=? j)%nat
                       || decodes_pending (decode_run decoder_init (firstn j bs)))
             [1; 2; 3]%nat
  && utf16_ok c.

(** [ok] on every number from [base] up to [base + 2^bits]. *)
Fixpoint check_range (bits : nat) (base : N) (ok : N -> bool) : bool :=
  match bits with
  | O => ok base
  | S b =>
      check_range b base ok
      && check_range b (base + N.shiftl 1 (N.of_nat b)) ok
  end.

(** [Buffer.byteLength(s, "utf8")]. *)
Definition byteLength (s : jsstring) : N := N.of_nat (List.length (utf8_encode s)).

(** *** Notions for the lower-casing *)

(** The lower-case form of a letter of the Basic Latin block; every other
    code unit is left as it is.  This is how the case-insensitive regular
    expressions of the source fold what they read against the letters of
    their patterns. *)
Definition basic_latin_lower (u : N) : N :=
  if (0x41 <=? u) && (u <=? 0x5A) then u + 0x20 else u.









(** The capital letters of the sample rows: A to Z and U+00C0 to U+00DE
    without the multiplication sign, and U+0391 to U+03AB. *)
Definition latin_capital (c : N) : bool :=
  ((0x41 <=? c) && (c <=? 0x5A))
  || ((0xC0 <=? c) && (c <=? 0xDE) && negb (c =? 0xD7)).

Definition greek_capital (c : N) : bool :=
  (0x391 <=? c) && (c <=? 0x3AB) && negb (c =? 0x3A2).

(** The letters of the sample rows, capital and small. *)
Definition sample_letter (c : N) : bool :=
  latin_capital c
  || ((0x61 <=? c) && (c <=? 0x7A))
  || ((0xDF <=? c) && (c <=? 0xFF) && negb (c =? 0xF7))
  || greek_capital c
  || ((0x3B1 <=? c) && (c <=? 0x3CB)).

(** The case-ignorable characters of the Basic Latin block: apostrophe,
    full stop, colon, circumflex accent and grave accent. *)
Definition sample_ignorable (c : N) : bool :=
  (c =? 0x27) || (c =? 0x2E) || (c =? 0x3A) || (c =? 0x5E) || (c =? 0x60).

(** The rows of the database for the Basic Latin block, for the letters
    from U+00C0 to U+00FF of the Latin-1 Supplement and for the Greek
    letters from U+0391 to U+03AB and from U+03B1 to U+03CB, which is what
    the sample texts are written in.  Every other character is given the
    row of a character without case; the sample texts hold none. *)
Definition unicode_rows : CaseData :=
  {| Lowercase_Mapping := fun c =>
       (if latin_capital c || greek_capital c then c + 0x20 else c, []);
     Sigma_Context := fun c =>
       if sample_letter c then Letter
       else if sample_ignorable c then Skipped
       else Break |}.

(** *** Sample worlds *)

Definition sample_inputs (name : jsstring) : jsstring :=
  if eqb name (str "openai_api_key") then str "sk-sample"
  else if eqb name (str "model") then str "gpt-4o-mini"
  else if eqb name (str "output_path") then str "docs/ERD.md"
  else if eqb name (str "schema_globs") then str "db/schema.rb, db/structure.sql"
  else [].

Definition sample_schema : jsstring := str "create_table :users".
Definition sample_structure : jsstring := str "CREATE TABLE users ();".

(** A repository with two schema files, of which the globbing reports the
    primary one last, and a third path that cannot be read; [stored] is
    the diagram file, if there is one, and [answer] the content of the
    completion, if it has one. *)
Definition sample_world (stored answer : option jsstring) : World :=
  mkWorld
    sample_inputs (str "astley92") (str "merdmaid")
    (fun _ => Ok [str "db/structure.sql"; str "db/gone.rb"; str "db/schema.rb"])
    (fun p =>
       if eqb p (str "db/schema.rb") then Ok (mkStats true 19)
       else if eqb p (str "db/structure.sql") then Ok (mkStats true 22)
       else if eqb p (str "docs/ERD.md") then
         match stored with
         | Some text => Ok (mkStats true (N.of_nat (List.length (utf8_encode text))))
         | None => Throw (str "ENOENT")
         end
       else Throw (str "ENOENT"))
    (fun p =>
       if eqb p (str "db/schema.rb") then Ok sample_schema
       else if eqb p (str "db/structure.sql") then Ok sample_structure
       else if eqb p (str "docs/ERD.md") then
         match stored with
         | Some text => Ok text
         | None => Throw (str "ENOENT")
         end
       else Throw (str "ENOENT"))
    (fun _ =>
       Ok (mkResponse true 200 (Ok [])
             (Ok (mkChatResponse [mkChatChoice (Some (mkChatMessage answer))]))))
    (fun _ => Ok tt).

(** The same repository seen with another credential, another model and
    a generator that refuses. *)
Definition other_world (stored : option jsstring) : World :=
  let w := sample_world stored None in
  mkWorld
    (fun name =>
       if eqb name (str "openai_api_key") then str "sk-other"
       else if eqb name (str "model") then str "gpt-4.1"
       else sample_inputs name)
    (context_owner w) (context_repo w) (globby w) (fs_stat w) (fs_readFile w)
    (fun _ => Ok (mkResponse false 429 (Ok (str "rate limited")) (Throw (str "no body"))))
    (summary_write w).

(** A repository in which the globs match nothing. *)
Definition empty_world : World :=
  mkWorld sample_inputs (str "astley92") (str "merdmaid")
    (fun _ => Ok [])
    (fun _ => Throw (str "ENOENT")) (fun _ => Throw (str "ENOENT"))
    (fun _ => Throw (str "unreachable"))
    (fun _ => Ok tt).

Definition sample_diagram : jsstring := str "erDiagram
  USER { id int }".

(** *** Notions for the run as a whole *)

(** The requests in a log. *)
Definition requests (tr : list Event) : list Request :=
  flat_map (fun e => match e with HttpPost r => [r] | _ => [] end) tr.

(** The request of a run whose PromptContext is [args]. *)
Definition request_of (w : World) (args : PromptArgs) : Request :=
  openai_request (trim (inputs w (str "openai_api_key")))
                 (trim (inputs w (str "model")))
                 (fst (buildPrompt args)).

(** The same world with another value of one input. *)
Definition with_input (w : World) (name v : jsstring) : World :=
  mkWorld (fun n => if eqb n name then v else inputs w n)
          (context_owner w) (context_repo w)
          (globby w) (fs_stat w) (fs_readFile w) (fetch w) (summary_write w).

(** A path that names a regular file under the size limit whose text can
    be read. *)
Definition readable_small_file (w : World) (p : jsstring) : bool :=
  match fs_stat w p, fs_readFile w p with
  | Ok st, Ok _ => isFile st && (st_size st <? 1000000)
  | _, _ => false
  end.

(** The sample repository with a directory where the diagram is kept. *)
Definition directory_world : World :=
  let w := sample_world None None in
  mkWorld
    (inputs w) (context_owner w) (context_repo w) (globby w)
    (fun p => if eqb p (str "docs/ERD.md") then Ok (mkStats false 4096)
              else fs_stat w p)
    (fun p => if eqb p (str "docs/ERD.md") then Throw (str "EISDIR")
              else fs_readFile w p)
    (fetch w) (summary_write w).

(** The sample repository when the globbing fails. *)
Definition broken_glob_world : World :=
  let w := sample_world None None in
  mkWorld
    (inputs w) (context_owner w) (context_repo w)
    (fun _ => Throw (str "EACCES"))
    (fs_stat w) (fs_readFile w) (fetch w) (summary_write w).

(** The message of the write of the summary on a runner that names no
    file for it. *)
Definition no_summary_message : jsstring :=
  str "Unable to find environment variable for $GITHUB_STEP_SUMMARY. Check if your runtime environment supports job summaries.".

(** The sample repository on such a runner. *)
Definition no_summary_world (stored answer : option jsstring) : World :=
  let w := sample_world stored answer in
  mkWorld
    (inputs w) (context_owner w) (context_repo w) (globby w)
    (fs_stat w) (fs_readFile w) (fetch w)
    (fun _ => Throw no_summary_message).

(** *** Proof steps *)

Ltac run_steps :=
  cbv [classify bind ret emit lift core_info core_warning core_error
       core_setFailed core_summary_write].


Ltac surrogate_cases :=
  unfold is_high_surrogate, is_low_surrogate, scalar in *;
  repeat match goal with
         | H : context [?a <=? ?b] |- _ => destruct (N.leb_spec a b); cbn [andb orb negb] in H
         | H : context [?a <? ?b] |- _ => destruct (N.ltb_spec a b); cbn [andb orb negb] in H
         | |- context [?a <=? ?b] => destruct (N.leb_spec a b); cbn [andb orb negb]
         | |- context [?a <? ?b] => destruct (N.ltb_spec a b); cbn [andb orb negb]
         end;
  try discriminate; try reflexivity; try lia.


(* ================================================================== *)
(** ** Sample evaluations *)
(* ================================================================== *)

Example str_ascii : str "aZ`" = [0x61; 0x5A; 0x60].
Proof. reflexivity. Qed.

Example str_multibyte : str "é—𝄞" = [0xE9; 0x2014; 0xD834; 0xDD1E].
Proof. reflexivity. Qed.

Example utf8_encode_multibyte :
  utf8_encode [0xE9; 0x2014; 0xD834; 0xDD1E]
  = [0xC3; 0xA9; 0xE2; 0x80; 0x94; 0xF0; 0x9D; 0x84; 0x9E].
Proof. reflexivity. Qed.

Example normalizeERD_example :
  normalizeERD (ucd := unicode_rows) (str "erDiagram
  USER { id int }

") = str "erdiagram
user { id int }".
Proof. vm_compute. reflexivity. Qed.

(** Lower-casing with the sample rows: a letter of Latin-1, and the
    capital sigma at the end of a word, inside one, and alone. *)
Example toLowerCase_samples :
  toLowerCase (ucd := unicode_rows) (str "CAFÉ") = str "café"
  /\ toLowerCase (ucd := unicode_rows) (str "ΟΔΟΣ") = str "οδος"
  /\ toLowerCase (ucd := unicode_rows) (str "ΟΣΟ") = str "οσο"
  /\ toLowerCase (ucd := unicode_rows) (str "Σ") = str "σ".
Proof. vm_compute. repeat split. Qed.


(* ================================================================== *)
(** ** The classifier *)
(* ================================================================== *)

Lemma eqb_eq (a b : jsstring) : eqb a b = true <-> a = b.
Proof.
  revert b; induction a as [|x a IH]; intros [|y b]; simpl; split;
    try congruence; try reflexivity.
  - intros H. apply andb_true_iff in H as [Hx Hb].
    apply N.eqb_eq in Hx. apply IH in Hb. congruence.
  - intros H. injection H as -> ->.
    apply andb_true_iff. split; [apply N.eqb_refl | now apply IH].
Qed.

Lemma eqb_neq (a b : jsstring) : eqb a b = false <-> a <> b.
Proof.
  rewrite <- eqb_eq. destruct (eqb a b); split; congruence.
Qed.

Lemma job_failed_app tr1 tr2 :
  job_failed (tr1 ++ tr2) = job_failed tr1 || job_failed tr2.
Proof. apply existsb_app. Qed.

(** What the comparison of [classify] compares. *)
Lemma currentNorm_stored_text {ucd : CaseData} (currentERD : option jsstring) :
  (if truthy currentERD then normalizeERD (stored_text currentERD) else [])
  = normalizeERD (stored_text currentERD).
Proof.
  destruct currentERD as [[|u s]|]; reflexivity.
Qed.

Lemma classify_sentinel {ucd : CaseData} w outputPath currentERD result tr :
  is_sentinel result = true ->
  classify w outputPath currentERD result tr
  = (Ok (Classified NoChange),
     tr ++ [LogInfo (received_message result); LogInfo no_change_message]).
Proof.
  intros H. run_steps. rewrite H. now rewrite <- app_assoc.
Qed.

Lemma classify_match {ucd : CaseData} w outputPath currentERD result tr :
  is_sentinel result = false ->
  normalizeERD (stored_text currentERD) = normalizeERD result ->
  classify w outputPath currentERD result tr
  = (Ok (Classified NoChange),
     tr ++ [LogInfo (received_message result)] ++ keyword_check result
        ++ [LogInfo normalized_match_message]).
Proof.
  intros Hs Hn. run_steps. rewrite Hs, currentNorm_stored_text.
  apply eqb_eq in Hn. unfold keyword_check.
  destruct (startsWith _ _); simpl; rewrite Hn;
    repeat rewrite <- app_assoc; reflexivity.
Qed.

Lemma classify_differ {ucd : CaseData} w outputPath currentERD result tr :
  is_sentinel result = false ->
  normalizeERD (stored_text currentERD) <> normalizeERD result ->
  classify w outputPath currentERD result tr
  = match summary_write w (summary_text outputPath result ++ [0x0A]) with
    | Ok _ =>
        (Ok (Classified (MaterialChange result)),
         tr ++ [LogInfo (received_message result)] ++ keyword_check result
            ++ [SummaryWrite (summary_text outputPath result ++ [0x0A]);
                LogError (update_message outputPath);
                SetFailed (str "ERD out of date")])
    | Throw m =>
        (Throw m,
         tr ++ [LogInfo (received_message result)] ++ keyword_check result
            ++ [SummaryWrite (summary_text outputPath result ++ [0x0A])])
    end.
Proof.
  intros Hs Hn. run_steps. rewrite Hs, currentNorm_stored_text.
  apply eqb_neq in Hn. unfold keyword_check.
  destruct (startsWith _ _); cbn [negb]; cbv beta iota; rewrite Hn;
    destruct (summary_write w _);
    repeat rewrite <- app_assoc; reflexivity.
Qed.

(** The three ways [classify] ends. *)
Lemma classify_cases {ucd : CaseData} w outputPath currentERD result tr :
  (exists tr', classify w outputPath currentERD result tr
               = (Ok (Classified NoChange), tr')
               /\ job_failed tr' = job_failed tr)
  \/ (exists tr', classify w outputPath currentERD result tr
                  = (Ok (Classified (MaterialChange result)), tr')
                  /\ job_failed tr' = true)
  \/ (exists m tr', classify w outputPath currentERD result tr = (Throw m, tr')).
Proof.
  destruct (is_sentinel result) eqn:Hs.
  - left. eexists. split; [now apply classify_sentinel|].
    rewrite job_failed_app. cbn. apply orb_false_r.
  - destruct (eqb (normalizeERD (stored_text currentERD)) (normalizeERD result)) eqn:He.
    + apply eqb_eq in He. left. eexists. split; [now apply classify_match|].
      rewrite !job_failed_app. unfold keyword_check.
      destruct (startsWith _ _); cbn; now rewrite ?orb_false_r.
    + apply eqb_neq in He. right.
      rewrite (classify_differ w outputPath currentERD result tr Hs He).
      destruct (summary_write w _) as [u|m].
      * left. eexists. split; [reflexivity|].
        rewrite !job_failed_app. unfold keyword_check.
        destruct (startsWith _ _); cbn; now rewrite ?orb_true_r.
      * right. eauto.
Qed.

(** A run that got an answer ends as the classifier ends. *)
Lemma main_classify {ucd : CaseData} w outputPath currentERD result tr0 :
  run_until_answer w [] = (Ok (Some (outputPath, currentERD, result)), tr0) ->
  main w = catch_setFailed (classify w outputPath currentERD result tr0).
Proof.
  intros H. unfold main, run, bind. now rewrite H.
Qed.

Lemma callOpenAI_trace w apiKey model prompt tr :
  exists x, callOpenAI w apiKey model prompt tr
            = (x, tr ++ [HttpPost (openai_request apiKey model prompt)]).
Proof.
  cbv [callOpenAI bind emit lift throw ret].
  destruct (fetch w _) as [res|m]; [|eauto].
  destruct (res_ok res); simpl.
  - destruct (res_json res); eauto.
  - destruct (res_text res); eauto.
Qed.

(** The run up to the answer, for a run that has its credential. *)
Lemma run_until_answer_eq w :
  is_empty (inputs w (str "openai_api_key")) = false ->
  run_until_answer w []
  = match collect w (trim (inputs w (str "schema_globs"))) with
    | Throw m => (Throw m, [])
    | Ok [] => (Ok None, [SetFailed no_schema_message])
    | Ok ((_ :: _) as files) =>
        match read_currentERD w (trim (inputs w (str "output_path"))) with
        | Throw m => (Throw m, [])
        | Ok cur =>
            let args := mkPromptArgs (context_owner w ++ str "/" ++ context_repo w)
                                     files cur in
            match callOpenAI w (trim (inputs w (str "openai_api_key")))
                    (trim (inputs w (str "model"))) (fst (buildPrompt args))
                    [LogInfo (detected_message cur)] with
            | (Ok r, tr) =>
                (Ok (Some (trim (inputs w (str "output_path")), cur, r)), tr)
            | (Throw m, tr) => (Throw m, tr)
            end
        end
    end.
Proof.
  intros Hkey.
  cbv [run_until_answer bind core_getInput lift ret throw core_setFailed
       core_info emit].
  rewrite Hkey. cbv [andb]. cbv beta iota.
  destruct (collect w _) as [[|f fs]|m]; reflexivity.
Qed.

Lemma run_until_answer_no_key w :
  is_empty (inputs w (str "openai_api_key")) = true ->
  exists m, run_until_answer w [] = (Throw m, []).
Proof.
  intros Hkey.
  cbv [run_until_answer bind core_getInput lift ret throw].
  rewrite Hkey. cbv [andb]. cbv beta iota. eauto.
Qed.

(** What a run that got an answer has read and logged. *)
Lemma run_until_answer_inv w outputPath cur r tr0 :
  run_until_answer w [] = (Ok (Some (outputPath, cur, r)), tr0) ->
  exists args,
    prompt_context w = Ok args /\ schemaFiles args <> [] /\
    currentERD args = cur /\
    outputPath = trim (inputs w (str "output_path")) /\
    tr0 = [LogInfo (detected_message cur);
           HttpPost (openai_request (trim (inputs w (str "openai_api_key")))
                       (trim (inputs w (str "model")))
                       (fst (buildPrompt args)))].
Proof.
  intros H.
  destruct (is_empty (inputs w (str "openai_api_key"))) eqn:Hkey.
  - destruct (run_until_answer_no_key w Hkey) as [m Hm]. congruence.
  - rewrite (run_until_answer_eq w Hkey) in H. unfold prompt_context.
    destruct (collect w _) as [[|f fs]|m]; try discriminate.
    destruct (read_currentERD w _) as [c|m]; try discriminate.
    cbv zeta in H.
    match type of H with
    | context [callOpenAI ?w ?k ?m ?p ?t] =>
        destruct (callOpenAI_trace w k m p t) as [x Hx]; rewrite Hx in H
    end.
    destruct x as [r'|m]; try discriminate.
    injection H as <- <- <- <-.
    eexists. repeat split. discriminate.
Qed.

Lemma run_until_answer_quiet w x tr0 :
  run_until_answer w [] = (Ok (Some x), tr0) -> job_failed tr0 = false.
Proof.
  destruct x as [[outputPath cur] r]. intros H.
  apply run_until_answer_inv in H as (args & _ & _ & _ & _ & ->).
  reflexivity.
Qed.

(** The test of the regular expression is the comparison of the answer,
    its Basic Latin letters in lower case, with the sentinel in lower
    case. *)
Lemma canonicalize_lower (x y : N) :
  x < 0x41 \/ 0x5A < x ->
  (canonicalize x =? canonicalize y) = (x =? basic_latin_lower y).
Proof.
  intros Hx. unfold canonicalize, basic_latin_lower.
  destruct (0x61 <=? x) eqn:A1; destruct (x <=? 0x7A) eqn:A2;
  destruct (0x61 <=? y) eqn:B1; destruct (y <=? 0x7A) eqn:B2;
  destruct (0x41 <=? y) eqn:C1; destruct (y <=? 0x5A) eqn:C2; cbn [andb];
  repeat match goal with
         | H : (_ <=? _) = true |- _ => apply N.leb_le in H
         | H : (_ <=? _) = false |- _ => apply N.leb_gt in H
         end;
  repeat match goal with
         | |- context [?a =? ?b] => destruct (N.eqb_spec a b)
         end;
  try reflexivity; lia.
Qed.

Lemma equals_i_lower (p s : jsstring) :
  Forall (fun x => x < 0x41 \/ 0x5A < x) p ->
  equals_i p s = eqb p (map basic_latin_lower s).
Proof.
  intros Hp. revert s. induction Hp as [|x p Hx Hp IH]; intros [|y s];
    simpl; try reflexivity.
  now rewrite canonicalize_lower, IH.
Qed.

Lemma is_sentinel_spec (result : jsstring) :
  is_sentinel result = true <-> map basic_latin_lower result = str "no_change".
Proof.
  unfold is_sentinel. rewrite equals_i_lower.
  - rewrite eqb_eq. split; congruence.
  - vm_compute. repeat (apply Forall_cons; [right; reflexivity|]).
    apply Forall_nil.
Qed.

(** C1.  An answer that is the sentinel [NO_CHANGE] in any letter case is
    classified [NoChange] at once: whatever the stored diagram is, the run
    logs the answer and the report of the sentinel, nothing of the second
    layer, and does not fail. *)
Theorem sentinel_is_NoChange {ucd : CaseData} w outputPath currentERD result tr0 :
  run_until_answer w [] = (Ok (Some (outputPath, currentERD, result)), tr0) ->
  is_sentinel result = true ->
  main w = (Ok (Classified NoChange),
            tr0 ++ [LogInfo (received_message result); LogInfo no_change_message])
  /\ job_failed (snd (main w)) = false.
Proof.
  intros Hrun Hs.
  rewrite (main_classify _ _ _ _ _ Hrun), (classify_sentinel _ _ _ _ _ Hs).
  split; [reflexivity|]. cbn [catch_setFailed snd].
  rewrite job_failed_app, (run_until_answer_quiet _ _ _ Hrun). reflexivity.
Qed.

Lemma sentinel_is_NoChange_witness :
  let ucd := unicode_rows in
  let w := sample_world (Some sample_diagram) (Some (str "No_Change")) in
  let tr0 :=
    [LogInfo (detected_message (Some sample_diagram));
     HttpPost (openai_request (str "sk-sample") (str "gpt-4o-mini")
       (fst (buildPrompt
          (mkPromptArgs (str "astley92/merdmaid")
             [mkFileBlob (str "db/structure.sql") 22 sample_structure;
              mkFileBlob (str "db/schema.rb") 19 sample_schema]
             (Some sample_diagram)))))] in
  run_until_answer w []
  = (Ok (Some (str "docs/ERD.md", Some sample_diagram, str "No_Change")), tr0)
  /\ is_sentinel (str "No_Change") = true
  /\ main w = (Ok (Classified NoChange),
               tr0 ++ [LogInfo (received_message (str "No_Change"));
                       LogInfo no_change_message])
  /\ job_failed (snd (main w)) = false.
Proof.
  intros ucd w tr0.
  assert (H1 : run_until_answer w []
               = (Ok (Some (str "docs/ERD.md", Some sample_diagram,
                            str "No_Change")), tr0))
    by (vm_compute; reflexivity).
  assert (H2 : is_sentinel (str "No_Change") = true) by (vm_compute; reflexivity).
  split; [exact H1|]. split; [exact H2|].
  exact (sentinel_is_NoChange w _ _ _ _ H1 H2).
Defined.

(** C2.  For an answer that is not the sentinel, the comparison of the
    normalized stored diagram (the empty text when there is none) with the
    normalized answer decides: equal, the run ends with [NoChange] and
    does not fail; different, the run takes the material branch: it calls
    the write of the summary with the answer as the generator call
    returned it and the job fails, with [MaterialChange] carrying that
    answer when the write returns and with the error of the write when it
    throws. *)
Theorem normalized_comparison_decides {ucd : CaseData}
    w outputPath currentERD result tr0 :
  run_until_answer w [] = (Ok (Some (outputPath, currentERD, result)), tr0) ->
  is_sentinel result = false ->
  (normalizeERD (stored_text currentERD) = normalizeERD result ->
     fst (main w) = Ok (Classified NoChange)
     /\ job_failed (snd (main w)) = false)
  /\
  (normalizeERD (stored_text currentERD) <> normalizeERD result ->
     In (SummaryWrite (summary_text outputPath result ++ [0x0A])) (snd (main w))
     /\ job_failed (snd (main w)) = true
     /\ (forall u,
           summary_write w (summary_text outputPath result ++ [0x0A]) = Ok u ->
           fst (main w) = Ok (Classified (MaterialChange result)))
     /\ (forall m,
           summary_write w (summary_text outputPath result ++ [0x0A]) = Throw m ->
           fst (main w) = Throw m)).
Proof.
  intros Hrun Hs. rewrite (main_classify _ _ _ _ _ Hrun).
  pose proof (run_until_answer_quiet _ _ _ Hrun) as Hq.
  split; intros Hn.
  - rewrite (classify_match _ _ _ _ _ Hs Hn). split; [reflexivity|].
    cbn [catch_setFailed snd]. rewrite !job_failed_app, Hq. unfold keyword_check.
    destruct (startsWith _ _); reflexivity.
  - rewrite (classify_differ _ _ _ _ _ Hs Hn).
    assert (Hin : forall tail,
               In (SummaryWrite (summary_text outputPath result ++ [0x0A]))
                  (tr0 ++ [LogInfo (received_message result)]
                       ++ keyword_check result
                       ++ SummaryWrite (summary_text outputPath result ++ [0x0A])
                          :: tail)).
    { intros tail. apply in_or_app. right. apply in_or_app. right.
      apply in_or_app. right. left. reflexivity. }
    destruct (summary_write w _) as [u|m]; cbn [catch_setFailed fst snd].
    + split; [apply Hin|]. split; [|split; [reflexivity|discriminate]].
      rewrite !job_failed_app. unfold keyword_check.
      destruct (startsWith _ _); cbn; now rewrite ?orb_true_r.
    + split.
      { rewrite <- !app_assoc. cbn [app]. apply Hin. }
      split; [|split; [discriminate|now intros m' [= ->]]].
      rewrite !job_failed_app. cbn. now rewrite !orb_true_r.
Qed.

Lemma normalized_comparison_decides_witness :
  let ucd := unicode_rows in
  let stored := str "erDiagram
  USER { id int }" in
  let answer := str "erDiagram

      USER { id int }" in
  let other := str "erDiagram
  USER { id int }
  POST { id int }" in
  let w := sample_world (Some stored)
             (Some (str "```mermaid
" ++ answer ++ str "
```")) in
  let w' := sample_world (Some stored) (Some other) in
  let tr0 :=
    [LogInfo (detected_message (Some stored));
     HttpPost (openai_request (str "sk-sample") (str "gpt-4o-mini")
       (fst (buildPrompt
          (mkPromptArgs (str "astley92/merdmaid")
             [mkFileBlob (str "db/structure.sql") 22 sample_structure;
              mkFileBlob (str "db/schema.rb") 19 sample_schema]
             (Some stored)))))] in
  (run_until_answer w [] = (Ok (Some (str "docs/ERD.md", Some stored, answer)), tr0)
   /\ is_sentinel answer = false
   /\ normalizeERD (stored_text (Some stored)) = normalizeERD answer
   /\ fst (main w) = Ok (Classified NoChange)
   /\ job_failed (snd (main w)) = false)
  /\
  (run_until_answer w' [] = (Ok (Some (str "docs/ERD.md", Some stored, other)), tr0)
   /\ is_sentinel other = false
   /\ normalizeERD (stored_text (Some stored)) <> normalizeERD other
   /\ summary_write w' (summary_text (str "docs/ERD.md") other ++ [0x0A]) = Ok tt
   /\ In (SummaryWrite (summary_text (str "docs/ERD.md") other ++ [0x0A]))
          (snd (main w'))
   /\ job_failed (snd (main w')) = true
   /\ fst (main w') = Ok (Classified (MaterialChange other))).
Proof.
  intros ucd stored answer other w w' tr0.
  assert (H1 : run_until_answer w []
               = (Ok (Some (str "docs/ERD.md", Some stored, answer)), tr0))
    by (vm_compute; reflexivity).
  assert (H2 : is_sentinel answer = false) by (vm_compute; reflexivity).
  assert (H3 : normalizeERD (stored_text (Some stored)) = normalizeERD answer)
    by (vm_compute; reflexivity).
  assert (H1' : run_until_answer w' []
                = (Ok (Some (str "docs/ERD.md", Some stored, other)), tr0))
    by (vm_compute; reflexivity).
  assert (H2' : is_sentinel other = false) by (vm_compute; reflexivity).
  assert (H3' : normalizeERD (stored_text (Some stored)) <> normalizeERD other)
    by (vm_compute; discriminate).
  assert (H4' : summary_write w' (summary_text (str "docs/ERD.md") other ++ [0x0A])
                = Ok tt) by reflexivity.
  split.
  - split; [exact H1|]. split; [exact H2|]. split; [exact H3|].
    exact (proj1 (normalized_comparison_decides w _ _ _ _ H1 H2) H3).
  - split; [exact H1'|]. split; [exact H2'|]. split; [exact H3'|].
    split; [exact H4'|].
    destruct (proj2 (normalized_comparison_decides w' _ _ _ _ H1' H2') H3')
      as (A & B & C & _).
    split; [exact A|]. split; [exact B|]. exact (C tt H4').
Defined.

(** The comparison lower-cases by the database and not only the letters
    of the Basic Latin block: a stored diagram and an answer that differ
    in the case of a letter of Latin-1 are found equal. *)
Example latin1_case_passes :
  let ucd := unicode_rows in
  let w := sample_world (Some (str "erDiagram
  CAFÉ { id int }")) (Some (str "erDiagram
  café { id int }")) in
  fst (main w) = Ok (Classified NoChange)
  /\ job_failed (snd (main w)) = false.
Proof. vm_compute. repeat split. Qed.

(** The material branch on a runner without step summary: the write
    throws, the job fails with the message of the write and neither the
    error line nor [ERD out of date] is logged. *)
Example material_change_without_summary :
  let ucd := unicode_rows in
  let answer := str "erDiagram
  USER { id int }
  POST { id int }" in
  main (no_summary_world (Some sample_diagram) (Some answer))
  = (Throw no_summary_message,
     [LogInfo (detected_message (Some sample_diagram));
      HttpPost (openai_request (str "sk-sample") (str "gpt-4o-mini")
        (fst (buildPrompt
           (mkPromptArgs (str "astley92/merdmaid")
              [mkFileBlob (str "db/structure.sql") 22 sample_structure;
               mkFileBlob (str "db/schema.rb") 19 sample_schema]
              (Some sample_diagram)))));
      LogInfo (received_message answer);
      SummaryWrite (summary_text (str "docs/ERD.md") answer ++ [0x0A]);
      SetFailed no_summary_message]).
Proof. vm_compute. reflexivity. Qed.

(** The material branch on a sample: the stored diagram lacks a table of
    the answer. *)
Example material_change_sample :
  let ucd := unicode_rows in
  let answer := str "erDiagram
  USER { id int }
  POST { id int }" in
  main (sample_world (Some sample_diagram) (Some answer))
  = (Ok (Classified (MaterialChange answer)),
     [LogInfo (detected_message (Some sample_diagram));
      HttpPost (openai_request (str "sk-sample") (str "gpt-4o-mini")
        (fst (buildPrompt
           (mkPromptArgs (str "astley92/merdmaid")
              [mkFileBlob (str "db/structure.sql") 22 sample_structure;
               mkFileBlob (str "db/schema.rb") 19 sample_schema]
              (Some sample_diagram)))));
      LogInfo (received_message answer);
      SummaryWrite (summary_text (str "docs/ERD.md") answer ++ [0x0A]);
      LogError (update_message (str "docs/ERD.md"));
      SetFailed (str "ERD out of date")]).
Proof. vm_compute. reflexivity. Qed.

(** C6.  The run of a repository without stored diagram whose generator
    returns a completion without content: the answer is neither the
    sentinel nor a diagram, the warning that announces a material change
    is logged, and the run is classified [NoChange] and does not fail. *)
Theorem unrecognized_answer_passes {ucd : CaseData} :
  let w := sample_world None None in
  run_until_answer w []
  = (Ok (Some (str "docs/ERD.md", None, [])),
     [LogInfo (detected_message None);
      HttpPost (openai_request (str "sk-sample") (str "gpt-4o-mini")
        (fst (buildPrompt
           (mkPromptArgs (str "astley92/merdmaid")
              [mkFileBlob (str "db/structure.sql") 22 sample_structure;
               mkFileBlob (str "db/schema.rb") 19 sample_schema]
              None))))])
  /\ is_sentinel [] = false
  /\ startsWith (str "erdiagram") (toLowerCase []) = false
  /\ fst (main w) = Ok (Classified NoChange)
  /\ In (LogWarning unrecognized_message) (snd (main w))
  /\ job_failed (snd (main w)) = false.
Proof.
  intros w.
  split; [vm_compute; reflexivity|].
  split; [vm_compute; reflexivity|]. split; [vm_compute; reflexivity|].
  split; [vm_compute; reflexivity|].
  split; [|vm_compute; reflexivity].
  assert (E : snd (main w)
              = snd (run_until_answer w [])
                ++ [LogInfo (received_message []);
                    LogWarning unrecognized_message;
                    LogInfo normalized_match_message])
    by (vm_compute; reflexivity).
  rewrite E. apply in_or_app. right. right. left. reflexivity.
Qed.

(** The same defect with a stored file: prose that the generator echoes
    in another letter case passes as well. *)
Example echoed_prose_passes :
  let ucd := unicode_rows in
  let w := sample_world (Some (str "Diagram pending.")) (Some (str "diagram pending.")) in
  fst (main w) = Ok (Classified NoChange)
  /\ existsb is_LogWarning (snd (main w)) = true
  /\ job_failed (snd (main w)) = false.
Proof. vm_compute. repeat split. Qed.

(** C8.  When the collector returns no file, the run fails and sends no
    request; for a run that has its credential the log is the failure
    that reports the missing schema files and nothing else. *)
Theorem no_schema_files_fails_before_request {ucd : CaseData} w :
  collect w (trim (inputs w (str "schema_globs"))) = Ok [] ->
  job_failed (snd (main w)) = true
  /\ existsb is_HttpPost (snd (main w)) = false
  /\ (is_empty (inputs w (str "openai_api_key")) = false ->
      main w = (Ok NoSchemaFiles, [SetFailed no_schema_message])).
Proof.
  intros Hc.
  destruct (is_empty (inputs w (str "openai_api_key"))) eqn:Hkey.
  - destruct (run_until_answer_no_key w Hkey) as [m Hm].
    unfold main, run, bind. rewrite Hm. repeat split. discriminate.
  - assert (E : main w = (Ok NoSchemaFiles, [SetFailed no_schema_message])).
    { unfold main, run, bind. rewrite (run_until_answer_eq w Hkey), Hc.
      reflexivity. }
    rewrite E. repeat split.
Qed.

Lemma no_schema_files_fails_before_request_witness :
  let ucd := unicode_rows in
  collect empty_world (trim (inputs empty_world (str "schema_globs"))) = Ok []
  /\ is_empty (inputs empty_world (str "openai_api_key")) = false
  /\ job_failed (snd (main empty_world)) = true
  /\ existsb is_HttpPost (snd (main empty_world)) = false
  /\ main empty_world = (Ok NoSchemaFiles, [SetFailed no_schema_message]).
Proof.
  intros ucd.
  assert (H1 : collect empty_world (trim (inputs empty_world (str "schema_globs")))
               = Ok []) by reflexivity.
  assert (H2 : is_empty (inputs empty_world (str "openai_api_key")) = false)
    by reflexivity.
  destruct (no_schema_files_fails_before_request empty_world H1) as (F & P & E).
  split; [exact H1|]. split; [exact H2|]. split; [exact F|].
  split; [exact P|]. exact (E H2).
Defined.

(** A completion without usable content is cleaned to the empty string. *)
Lemma first_content_missing :
  first_content (mkChatResponse []) = []
  /\ first_content (mkChatResponse [mkChatChoice None]) = []
  /\ first_content (mkChatResponse [mkChatChoice (Some (mkChatMessage None))]) = []
  /\ first_content (mkChatResponse [mkChatChoice (Some (mkChatMessage (Some [])))]) = [].
Proof. repeat split. Qed.

(** C10.  When the cleaned answer is the empty string and there is no
    stored diagram, both sides of the comparison are the empty string: the
    run logs the answer, the warning about an unrecognized answer and the
    match of the normalized texts, is classified [NoChange] and does not
    fail. *)
Theorem empty_answer_without_diagram {ucd : CaseData} w outputPath tr0 :
  run_until_answer w [] = (Ok (Some (outputPath, None, [])), tr0) ->
  main w = (Ok (Classified NoChange),
            tr0 ++ [LogInfo (received_message []);
                    LogWarning unrecognized_message;
                    LogInfo normalized_match_message])
  /\ job_failed (snd (main w)) = false.
Proof.
  intros Hrun. rewrite (main_classify _ _ _ _ _ Hrun).
  assert (Hs : is_sentinel [] = false) by (vm_compute; reflexivity).
  assert (Hn : normalizeERD (stored_text None) = normalizeERD []) by reflexivity.
  rewrite (classify_match _ _ _ _ _ Hs Hn).
  split; [reflexivity|]. cbn [catch_setFailed snd].
  rewrite !job_failed_app, (run_until_answer_quiet _ _ _ Hrun). reflexivity.
Qed.

Lemma empty_answer_without_diagram_witness :
  let ucd := unicode_rows in
  let w := sample_world None (Some []) in
  let tr0 :=
    [LogInfo (detected_message None);
     HttpPost (openai_request (str "sk-sample") (str "gpt-4o-mini")
       (fst (buildPrompt
          (mkPromptArgs (str "astley92/merdmaid")
             [mkFileBlob (str "db/structure.sql") 22 sample_structure;
              mkFileBlob (str "db/schema.rb") 19 sample_schema]
             None))))] in
  run_until_answer w [] = (Ok (Some (str "docs/ERD.md", None, [])), tr0)
  /\ main w = (Ok (Classified NoChange),
               tr0 ++ [LogInfo (received_message []);
                       LogWarning unrecognized_message;
                       LogInfo normalized_match_message])
  /\ job_failed (snd (main w)) = false.
Proof.
  intros ucd w tr0.
  assert (H1 : run_until_answer w [] = (Ok (Some (str "docs/ERD.md", None, [])), tr0))
    by (vm_compute; reflexivity).
  split; [exact H1|].
  exact (empty_answer_without_diagram w _ _ H1).
Defined.

(* ================================================================== *)
(** ** The collector *)
(* ================================================================== *)

Lemma collect_loop_spec w paths out :
  collect_loop w paths out = out ++ flat_map (fun p => option_list (collected w p)) paths.
Proof.
  revert out. induction paths as [|p paths IH]; intros out; simpl.
  - now rewrite app_nil_r.
  - unfold collected at 1.
    destruct (fs_stat w p) as [st|m]; [|apply IH].
    destruct (isFile st && (st_size st <? 1000000)); [|apply IH].
    destruct (readText w p) as [text|m]; [|apply IH].
    rewrite IH, <- app_assoc. reflexivity.
Qed.

Lemma collected_Some w p f :
  collected w p = Some f ->
  path f = p /\ size f < 1000000
  /\ (exists st, fs_stat w p = Ok st /\ isFile st = true /\ st_size st = size f)
  /\ fs_readFile w p = Ok (content f).
Proof.
  unfold collected, readText.
  destruct (fs_stat w p) as [st|m]; [|discriminate].
  destruct (isFile st && (st_size st <? 1000000)) eqn:E; [|discriminate].
  destruct (fs_readFile w p) as [text|m]; [|discriminate].
  intros [= <-]. apply andb_true_iff in E as [E1 E2]. apply N.ltb_lt in E2.
  simpl. repeat split; eauto.
Qed.

(** C7.  Whenever the globbing itself returns, [collect] returns: no
    [stat] or read of a matched path makes it throw.  Every file it
    returns has a size below 1,000,000 bytes, was reported as a regular
    file of that size and was read; a matched path whose [stat] or read
    throws is not among the files returned. *)
Theorem collect_skips_large_and_unreadable w globsCSV paths :
  globby w (parse_globs globsCSV) = Ok paths ->
  exists out,
    collect w globsCSV = Ok out
    /\ (forall f, In f out ->
          size f < 1000000
          /\ In (path f) paths
          /\ (exists st, fs_stat w (path f) = Ok st /\ isFile st = true
                         /\ st_size st = size f)
          /\ fs_readFile w (path f) = Ok (content f))
    /\ (forall p, In p paths ->
          (exists m, fs_stat w p = Throw m) \/ (exists m, fs_readFile w p = Throw m) ->
          ~ In p (map path out)).
Proof.
  intros Hg. unfold collect. rewrite Hg. eexists. split; [reflexivity|].
  rewrite collect_loop_spec. cbn [app].
  assert (Hin : forall f,
             In f (flat_map (fun p => option_list (collected w p)) paths) ->
             In (path f) paths /\ collected w (path f) = Some f).
  { intros f Hf. apply in_flat_map in Hf as (p & Hp & Hf).
    destruct (collected w p) as [g|] eqn:E; simpl in Hf; [|tauto].
    destruct Hf as [<-|[]].
    destruct (collected_Some _ _ _ E) as (<- & _). auto. }
  split.
  - intros f Hf. apply Hin in Hf as [Hp Hc].
    destruct (collected_Some _ _ _ Hc) as (_ & Hsz & Hst & Hrd). auto.
  - intros p Hp Hbad Hout. apply in_map_iff in Hout as (f & <- & Hf).
    apply Hin in Hf as [_ Hc].
    destruct (collected_Some _ _ _ Hc) as (_ & _ & (st & Hst & _) & Hrd).
    destruct Hbad as [[m Hm]|[m Hm]]; congruence.
Qed.

Lemma collect_skips_large_and_unreadable_witness :
  let w := sample_world None None in
  let csv := str "db/schema.rb, db/structure.sql" in
  let paths := [str "db/structure.sql"; str "db/gone.rb"; str "db/schema.rb"] in
  globby w (parse_globs csv) = Ok paths
  /\ exists out,
       collect w csv = Ok out
       /\ (forall f, In f out ->
             size f < 1000000
             /\ In (path f) paths
             /\ (exists st, fs_stat w (path f) = Ok st /\ isFile st = true
                            /\ st_size st = size f)
             /\ fs_readFile w (path f) = Ok (content f))
       /\ (forall p, In p paths ->
             (exists m, fs_stat w p = Throw m) \/ (exists m, fs_readFile w p = Throw m) ->
             ~ In p (map path out)).
Proof.
  intros w csv paths.
  assert (H1 : globby w (parse_globs csv) = Ok paths) by reflexivity.
  split; [exact H1|].
  exact (collect_skips_large_and_unreadable w csv paths H1).
Defined.

(** The files the sample repository yields: the unreadable path is left
    out and the others keep the order of the globbing. *)
Example collect_sample :
  collect (sample_world None None) (str "db/schema.rb, db/structure.sql")
  = Ok [mkFileBlob (str "db/structure.sql") 22 sample_structure;
        mkFileBlob (str "db/schema.rb") 19 sample_schema].
Proof. vm_compute. reflexivity. Qed.

(** A file of exactly 1,000,000 bytes is left out. *)
Example collect_size_limit :
  let w := mkWorld sample_inputs [] []
             (fun _ => Ok [str "a"; str "b"])
             (fun p => if eqb p (str "a") then Ok (mkStats true 1000000)
                       else Ok (mkStats true 999999))
             (fun _ => Ok []) (fun _ => Throw []) (fun _ => Ok tt) in
  collect w (str "*") = Ok [mkFileBlob (str "b") 999999 []].
Proof. vm_compute. reflexivity. Qed.

(* ================================================================== *)
(** ** The prompt *)
(* ================================================================== *)

Lemma buildPrompt_function_of_context (a1 a2 : PromptArgs) :
  repo a1 = repo a2 -> schemaFiles a1 = schemaFiles a2 ->
  currentERD a1 = currentERD a2 ->
  buildPrompt a1 = buildPrompt a2.
Proof.
  destruct a1, a2; simpl; intros -> -> ->; reflexivity.
Qed.

(** [classify] logs and writes; it sends nothing. *)
Lemma classify_trace {ucd : CaseData} w outputPath cur r tr :
  exists extra,
    snd (classify w outputPath cur r tr) = tr ++ extra
    /\ forallb (fun e => negb (is_HttpPost e)) extra = true.
Proof.
  destruct (is_sentinel r) eqn:Hs.
  - rewrite (classify_sentinel _ _ _ _ _ Hs). cbn [snd]. eexists. split; reflexivity.
  - destruct (eqb (normalizeERD (stored_text cur)) (normalizeERD r)) eqn:He.
    + apply eqb_eq in He. rewrite (classify_match _ _ _ _ _ Hs He). cbn [snd].
      eexists. split; [reflexivity|]. unfold keyword_check.
      destruct (startsWith _ _); reflexivity.
    + apply eqb_neq in He. rewrite (classify_differ _ _ _ _ _ Hs He).
      destruct (summary_write w _); cbn [snd];
        (eexists; split; [reflexivity|]); unfold keyword_check;
        destruct (startsWith _ _); reflexivity.
Qed.

Lemma sent_prompts_quiet extra :
  forallb (fun e => negb (is_HttpPost e)) extra = true -> sent_prompts extra = [].
Proof.
  induction extra as [|e extra IH]; [reflexivity|]. cbn [forallb].
  intros H. apply andb_true_iff in H as [He H].
  unfold sent_prompts in *. cbn [flat_map]. rewrite (IH H).
  destruct e; try reflexivity. discriminate.
Qed.

Lemma classify_sends_nothing {ucd : CaseData} w outputPath cur r tr :
  sent_prompts (snd (classify w outputPath cur r tr)) = sent_prompts tr.
Proof.
  destruct (classify_trace w outputPath cur r tr) as (extra & -> & Hq).
  unfold sent_prompts at 1. rewrite flat_map_app.
  fold (sent_prompts tr). fold (sent_prompts extra).
  now rewrite (sent_prompts_quiet extra Hq), app_nil_r.
Qed.

(** The one request of a run that has its credential and its schema
    files carries the prompt composed from the PromptContext. *)
Lemma main_sends_buildPrompt {ucd : CaseData} w args :
  is_empty (inputs w (str "openai_api_key")) = false ->
  prompt_context w = Ok args -> schemaFiles args <> [] ->
  sent_prompts (snd (main w)) = [fst (buildPrompt args)].
Proof.
  intros Hkey Hctx Hne. unfold prompt_context in Hctx.
  unfold main, run, bind. rewrite (run_until_answer_eq w Hkey).
  destruct (collect w _) as [files|m]; [|discriminate].
  destruct (read_currentERD w _) as [cur|m]; [|discriminate].
  injection Hctx as <-. cbn [schemaFiles] in Hne.
  destruct files as [|f fs]; [congruence|]. cbv zeta.
  match goal with
  | |- context [callOpenAI ?w ?k ?m ?p ?t] =>
      destruct (callOpenAI_trace w k m p t) as [x Hx]; rewrite Hx
  end.
  destruct x as [r|m]; cbn [app].
  - match goal with
    | |- context [classify ?w ?o ?c ?r ?t] =>
        pose proof (classify_sends_nothing w o c r t) as Hc;
        destruct (classify w o c r t) as [[e|m] tr']
    end; cbn [catch_setFailed snd] in *; try rewrite Hc; try reflexivity.
    unfold sent_prompts in *. rewrite flat_map_app, Hc. reflexivity.
  - reflexivity.
Qed.

(** C9.  Two runs whose PromptContext is the same (repository identifier,
    collected schema files, stored diagram) send the same prompt, the one
    [buildPrompt] composes from that context, whatever else differs
    between them: credential, model, answers of the generator. *)
Theorem prompt_determined_by_context {ucd : CaseData} w1 w2 args :
  is_empty (inputs w1 (str "openai_api_key")) = false ->
  is_empty (inputs w2 (str "openai_api_key")) = false ->
  prompt_context w1 = Ok args ->
  prompt_context w2 = Ok args ->
  schemaFiles args <> [] ->
  sent_prompts (snd (main w1)) = [fst (buildPrompt args)]
  /\ sent_prompts (snd (main w2)) = sent_prompts (snd (main w1)).
Proof.
  intros K1 K2 C1 C2 Hne.
  rewrite (main_sends_buildPrompt w1 args K1 C1 Hne),
          (main_sends_buildPrompt w2 args K2 C2 Hne).
  split; reflexivity.
Qed.

Lemma prompt_determined_by_context_witness :
  let ucd := unicode_rows in
  let w1 := sample_world (Some sample_diagram) (Some (str "NO_CHANGE")) in
  let w2 := other_world (Some sample_diagram) in
  let args :=
    mkPromptArgs (str "astley92/merdmaid")
      [mkFileBlob (str "db/structure.sql") 22 sample_structure;
       mkFileBlob (str "db/schema.rb") 19 sample_schema]
      (Some sample_diagram) in
  is_empty (inputs w1 (str "openai_api_key")) = false
  /\ is_empty (inputs w2 (str "openai_api_key")) = false
  /\ prompt_context w1 = Ok args
  /\ prompt_context w2 = Ok args
  /\ schemaFiles args <> []
  /\ sent_prompts (snd (main w1)) = [fst (buildPrompt args)]
  /\ sent_prompts (snd (main w2)) = sent_prompts (snd (main w1)).
Proof.
  intros ucd w1 w2 args.
  assert (K1 : is_empty (inputs w1 (str "openai_api_key")) = false)
    by (vm_compute; reflexivity).
  assert (K2 : is_empty (inputs w2 (str "openai_api_key")) = false)
    by (vm_compute; reflexivity).
  assert (C1 : prompt_context w1 = Ok args) by (vm_compute; reflexivity).
  assert (C2 : prompt_context w2 = Ok args) by (vm_compute; reflexivity).
  assert (Hne : schemaFiles args <> []) by discriminate.
  split; [exact K1|]. split; [exact K2|]. split; [exact C1|].
  split; [exact C2|]. split; [exact Hne|].
  exact (prompt_determined_by_context w1 w2 args K1 K2 C1 C2 Hne).
Defined.

(** The two sample runs differ in what they do with the prompt. *)
Example sample_runs_differ :
  let ucd := unicode_rows in
  fst (main (sample_world (Some sample_diagram) (Some (str "NO_CHANGE"))))
  = Ok (Classified NoChange)
  /\ fst (main (other_world (Some sample_diagram)))
     = Throw (str "OpenAI API error: 429 rate limited").
Proof. vm_compute. split; reflexivity. Qed.

(* ================================================================== *)
(** ** The normalization *)
(* ================================================================== *)

Lemma trimStart_whitespace w l :
  all_whitespace w -> trimStart (w ++ l) = trimStart l.
Proof.
  induction 1 as [|u w Hu Hw IH]; simpl; [reflexivity|]. now rewrite Hu.
Qed.

Lemma trimStart_all_whitespace w : all_whitespace w -> trimStart w = [].
Proof.
  intros H. rewrite <- (app_nil_r w). now rewrite trimStart_whitespace.
Qed.

Lemma trimStart_head_ok l : head_ok l -> trimStart l = l.
Proof.
  destruct l as [|u l]; simpl; [reflexivity|]. now intros ->.
Qed.

(** What [trimStart] drops and what it leaves. *)
Lemma trimStart_split l :
  exists w, all_whitespace w /\ l = w ++ trimStart l /\ head_ok (trimStart l).
Proof.
  induction l as [|u l (w & Hw & Hl & Hh)]; simpl.
  - exists []. repeat split. constructor.
  - destruct (is_whitespace u) eqn:Hu.
    + exists (u :: w). repeat split; [now constructor| |assumption].
      simpl. now f_equal.
    + exists []. repeat split; [constructor|exact Hu].
Qed.

Lemma all_whitespace_rev w : all_whitespace w -> all_whitespace (rev w).
Proof. apply Forall_rev. Qed.

Lemma all_whitespace_app w1 w2 :
  all_whitespace w1 -> all_whitespace w2 -> all_whitespace (w1 ++ w2).
Proof. intros. apply Forall_app. now split. Qed.

(** [trim] takes the white space off both ends and nothing else. *)
Lemma trim_unique w1 core w2 :
  all_whitespace w1 -> all_whitespace w2 -> trimmed core ->
  trim (w1 ++ core ++ w2) = core.
Proof.
  intros H1 H2 [Hh Hr]. unfold trim, trimEnd.
  rewrite trimStart_whitespace by assumption.
  destruct core as [|u core].
  - simpl. rewrite (trimStart_all_whitespace w2 H2). reflexivity.
  - rewrite (trimStart_head_ok ((u :: core) ++ w2)) by exact Hh.
    rewrite rev_app_distr, trimStart_whitespace by now apply all_whitespace_rev.
    rewrite trimStart_head_ok by exact Hr. apply rev_involutive.
Qed.

Lemma trim_split l :
  exists w1 w2,
    all_whitespace w1 /\ all_whitespace w2 /\ trimmed (trim l)
    /\ l = w1 ++ trim l ++ w2.
Proof.
  destruct (trimStart_split l) as (w1 & Hw1 & Hl & Hh).
  destruct (trimStart_split (rev (trimStart l))) as (w2 & Hw2 & Hr & Hhr).
  assert (E : trimStart l = trim l ++ rev w2).
  { unfold trim, trimEnd. rewrite <- rev_app_distr, <- Hr.
    symmetry. apply rev_involutive. }
  exists w1, (rev w2). split; [assumption|].
  split; [now apply all_whitespace_rev|]. split.
  - split.
    + rewrite E in Hh. destruct (trim l); [exact I|exact Hh].
    + unfold trim, trimEnd. now rewrite rev_involutive.
  - now rewrite <- E.
Qed.

Lemma trim_leading c l : is_whitespace c = true -> trim (c :: l) = trim l.
Proof.
  intros Hc. destruct (trim_split l) as (w1 & w2 & H1 & H2 & Ht & El).
  rewrite El at 1. change (c :: w1 ++ trim l ++ w2) with ((c :: w1) ++ trim l ++ w2).
  apply trim_unique; [now constructor|assumption|assumption].
Qed.

Lemma trim_trailing c l : is_whitespace c = true -> trim (l ++ [c]) = trim l.
Proof.
  intros Hc. destruct (trim_split l) as (w1 & w2 & H1 & H2 & Ht & El).
  rewrite El at 1. rewrite <- !app_assoc.
  apply trim_unique; [assumption| |assumption].
  apply all_whitespace_app; [assumption|]. now repeat constructor.
Qed.

Lemma trim_trimmed l : trimmed l -> trim l = l.
Proof.
  intros H. rewrite <- (app_nil_r l) at 1.
  apply (trim_unique [] l []); [constructor|constructor|assumption].
Qed.

Lemma trim_idempotent l : trim (trim l) = trim l.
Proof.
  destruct (trim_split l) as (_ & _ & _ & _ & Ht & _). now apply trim_trimmed.
Qed.

Lemma trim_Forall (P : N -> Prop) l : Forall P l -> Forall P (trim l).
Proof.
  destruct (trim_split l) as (w1 & w2 & _ & _ & _ & El). intros H.
  rewrite El in H. apply Forall_app in H as [_ H].
  now apply Forall_app in H as [H _].
Qed.

Lemma trim_with_cr l l' : with_cr l l' -> trim l' = trim l.
Proof.
  intros [->| ->]; [reflexivity|]. now apply trim_trailing.
Qed.

Section Lines.

Variable sep : N.

Lemma split_sep s : split sep (sep :: s) = [] :: split sep s.
Proof. simpl. now rewrite N.eqb_refl. Qed.

Lemma split_other u s :
  u <> sep ->
  exists l ls, split sep s = l :: ls /\ split sep (u :: s) = (u :: l) :: ls.
Proof.
  intros Hu. simpl. apply N.eqb_neq in Hu. rewrite Hu.
  destruct s as [|v s]; simpl.
  - eauto.
  - destruct (v =? sep); [eauto|]. destruct (split sep s); eauto.
Qed.




Lemma split_lines_free s :
  Forall (Forall (fun u => u <> sep)) (split sep s).
Proof.
  induction s as [|u s IH]; [repeat constructor|].
  destruct (N.eq_dec u sep) as [->|Hu].
  - rewrite split_sep. constructor; [constructor|assumption].
  - destruct (split_other u s Hu) as (l & ls & F1 & F2).
    rewrite F2. rewrite F1 in IH. inversion IH; subst.
    constructor; [now constructor|assumption].
Qed.


End Lines.

(** The lines of a text after [replace_crlf] are its lines, some without
    the carriage return they ended in. *)
Lemma replace_crlf_lines s :
  Forall2 with_cr (split 0x0A (replace_crlf s)) (split 0x0A s)
  /\ forall u, Forall2 with_cr (split 0x0A (replace_crlf (u :: s)))
                               (split 0x0A (u :: s)).
Proof.
  induction s as [|v s [IH1 IH2]].
  - split; [repeat constructor; now left|].
    intros u. simpl. destruct (u =? 10); repeat constructor; now left.
  - split; [apply IH2|]. intros u.
    change (replace_crlf (u :: v :: s))
      with (if (u =? 0x0D) && (v =? 0x0A) then 0x0A :: replace_crlf s
            else u :: replace_crlf (v :: s)).
    destruct ((u =? 0x0D) && (v =? 0x0A)) eqn:E.
    + apply andb_true_iff in E as [Eu Ev].
      apply N.eqb_eq in Eu, Ev. subst u v.
      rewrite split_sep.
      destruct (split_other 0x0A 0x0D (0x0A :: s)) as (l & ls & F1 & F2);
        [discriminate|].
      rewrite F2. rewrite split_sep in F1. injection F1 as <- <-.
      constructor; [now right|assumption].
    + destruct (N.eq_dec u 0x0A) as [->|Hu].
      * rewrite !split_sep. constructor; [now left|apply IH2].
      * destruct (split_other 0x0A u (replace_crlf (v :: s)) Hu)
          as (l & ls & F1 & F2).
        destruct (split_other 0x0A u (v :: s) Hu) as (l' & ls' & G1 & G2).
        rewrite F2, G2. specialize (IH2 v). rewrite F1, G1 in IH2.
        inversion IH2 as [|? ? ? ? Hl Hls]; subst.
        constructor; [|assumption].
        destruct Hl as [->| ->]; [now left|now right].
Qed.

Lemma map_trim_with_cr ls ls' :
  Forall2 with_cr ls ls' -> map trim ls = map trim ls'.
Proof.
  induction 1 as [|l l' ls ls' Hl Hls IH]; [reflexivity|].
  simpl. rewrite IH, (trim_with_cr _ _ Hl). reflexivity.
Qed.

(** The lines that count: trimmed and not blank. *)
Lemma normalizeERD_lines {ucd : CaseData} s :
  normalizeERD s
  = toLowerCase (join [0x0A] (filter nonblank (map trim (split 0x0A s)))).
Proof.
  unfold normalizeERD.
  now rewrite (map_trim_with_cr _ _ (proj1 (replace_crlf_lines s))).
Qed.

Lemma significant_lines_spec s :
  Forall (fun l => nonblank l = true /\ trim l = l
                   /\ Forall (fun u => u <> 0x0A) l)
         (significant_lines s).
Proof.
  unfold significant_lines.
  pose proof (split_lines_free 0x0A s) as H.
  induction H as [|l ls Hl Hls IH]; [constructor|].
  cbn [map filter]. destruct (nonblank (trim l)) eqn:E; [|assumption].
  constructor; [|assumption]. repeat split.
  - assumption.
  - apply trim_idempotent.
  - now apply trim_Forall.
Qed.



Lemma significant_lines_leading c y :
  is_whitespace c = true -> significant_lines (c :: y) = significant_lines y.
Proof.
  intros Hc. unfold significant_lines.
  destruct (N.eq_dec c 0x0A) as [->|Hn].
  - rewrite split_sep. reflexivity.
  - destruct (split_other 0x0A c y Hn) as (l & ls & F1 & F2).
    rewrite F1, F2. cbn [map filter]. now rewrite trim_leading.
Qed.






(* ================================================================== *)
(** ** The byte budget *)
(* ================================================================== *)

Lemma codePoints_basic_latin p s :
  basic_latin p -> codePoints (p ++ s) = p ++ codePoints s.
Proof.
  induction 1 as [|u p Hu Hp IH]; [reflexivity|].
  rewrite <- app_comm_cons. cbn [codePoints].
  assert (H1 : is_high_surrogate u = false).
  { unfold is_high_surrogate. destruct (N.leb_spec 0xD800 u); [lia|reflexivity]. }
  assert (H2 : is_low_surrogate u = false).
  { unfold is_low_surrogate. destruct (N.leb_spec 0xDC00 u); [lia|reflexivity]. }
  now rewrite H1, H2, IH.
Qed.

Lemma utf8_encode_basic_latin p s :
  basic_latin p -> utf8_encode (p ++ s) = p ++ utf8_encode s.
Proof.
  intros Hp. unfold utf8_encode. rewrite codePoints_basic_latin by assumption.
  rewrite flat_map_app. f_equal.
  induction Hp as [|u p Hu Hp IH]; [reflexivity|].
  cbn [flat_map]. rewrite IH. unfold utf8_of_codePoint.
  destruct (N.ltb_spec u 0x80); [reflexivity|lia].
Qed.

Lemma utf8_decode_basic_latin p bs :
  basic_latin p -> utf8_decode (p ++ bs) = p ++ utf8_decode bs.
Proof.
  intros Hp. unfold utf8_decode.
  induction Hp as [|u p Hu Hp IH]; [reflexivity|].
  rewrite <- app_comm_cons. cbn [decode_from].
  assert (E : decode_step decoder_init u = ([u], decoder_init)).
  { unfold decode_step, decode_lead. cbn [dec_needed decoder_init N.eqb].
    destruct (N.leb_spec u 0x7F); [reflexivity|lia]. }
  rewrite E. cbn [app flat_map]. rewrite IH. unfold utf16_of_codePoint.
  destruct (N.ltb_spec u 0x10000); [reflexivity|lia].
Qed.

(** A text of one-byte characters followed by [é], with a budget that
    ends between the two bytes of the [é]: the cut leaves the lead byte,
    which decodes to U+FFFD. *)
Lemma clampBytes_cut p max :
  basic_latin p -> max = N.of_nat (List.length p) + 1 ->
  clampBytes (p ++ [0xE9]) max = p ++ [0xFFFD].
Proof.
  intros Hp ->. unfold clampBytes.
  rewrite utf8_encode_basic_latin by assumption.
  change (utf8_encode [0xE9]) with [0xC3; 0xA9].
  rewrite length_app. cbn [List.length].
  destruct (N.leb_spec (N.of_nat (List.length p + 2)) (N.of_nat (List.length p) + 1));
    [lia|].
  replace (N.to_nat (N.of_nat (List.length p) + 1)) with (List.length p + 1)%nat by lia.
  rewrite firstn_app_2. cbn [firstn].
  now rewrite utf8_decode_basic_latin.
Qed.

Lemma basic_latin_repeat u n : u < 0x80 -> basic_latin (repeat u n).
Proof.
  intros Hu. apply Forall_forall. intros v Hv.
  apply repeat_spec in Hv. now subst.
Qed.

(** Small budgets show the same cut. *)
Example clampBytes_small :
  clampBytes [0x61; 0xE9] 2 = [0x61; 0xFFFD]
  /\ utf8_encode (clampBytes [0x61; 0xE9] 2) = [0x61; 0xEF; 0xBF; 0xBD]
  /\ clampBytes [0x61; 0x62; 0xE9] 3 = [0x61; 0x62; 0xFFFD]
  /\ clampBytes [0x61; 0x62; 0xE9] 4 = [0x61; 0x62; 0xE9].
Proof. repeat split. Qed.

(** C4.  The snippet of [long_schema] takes 250,001 bytes.  Clamped to the
    budget of 250,000 bytes it loses the second byte of its last
    character: the result ends in U+FFFD, is not a prefix of the snippet,
    and takes 250,002 bytes. *)
Theorem clampBytes_splits_character :
  let s := schemaJoined [long_schema] in
  let kept := str "# db/schema.rb" ++ [0x0A] ++ repeat 0x61 (N.to_nat 249984) in
  s = kept ++ [0xE9]
  /\ N.of_nat (List.length (utf8_encode s)) = 250001
  /\ clampBytes s MAX_SCHEMA_BYTES = kept ++ [0xFFFD]
  /\ N.of_nat (List.length (utf8_encode (clampBytes s MAX_SCHEMA_BYTES))) = 250002
  /\ ~ exists rest, s = clampBytes s MAX_SCHEMA_BYTES ++ rest.
Proof.
  intros s kept.
  assert (Hs : s = kept ++ [0xE9]).
  { assert (E : str "# " ++ str "db/schema.rb" = str "# db/schema.rb")
      by reflexivity.
    subst s kept. unfold schemaJoined, long_schema, snippet.
    cbn [map join path content].
    rewrite <- E, <- !app_assoc. reflexivity. }
  assert (Hk : basic_latin kept).
  { subst kept. apply Forall_app. split.
    - vm_compute. repeat (apply Forall_cons; [reflexivity|]). apply Forall_nil.
    - apply Forall_app. split; [repeat constructor|].
      now apply basic_latin_repeat. }
  assert (Hl : N.of_nat (List.length kept) = 249999).
  { subst kept. rewrite !length_app, repeat_length.
    change (List.length (str "# db/schema.rb")) with 14%nat.
    cbn [List.length]. lia. }
  assert (Hc : clampBytes s MAX_SCHEMA_BYTES = kept ++ [0xFFFD]).
  { rewrite Hs. apply clampBytes_cut; [assumption|].
    rewrite Hl. reflexivity. }
  split; [exact Hs|]. split; [|split; [exact Hc|split]].
  - rewrite Hs, utf8_encode_basic_latin by assumption.
    change (utf8_encode [0xE9]) with [0xC3; 0xA9].
    rewrite length_app. cbn [List.length]. lia.
  - rewrite Hc, utf8_encode_basic_latin by assumption.
    change (utf8_encode [0xFFFD]) with [0xEF; 0xBF; 0xBD].
    rewrite length_app. cbn [List.length]. lia.
  - rewrite Hc, Hs. intros [rest H]. rewrite <- app_assoc in H.
    apply app_inv_head in H. discriminate.
Qed.

(** A text that fits is returned as it is. *)
Lemma clampBytes_fits s max :
  N.of_nat (List.length (utf8_encode s)) <= max -> clampBytes s max = s.
Proof.
  intros H. unfold clampBytes.
  destruct (N.leb_spec (N.of_nat (List.length (utf8_encode s))) max); [reflexivity|lia].
Qed.

(* ================================================================== *)
(** ** The sort under a comparison that looks at its first argument *)
(* ================================================================== *)

Module SortFacts.

Import ArraySort.

Section LeftDetermined.

Context {A : Type}.
Variable comparefn : A -> A -> Z.
Variable p : A -> bool.

(** [comparefn a b] is negative exactly when [a] satisfies [p]. *)
Hypothesis before_p : forall a b, before comparefn a b = p a.

Lemma shiftr_1 x : Z.shiftr x 1 = (x / 2)%Z.
Proof. now rewrite Z.shiftr_div_pow2 by lia. Qed.

Lemma shiftl_1 x : Z.shiftl x 1 = (x * 2)%Z.
Proof. now rewrite Z.shiftl_mul_pow2 by lia. Qed.

Lemma search_right_primary fuel key a left right :
  p key = true -> (left <= right)%Z -> (right - left <= Z.of_nat fuel)%Z ->
  search_right comparefn fuel key a left right = left.
Proof.
  intros Hk. revert left right.
  induction fuel as [|fuel IH]; intros left right Hle Hf.
  - simpl. lia.
  - cbn [ArraySort.search_right]. destruct (Z.ltb_spec left right); [|lia].
    rewrite before_p, Hk, shiftr_1. apply IH.
    + assert (0 <= (right - left) / 2)%Z by (apply Z.div_pos; lia). lia.
    + assert ((right - left) / 2 < right - left)%Z
        by (apply Z.div_lt; lia). lia.
Qed.

Lemma search_right_other fuel key a left right :
  p key = false -> search_right comparefn fuel key a left right = right.
Proof.
  intros Hk. revert left.
  induction fuel as [|fuel IH]; intros left; [reflexivity|].
  cbn [ArraySort.search_right]. destruct (Z.ltb_spec left right); [|reflexivity].
  rewrite before_p, Hk. apply IH.
Qed.

(** The exponential search ends past [maxOfs] or where [stop] holds, and
    [stop] did not hold at the offset before. *)
Lemma gallop_loop_spec stop fuel maxOfs lastOfs offset :
  (0 <= lastOfs < offset)%Z ->
  (maxOfs <= offset + Z.of_nat fuel)%Z ->
  (lastOfs = 0 \/ (lastOfs < maxOfs /\ stop lastOfs = false))%Z ->
  forall l o, gallop_loop fuel stop maxOfs lastOfs offset = (l, o) ->
  (0 <= l < o)%Z
  /\ (l = 0 \/ (l < maxOfs /\ stop l = false))%Z
  /\ (maxOfs <= o \/ (o < maxOfs /\ stop o = true))%Z.
Proof.
  revert lastOfs offset.
  induction fuel as [|fuel IH]; intros lastOfs offset H1 H2 H3 l o E.
  - simpl in E. injection E as <- <-. repeat split; try lia. assumption.
  - cbn [gallop_loop] in E. destruct (Z.ltb_spec offset maxOfs).
    + destruct (stop offset) eqn:Hs.
      * injection E as <- <-. repeat split; try lia; auto.
      * rewrite shiftl_1 in E. apply IH in E; try lia. assumption.
        right. split; [lia|assumption].
    + injection E as <- <-. repeat split; try lia. assumption.
Qed.

Lemma at_index_partition (P N : list A) d i :
  Forall (fun a => p a = true) P -> Forall (fun a => p a = false) N ->
  (0 <= i < Z.of_nat (List.length (P ++ N)))%Z ->
  p (at_index (P ++ N) d i) = (i <? Z.of_nat (List.length P))%Z.
Proof.
  intros HP HN Hi. unfold at_index. rewrite length_app in Hi.
  destruct (Z.ltb_spec i (Z.of_nat (List.length P))).
  - rewrite app_nth1 by lia.
    apply (proj1 (Forall_nth _ P) HP). lia.
  - rewrite app_nth2 by lia.
    apply (proj1 (Forall_nth _ N) HN). lia.
Qed.

Lemma search_left_partition fuel key (P N : list A) left right :
  Forall (fun a => p a = true) P -> Forall (fun a => p a = false) N ->
  (0 <= left <= Z.of_nat (List.length P))%Z ->
  (Z.of_nat (List.length P) <= right <= Z.of_nat (List.length (P ++ N)))%Z ->
  (right - left <= Z.of_nat fuel)%Z ->
  search_left comparefn fuel key (P ++ N) left right = Z.of_nat (List.length P).
Proof.
  intros HP HN. revert left right.
  induction fuel as [|fuel IH]; intros left right Hl Hr Hf.
  - simpl. lia.
  - cbn [ArraySort.search_left]. destruct (Z.ltb_spec left right); [|lia].
    rewrite shiftr_1, before_p.
    assert (0 <= (right - left) / 2)%Z by (apply Z.div_pos; lia).
    assert ((right - left) / 2 < right - left)%Z by (apply Z.div_lt; lia).
    rewrite (at_index_partition P N key) by (assumption || lia).
    destruct (Z.ltb_spec (left + (right - left) / 2) (Z.of_nat (List.length P)));
      apply IH; lia.
Qed.

Lemma GallopRight_primary key a hint :
  p key = true -> (0 <= hint < Z.of_nat (List.length a))%Z ->
  GallopRight comparefn key a hint = 0%Z.
Proof.
  intros Hk Hh. unfold ArraySort.GallopRight. rewrite before_p, Hk.
  destruct (gallop_loop _ _ _ _ _) as [l o] eqn:E.
  apply gallop_loop_spec in E; [|lia|lia|now left].
  destruct E as (E1 & E2 & E3).
  assert (Ho : (hint + 1 <= o)%Z).
  { destruct E3 as [?|[_ E3]]; [assumption|].
    rewrite before_p, Hk in E3. discriminate. }
  assert (Hl : (l < hint + 1)%Z) by (destruct E2 as [->|[? _]]; lia).
  replace (if (hint + 1 <? o)%Z then (hint + 1)%Z else o) with (hint + 1)%Z
    by (destruct (Z.ltb_spec (hint + 1) o); lia).
  replace (hint - (hint + 1) + 1)%Z with 0%Z by lia.
  apply search_right_primary; [assumption|lia|lia].
Qed.

Lemma GallopRight_other key a hint :
  p key = false -> (0 <= hint < Z.of_nat (List.length a))%Z ->
  GallopRight comparefn key a hint = Z.of_nat (List.length a).
Proof.
  intros Hk Hh. unfold ArraySort.GallopRight. rewrite before_p, Hk.
  destruct (gallop_loop _ _ _ _ _) as [l o] eqn:E.
  apply gallop_loop_spec in E; [|lia|lia|now left].
  destruct E as (E1 & E2 & E3).
  assert (Ho : (Z.of_nat (List.length a) - hint <= o)%Z).
  { destruct E3 as [?|[_ E3]]; [assumption|].
    rewrite before_p, Hk in E3. discriminate. }
  rewrite search_right_other by assumption.
  destruct (Z.ltb_spec (Z.of_nat (List.length a) - hint) o); lia.
Qed.

Lemma GallopLeft_partition key (P N : list A) hint :
  Forall (fun a => p a = true) P -> Forall (fun a => p a = false) N ->
  (0 <= hint < Z.of_nat (List.length (P ++ N)))%Z ->
  GallopLeft comparefn key (P ++ N) hint = Z.of_nat (List.length P).
Proof.
  intros HP HN Hh. unfold ArraySort.GallopLeft.
  rewrite before_p, (at_index_partition P N key) by assumption.
  set (len := Z.of_nat (List.length (P ++ N))) in *.
  set (m := Z.of_nat (List.length P)).
  assert (Hm : (0 <= m <= len)%Z)
    by (subst m len; rewrite length_app; lia).
  destruct (Z.ltb_spec hint m) as [Hlt|Hge].
  - destruct (gallop_loop _ _ _ _ _) as [l o] eqn:E.
    apply gallop_loop_spec in E; [|lia|lia|now left].
    destruct E as (E1 & E2 & E3).
    assert (Hl : (l + hint < m)%Z).
    { destruct E2 as [->|[Hl E2]]; [lia|].
      apply negb_false_iff in E2.
      rewrite before_p, (at_index_partition P N key) in E2
        by (assumption || (fold len; lia)).
      apply Z.ltb_lt in E2. lia. }
    apply search_left_partition; try assumption; fold m; fold len.
    + lia.
    + destruct E3 as [E3|[Ho E3]].
      * destruct (Z.ltb_spec (len - hint) o); lia.
      * apply negb_true_iff in E3.
        rewrite before_p, (at_index_partition P N key) in E3
          by (assumption || (fold len; lia)).
        apply Z.ltb_ge in E3. fold m in E3.
        destruct (Z.ltb_spec (len - hint) o); lia.
    + destruct (Z.ltb_spec (len - hint) o); lia.
  - destruct (gallop_loop _ _ _ _ _) as [l o] eqn:E.
    apply gallop_loop_spec in E; [|lia|lia|now left].
    destruct E as (E1 & E2 & E3).
    assert (Hl : (m <= hint - l)%Z).
    { destruct E2 as [->|[Hl E2]]; [lia|].
      rewrite before_p, (at_index_partition P N key) in E2
        by (assumption || (fold len; lia)).
      apply Z.ltb_ge in E2. fold m in E2. lia. }
    apply search_left_partition; try assumption; fold m; fold len.
    + destruct E3 as [E3|[Ho E3]].
      * destruct (Z.ltb_spec (hint + 1) o); lia.
      * rewrite before_p, (at_index_partition P N key) in E3
          by (assumption || (fold len; lia)).
        apply Z.ltb_lt in E3. fold m in E3.
        destruct (Z.ltb_spec (hint + 1) o); lia.
    + lia.
    + destruct (Z.ltb_spec (hint + 1) o); lia.
Qed.

Lemma GallopLeft_all_primary key (l : list A) hint :
  Forall (fun a => p a = true) l ->
  (0 <= hint < Z.of_nat (List.length l))%Z ->
  GallopLeft comparefn key l hint = Z.of_nat (List.length l).
Proof.
  intros Hl Hh. rewrite <- (app_nil_r l) at 1.
  apply GallopLeft_partition; [assumption|constructor|].
  now rewrite app_nil_r.
Qed.

Lemma unsnoc_None (l : list A) : unsnoc l = None -> l = [].
Proof.
  unfold unsnoc. destruct (rev l) eqn:E; [|discriminate]. intros _.
  rewrite <- (rev_involutive l), E. reflexivity.
Qed.

Lemma unsnoc_Some (l l' : list A) x : unsnoc l = Some (l', x) -> l = l' ++ [x].
Proof.
  unfold unsnoc. destruct (rev l) as [|y r] eqn:E; [discriminate|].
  intros [= <- <-]. rewrite <- (rev_involutive l), E. reflexivity.
Qed.

(** When every element of run B satisfies [p], the loops of [MergeLow]
    write all of B and then all of A. *)
Lemma merge_low_loop_primary fuel mode minGallop saved out ta wb :
  Forall (fun a => p a = true) wb -> (List.length wb <= fuel)%nat ->
  fst (merge_low_loop comparefn fuel mode minGallop saved out ta wb)
  = out ++ wb ++ ta.
Proof.
  revert mode minGallop saved out ta wb.
  induction fuel as [|fuel IH]; intros mode minGallop saved out ta wb Hwb Hf.
  - destruct wb; [|simpl in Hf; lia]. simpl. now rewrite app_nil_r.
  - cbn [merge_low_loop].
    destruct ta as [|a ta']; [simpl; now rewrite app_nil_r|].
    destruct wb as [|b wb']; [cbn [fst app]; now rewrite app_nil_r|].
    inversion Hwb as [|? ? Hb Hwb']; subst. simpl in Hf.
    destruct mode as [nofWinsA nofWinsB|].
    + rewrite before_p, Hb. destruct wb' as [|b2 wb2]; [reflexivity|].
      destruct (minGallop <=? nofWinsB + 1)%Z;
        rewrite IH by (assumption || lia); now rewrite <- app_assoc.
    + rewrite (GallopRight_primary b (a :: ta') 0 Hb) by (simpl; lia).
      cbn [Z.to_nat firstn skipn Z.ltb Z.compare].
      destruct wb' as [|b2 wb2]; [now rewrite app_nil_r|].
      rewrite (GallopLeft_all_primary a (b2 :: wb2) 0 Hwb') by (simpl; lia).
      rewrite Nat2Z.id, firstn_all, skipn_all.
      cbn [List.length Z.of_nat Z.ltb Z.compare fst].
      rewrite app_nil_r, <- !app_assoc. reflexivity.
Qed.

(** The same for the loops of [MergeHigh]. *)
Lemma merge_high_loop_primary fuel mode minGallop saved wa tb out :
  Forall (fun a => p a = true) tb -> (List.length wa <= fuel)%nat ->
  fst (merge_high_loop comparefn fuel mode minGallop saved wa tb out)
  = tb ++ wa ++ out.
Proof.
  revert mode minGallop saved wa tb out.
  induction fuel as [|fuel IH]; intros mode minGallop saved wa tb out Htb Hf.
  - destruct wa; [|simpl in Hf; lia]. cbn [merge_high_loop fst app].
    reflexivity.
  - cbn [merge_high_loop].
    destruct (unsnoc wa) as [[wa' a]|] eqn:Ea.
    2:{ apply unsnoc_None in Ea. subst wa. destruct (unsnoc tb) as [[? ?]|];
          reflexivity. }
    destruct (unsnoc tb) as [[tb' b]|] eqn:Eb.
    2:{ apply unsnoc_None in Eb. subst tb. reflexivity. }
    pose proof (unsnoc_Some _ _ _ Ea) as Hwa.
    pose proof (unsnoc_Some _ _ _ Eb) as Htb'.
    assert (Hb : p b = true).
    { rewrite Htb' in Htb. apply Forall_app in Htb as [_ Htb].
      now inversion Htb. }
    assert (Hlen : List.length wa = S (List.length wa'))
      by (rewrite Hwa, length_app; simpl; lia).
    destruct mode as [nofWinsA nofWinsB|].
    + rewrite before_p, Hb. destruct wa' as [|a2 wa2].
      * subst wa. reflexivity.
      * destruct (minGallop <=? nofWinsA + 1)%Z;
          rewrite IH by (assumption || lia); rewrite Hwa;
          now rewrite <- !app_assoc.
    + rewrite (GallopRight_primary b wa (Z.of_nat (List.length wa) - 1) Hb)
        by lia.
      rewrite Z.sub_0_r, Nat2Z.id.
      unfold lastn, droplast. rewrite Nat.sub_diag.
      cbn [firstn skipn].
      replace (0 <? Z.of_nat (List.length wa))%Z with true
        by (symmetry; apply Z.ltb_lt; lia).
      reflexivity.
Qed.

Lemma MergeLow_primary saved (runA runB : list A) :
  Forall (fun a => p a = true) runB -> runA <> [] -> runB <> [] ->
  fst (MergeLow comparefn saved runA runB) = runB ++ runA.
Proof.
  intros HB HA HB0. unfold MergeLow.
  destruct runB as [|b wb]; [congruence|].
  inversion HB as [|? ? Hb Hwb]; subst.
  destruct wb as [|b2 wb2]; [reflexivity|].
  destruct runA as [|a [|a2 ta]]; [congruence| |].
  - cbn [fst]. now rewrite <- app_comm_cons.
  - rewrite merge_low_loop_primary by (assumption || (simpl; lia)).
    reflexivity.
Qed.

Lemma MergeHigh_primary saved (runA runB : list A) :
  Forall (fun a => p a = true) runB -> runA <> [] -> runB <> [] ->
  fst (MergeHigh comparefn saved runA runB) = runB ++ runA.
Proof.
  intros HB HA HB0. unfold MergeHigh.
  destruct (unsnoc runA) as [[wa a]|] eqn:Ea.
  2:{ apply unsnoc_None in Ea. congruence. }
  apply unsnoc_Some in Ea. subst runA.
  destruct wa as [|a2 wa2]; [reflexivity|].
  destruct runB as [|b [|b2 tb]]; [congruence|reflexivity|].
  rewrite merge_high_loop_primary by (assumption || (rewrite length_app; simpl; lia)).
  reflexivity.
Qed.

Lemma firstn_length_app (P N : list A) : firstn (List.length P) (P ++ N) = P.
Proof.
  rewrite firstn_app, Nat.sub_diag, firstn_all. cbn [firstn]. apply app_nil_r.
Qed.

Lemma skipn_length_app (P N : list A) : skipn (List.length P) (P ++ N) = N.
Proof.
  rewrite skipn_app, Nat.sub_diag, skipn_all. reflexivity.
Qed.

(** The merge of two adjacent runs of which the later one has its
    elements that satisfy [p] in front: these go before the whole of the
    earlier run, the rest of the later run stays behind it. *)
Lemma MergeAt_partition saved (runA P N : list A) :
  Forall (fun a => p a = true) P -> Forall (fun a => p a = false) N ->
  runA <> [] -> P ++ N <> [] ->
  fst (MergeAt comparefn saved runA (P ++ N)) = P ++ runA ++ N.
Proof.
  intros HP HN HA HB. unfold MergeAt.
  assert (HlenA : (0 < Z.of_nat (List.length runA))%Z)
    by (destruct runA; [congruence|simpl; lia]).
  destruct P as [|b P'].
  - destruct N as [|n N']; [exfalso; now apply HB|]. cbn [app].
    inversion HN as [|? ? Hn HN']; subst.
    rewrite (GallopRight_other n runA 0 Hn) by lia.
    rewrite Nat2Z.id, skipn_all. reflexivity.
  - inversion HP as [|? ? Hb HP']; subst.
    rewrite <- app_comm_cons.
    rewrite (GallopRight_primary b runA 0 Hb) by lia.
    cbn [Z.to_nat skipn firstn].
    destruct (unsnoc runA) as [[wa keyLeft]|] eqn:Ea.
    2:{ apply unsnoc_None in Ea. congruence. }
    rewrite app_comm_cons.
    rewrite (GallopLeft_partition keyLeft (b :: P') N) by
      (assumption || (rewrite !length_app; cbn [List.length]; lia)).
    rewrite Nat2Z.id, firstn_length_app, skipn_length_app.
    destruct (List.length runA <=? List.length (b :: P'))%nat.
    + pose proof (MergeLow_primary saved runA (b :: P') HP HA) as H.
      destruct (MergeLow comparefn saved runA (b :: P')) as [merged saved'].
      cbn [fst] in *. rewrite H by discriminate.
      cbn [app]. now rewrite <- !app_assoc.
    + pose proof (MergeHigh_primary saved runA (b :: P') HP HA) as H.
      destruct (MergeHigh comparefn saved runA (b :: P')) as [merged saved'].
      cbn [fst] in *. rewrite H by discriminate.
      cbn [app]. now rewrite <- !app_assoc.
Qed.

Lemma filter_primary_Forall (l : list A) :
  Forall (fun a => p a = true) (rev (filter p l))
  /\ Forall (fun a => p a = false) (filter (fun a => negb (p a)) l).
Proof.
  split.
  - apply Forall_rev, Forall_forall. intros a Ha.
    now apply filter_In in Ha.
  - apply Forall_forall. intros a Ha. apply filter_In in Ha as [_ Ha].
    now apply negb_true_iff.
Qed.

Lemma primary_first_nil (l : list A) : primary_first p l = [] -> l = [].
Proof.
  destruct l as [|a l]; [reflexivity|]. unfold primary_first. cbn [filter].
  destruct (p a); cbn [negb rev]; intros H.
  - apply app_eq_nil in H as [H _]. now apply app_eq_nil in H as [_ H].
  - now apply app_eq_nil in H as [_ H].
Qed.

Lemma primary_first_app (x y : list A) :
  primary_first p (x ++ y)
  = rev (filter p y) ++ primary_first p x ++ filter (fun a => negb (p a)) y.
Proof.
  unfold primary_first. rewrite !filter_app, rev_app_distr.
  now rewrite <- !app_assoc.
Qed.

Lemma MergeAt_primary_first saved (x y : list A) :
  x <> [] -> y <> [] ->
  fst (MergeAt comparefn saved (primary_first p x) (primary_first p y))
  = primary_first p (x ++ y).
Proof.
  intros Hx Hy. rewrite primary_first_app.
  destruct (filter_primary_Forall y) as [HP HN].
  apply MergeAt_partition; try assumption.
  - intros H. now apply primary_first_nil in H.
  - intros H. now apply primary_first_nil in H.
Qed.

Lemma merge_step saved (x y : list A) :
  x <> [] -> y <> [] ->
  exists saved',
    MergeAt comparefn saved (primary_first p x) (primary_first p y)
    = (primary_first p (x ++ y), saved').
Proof.
  intros Hx Hy. pose proof (MergeAt_primary_first saved x y Hx Hy) as H.
  destruct (MergeAt comparefn saved _ _) as [m s']. cbn [fst] in H.
  subst m. now exists s'.
Qed.

Lemma run_scan_spec descending previous l taken rest :
  run_scan comparefn descending previous l = (taken, rest) ->
  l = taken ++ rest /\ Forall (fun a => p a = descending) taken.
Proof.
  revert previous taken rest.
  induction l as [|current tl IH]; intros previous taken rest E.
  - injection E as <- <-. split; [reflexivity|constructor].
  - cbn [run_scan] in E. rewrite before_p in E.
    destruct (if descending then negb (p current) else p current) eqn:Hc.
    + injection E as <- <-. split; [reflexivity|constructor].
    + destruct (run_scan comparefn descending current tl) as [t r] eqn:Et.
      injection E as <- <-. apply IH in Et as [-> Ht].
      split; [reflexivity|]. constructor; [|assumption].
      destruct descending, (p current); simpl in Hc; congruence.
Qed.

Lemma filter_all (f : A -> bool) (l : list A) :
  Forall (fun a => f a = true) l -> filter f l = l.
Proof.
  induction 1 as [|a l Ha Hl IH]; [reflexivity|]. cbn [filter].
  now rewrite Ha, IH.
Qed.

Lemma filter_none (f : A -> bool) (l : list A) :
  Forall (fun a => f a = false) l -> filter f l = [].
Proof.
  induction 1 as [|a l Ha Hl IH]; [reflexivity|]. cbn [filter].
  now rewrite Ha, IH.
Qed.

Lemma primary_first_run descending a0 (l : list A) :
  Forall (fun a => p a = descending) l ->
  (if descending then rev (a0 :: l) else a0 :: l) = primary_first p (a0 :: l).
Proof.
  intros Hl. unfold primary_first. cbn [filter].
  destruct descending.
  - rewrite (filter_all p l Hl), (filter_none (fun a => negb (p a)) l)
      by (eapply Forall_impl; [|exact Hl]; cbn; now intros ? ->).
    destruct (p a0); cbn [negb rev]; now rewrite ?app_nil_r.
  - rewrite (filter_none p l Hl), (filter_all (fun a => negb (p a)) l)
      by (eapply Forall_impl; [|exact Hl]; cbn; now intros ? ->).
    destruct (p a0); reflexivity.
Qed.

Lemma primary_first_single (a : A) : primary_first p [a] = [a].
Proof. unfold primary_first. cbn [filter]. destruct (p a); reflexivity. Qed.

(** The run that [CountAndMakeRun] makes of the start of the list. *)
Lemma CountAndMakeRun_spec (l : list A) :
  l <> [] ->
  exists seg rest,
    CountAndMakeRun comparefn l = (primary_first p seg, rest)
    /\ l = seg ++ rest /\ seg <> [].
Proof.
  intros Hl. destruct l as [|a0 [|a1 tl]]; [congruence| |].
  - exists [a0], []. rewrite primary_first_single. repeat split. discriminate.
  - cbn [CountAndMakeRun]. rewrite before_p.
    destruct (run_scan comparefn (p a1) a1 tl) as [taken rest] eqn:E.
    apply run_scan_spec in E as [-> Ht].
    exists (a0 :: a1 :: taken), rest.
    rewrite (primary_first_run (p a1) a0 (a1 :: taken)) by now constructor.
    repeat split. discriminate.
Qed.

Lemma primary_first_snoc (seg : list A) x :
  primary_first p (seg ++ [x])
  = if p x then x :: primary_first p seg else primary_first p seg ++ [x].
Proof.
  unfold primary_first. rewrite !filter_app. cbn [filter].
  destruct (p x); cbn [negb].
  - now rewrite rev_app_distr, app_nil_r.
  - now rewrite app_nil_r, app_assoc.
Qed.

(** [BinaryInsertionSort] puts an element that satisfies [p] in front
    and leaves another one at the end. *)
Lemma BinaryInsertionSort_spec count (seg rest : list A) :
  BinaryInsertionSort comparefn count (primary_first p seg) rest
  = (primary_first p (seg ++ firstn count rest), skipn count rest).
Proof.
  revert seg rest. induction count as [|count IH]; intros seg rest.
  - cbn. now rewrite app_nil_r.
  - destruct rest as [|pivot rest'].
    + cbn. now rewrite app_nil_r.
    + cbn [BinaryInsertionSort firstn skipn].
      replace (seg ++ pivot :: firstn count rest')
        with ((seg ++ [pivot]) ++ firstn count rest')
        by now rewrite <- app_assoc.
      rewrite <- IH. f_equal. rewrite primary_first_snoc.
      destruct (p pivot) eqn:Hp.
      * rewrite search_right_primary by (assumption || lia). reflexivity.
      * rewrite search_right_other by assumption.
        rewrite Nat2Z.id. unfold insert_at.
        now rewrite firstn_all, skipn_all.
Qed.

(** The runs of a stack are the segments of the array, each with its
    elements that satisfy [p] in front; a merge joins two neighbours. *)
Lemma concat_rev_merge (sx sy : list A) (below : list (list A)) :
  List.concat (rev ((sy ++ sx) :: below)) = List.concat (rev (sx :: sy :: below)).
Proof.
  cbn [rev]. rewrite !concat_app. cbn [List.concat].
  now rewrite !app_nil_r, <- !app_assoc.
Qed.

Lemma concat_rev_merge_below (sx sy sz : list A) (below : list (list A)) :
  List.concat (rev (sx :: (sz ++ sy) :: below))
  = List.concat (rev (sx :: sy :: sz :: below)).
Proof.
  cbn [rev]. rewrite !concat_app. cbn [List.concat].
  now rewrite !app_nil_r, <- !app_assoc.
Qed.

Lemma app_not_nil (x y : list A) : x <> [] -> x ++ y <> [].
Proof. destruct x; [congruence|discriminate]. Qed.

Lemma MergeCollapse_spec fuel saved (segs : list (list A)) :
  Forall (fun s => s <> []) segs ->
  exists segs' saved',
    MergeCollapse comparefn fuel saved (map (primary_first p) segs)
    = (map (primary_first p) segs', saved')
    /\ List.concat (rev segs') = List.concat (rev segs)
    /\ Forall (fun s => s <> []) segs'.
Proof.
  revert saved segs.
  induction fuel as [|fuel IH]; intros saved segs Hne.
  - exists segs, saved. auto.
  - destruct segs as [|sx [|sy below]];
      [exists [], saved; now auto|exists [sx], saved; now auto|].
    inversion Hne as [|? ? Hx Hne1]; subst.
    inversion Hne1 as [|? ? Hy Hbelow]; subst.
    assert (Hyx : forall s,
              exists segs' saved',
                (let '(m, saved') :=
                   MergeAt comparefn s (primary_first p sy) (primary_first p sx) in
                 MergeCollapse comparefn fuel saved'
                   (m :: map (primary_first p) below))
                = (map (primary_first p) segs', saved')
                /\ List.concat (rev segs') = List.concat (rev (sx :: sy :: below))
                /\ Forall (fun s => s <> []) segs').
    { intros s. destruct (merge_step s sy sx Hy Hx) as [s' E]. rewrite E.
      destruct (IH s' ((sy ++ sx) :: below)) as (segs' & s2 & E1 & E2 & E3).
      { constructor; [now apply app_not_nil|assumption]. }
      exists segs', s2. split; [exact E1|]. split; [|exact E3].
      rewrite E2. apply concat_rev_merge. }
    cbn [MergeCollapse map].
    destruct below as [|sz below'].
    + cbn [map negb orb].
      destruct (_ <=? _)%nat; [apply Hyx|].
      exists [sx; sy], saved. auto.
    + inversion Hbelow as [|? ? Hz Hbelow']; subst. cbn [map].
      match goal with
      | |- context [if ?c then _ else if _ then _ else _] => destruct c
      end.
      * destruct (_ <? _)%nat; [|apply (Hyx saved)].
        destruct (merge_step saved sz sy Hz Hy) as [s' E]. rewrite E.
        destruct (IH s' (sx :: (sz ++ sy) :: below')) as (segs' & s2 & E1 & E2 & E3).
        { constructor; [assumption|].
          constructor; [now apply app_not_nil|assumption]. }
        exists segs', s2. split; [exact E1|]. split; [|exact E3].
        rewrite E2. apply concat_rev_merge_below.
      * destruct (_ <=? _)%nat; [apply (Hyx saved)|].
        exists (sx :: sy :: sz :: below'), saved. auto.
Qed.

Lemma MergeForceCollapse_spec fuel saved (segs : list (list A)) :
  Forall (fun s => s <> []) segs -> (List.length segs <= S fuel)%nat ->
  exists segs' saved',
    MergeForceCollapse comparefn fuel saved (map (primary_first p) segs)
    = (map (primary_first p) segs', saved')
    /\ List.concat (rev segs') = List.concat (rev segs)
    /\ (List.length segs' <= 1)%nat.
Proof.
  revert saved segs.
  induction fuel as [|fuel IH]; intros saved segs Hne Hlen.
  - exists segs, saved. auto.
  - destruct segs as [|sx [|sy below]];
      [exists [], saved; repeat split; cbn; lia
      |exists [sx], saved; repeat split; cbn; lia|].
    inversion Hne as [|? ? Hx Hne1]; subst.
    inversion Hne1 as [|? ? Hy Hbelow]; subst.
    cbn [List.length] in Hlen.
    assert (Hyx : exists segs' saved',
                (let '(m, saved') :=
                   MergeAt comparefn saved (primary_first p sy) (primary_first p sx) in
                 MergeForceCollapse comparefn fuel saved'
                   (m :: map (primary_first p) below))
                = (map (primary_first p) segs', saved')
                /\ List.concat (rev segs') = List.concat (rev (sx :: sy :: below))
                /\ (List.length segs' <= 1)%nat).
    { destruct (merge_step saved sy sx Hy Hx) as [s' E]. rewrite E.
      destruct (IH s' ((sy ++ sx) :: below)) as (segs' & s2 & E1 & E2 & E3).
      { constructor; [now apply app_not_nil|assumption]. }
      { cbn [List.length]. lia. }
      exists segs', s2. split; [exact E1|]. split; [|exact E3].
      rewrite E2. apply concat_rev_merge. }
    cbn [MergeForceCollapse map].
    destruct below as [|sz below']; [exact Hyx|].
    inversion Hbelow as [|? ? Hz Hbelow']; subst. cbn [map].
    destruct (_ <? _)%nat; [|exact Hyx].
    destruct (merge_step saved sz sy Hz Hy) as [s' E]. rewrite E.
    destruct (IH s' (sx :: (sz ++ sy) :: below')) as (segs' & s2 & E1 & E2 & E3).
    { constructor; [assumption|].
      constructor; [now apply app_not_nil|assumption]. }
    { cbn [List.length] in *. lia. }
    exists segs', s2. split; [exact E1|]. split; [|exact E3].
    rewrite E2. apply concat_rev_merge_below.
Qed.

Lemma timsort_loop_spec fuel minRunLength saved (segs : list (list A)) remaining :
  Forall (fun s => s <> []) segs -> (List.length remaining <= fuel)%nat ->
  exists segs' saved',
    timsort_loop comparefn fuel minRunLength saved
      (map (primary_first p) segs) remaining
    = (map (primary_first p) segs', saved')
    /\ List.concat (rev segs') = List.concat (rev segs) ++ remaining
    /\ Forall (fun s => s <> []) segs'.
Proof.
  revert saved segs remaining.
  induction fuel as [|fuel IH]; intros saved segs remaining Hne Hlen.
  - destruct remaining; [|simpl in Hlen; lia].
    exists segs, saved. rewrite app_nil_r. auto.
  - cbn [timsort_loop].
    destruct remaining as [|r0 remaining'] eqn:Er.
    + exists segs, saved. rewrite app_nil_r. auto.
    + rewrite <- Er in *.
      destruct (CountAndMakeRun_spec remaining) as (seg & rest & E1 & E2 & E3);
        [subst; discriminate|].
      rewrite E1.
      assert (Hrun : exists seg' rest',
                 (if (List.length (primary_first p seg) <? minRunLength)%nat
                  then BinaryInsertionSort comparefn
                         (Nat.min minRunLength (List.length remaining)
                          - List.length (primary_first p seg))
                         (primary_first p seg) rest
                  else (primary_first p seg, rest))
                 = (primary_first p seg', rest')
                 /\ remaining = seg' ++ rest' /\ seg' <> []).
      { destruct (_ <? _)%nat.
        - rewrite BinaryInsertionSort_spec. eexists _, _.
          split; [reflexivity|]. split.
          + rewrite <- app_assoc, firstn_skipn. exact E2.
          + now apply app_not_nil.
        - eauto. }
      destruct Hrun as (seg' & rest' & F1 & F2 & F3). rewrite F1.
      destruct (MergeCollapse_spec (S (List.length (map (primary_first p) segs)))
                  saved (seg' :: segs)) as (segs1 & s1 & G1 & G2 & G3);
        [now constructor|].
      cbn [map] in G1. rewrite G1.
      destruct (IH s1 segs1 rest' G3) as (segs2 & s2 & H1 & H2 & H3).
      { assert (0 < List.length seg')%nat by (destruct seg'; [congruence|simpl; lia]).
        rewrite F2, length_app in Hlen. lia. }
      exists segs2, s2. split; [exact H1|]. split; [|exact H3].
      rewrite H2, G2, F2. cbn [rev]. rewrite concat_app. cbn [List.concat].
      now rewrite app_nil_r, <- app_assoc.
Qed.

(** The sort under such a comparison function: the elements that satisfy
    [p] come first, the latest of them first, and the others follow in
    the order they had. *)
Theorem sort_left_determined (l : list A) :
  sort comparefn l = primary_first p l.
Proof.
  unfold sort. destruct (Nat.ltb_spec (List.length l) 2) as [Hlt|Hge].
  - destruct l as [|a [|b l]]; [reflexivity| |simpl in Hlt; lia].
    symmetry. apply primary_first_single.
  - destruct (timsort_loop_spec (List.length l) (ComputeMinRunLength (List.length l))
                kMinGallopWins [] l) as (segs1 & s1 & E1 & E2 & E3);
      [constructor|lia|].
    cbn [map] in E1. rewrite E1.
    destruct (MergeForceCollapse_spec (List.length (map (primary_first p) segs1))
                s1 segs1 E3) as (segs2 & s2 & F1 & F2 & F3);
      [rewrite length_map; lia|].
    rewrite F1. cbn [rev List.concat app] in E2. rewrite E2 in F2.
    destruct segs2 as [|seg [|? ?]]; [| |simpl in F3; lia].
    + cbn in F2. rewrite <- F2 in Hge. simpl in Hge. lia.
    + cbn in F2. rewrite app_nil_r in F2. rewrite F2.
      cbn [map rev List.concat app]. apply app_nil_r.
Qed.

End LeftDetermined.

End SortFacts.

(* ================================================================== *)
(** ** The order of the schema files *)
(* ================================================================== *)

Lemma schema_first_before (a b : FileBlob) :
  ArraySort.before schema_first a b = is_primary a.
Proof.
  unfold ArraySort.before, schema_first, is_primary.
  destruct (includes _ _); reflexivity.
Qed.

Lemma sort_schema_first (files : list FileBlob) :
  ArraySort.sort schema_first files = primary_first is_primary files.
Proof.
  apply SortFacts.sort_left_determined. apply schema_first_before.
Qed.

Lemma startsWith_app (x y : jsstring) : startsWith x (x ++ y) = true.
Proof.
  induction x as [|u x IH]; [reflexivity|]. simpl. now rewrite N.eqb_refl.
Qed.

(** When there is a primary file, the concatenation begins with the
    snippet of one. *)
Lemma schemaJoined_begins_with_primary (files : list FileBlob) :
  filter is_primary files <> [] ->
  exists f, In f files /\ is_primary f = true
            /\ startsWith (snippet f)
                 (schemaJoined (ArraySort.sort schema_first files)) = true.
Proof.
  intros Hne. rewrite sort_schema_first. unfold primary_first.
  destruct (rev (filter is_primary files)) as [|f rest] eqn:E.
  - apply (f_equal (@rev FileBlob)) in E. rewrite rev_involutive in E.
    contradiction.
  - assert (Hf : In f (filter is_primary files)).
    { apply in_rev. rewrite E. now left. }
    apply filter_In in Hf as [Hin Hp]. exists f. repeat split; try assumption.
    unfold schemaJoined. cbn [app map join].
    destruct (map snippet _) as [|s2 ss].
    + rewrite <- (app_nil_r (snippet f)) at 2. apply startsWith_app.
    + apply startsWith_app.
Qed.

(** C3.  In the concatenation of the prompt the files whose path names
    [db/schema.rb] come before all the others, and the others are in the
    order of their arrival.  (Among themselves the primary files are in
    the reverse of that order.) *)
Theorem primary_schema_first (args : PromptArgs) :
  let files := schemaFiles args in
  let primary := filter is_primary files in
  let others := filter (fun f => negb (is_primary f)) files in
  snd (buildPrompt args) = rev primary ++ others
  /\ fst (buildPrompt args)
     = trim (prompt_head ++ repo args ++ prompt_rules
             ++ current_section (currentERD args)
             ++ prompt_schema_heading
             ++ clampBytes (schemaJoined (rev primary ++ others)) MAX_SCHEMA_BYTES
             ++ prompt_tail).
Proof.
  intros files primary others. unfold buildPrompt. cbn [fst snd].
  rewrite sort_schema_first. split; reflexivity.
Qed.

(** With a comparison function that orders its arguments the model
    sorts. *)
Example sort_numbers :
  ArraySort.sort by_difference eighty_numbers = map Z.of_nat (seq 0 80).
Proof. vm_compute. reflexivity. Qed.

(** The sort itself, run on samples: two files, and seventy files, which
    take more than one run and so go through the merges. *)
Example sort_sample :
  ArraySort.sort schema_first
    [mkFileBlob (str "db/structure.sql") 22 sample_structure;
     mkFileBlob (str "db/schema.rb") 19 sample_schema]
  = [mkFileBlob (str "db/schema.rb") 19 sample_schema;
     mkFileBlob (str "db/structure.sql") 22 sample_structure].
Proof. vm_compute. reflexivity. Qed.

Example sort_seventy :
  map size (ArraySort.sort schema_first seventy_files)
  = [66; 59; 52; 45; 38; 31; 24; 17; 10; 3;
     0; 1; 2; 4; 5; 6; 7; 8; 9; 11; 12; 13; 14; 15; 16; 18; 19; 20; 21; 22;
     23; 25; 26; 27; 28; 29; 30; 32; 33; 34; 35; 36; 37; 39; 40; 41; 42; 43;
     44; 46; 47; 48; 49; 50; 51; 53; 54; 55; 56; 57; 58; 60; 61; 62; 63; 64;
     65; 67; 68; 69].
Proof. vm_compute. reflexivity. Qed.

(** [buildPrompt] leaves the array of its argument in the sorted order;
    with two primary files a second call on that array swaps them again. *)
Example buildPrompt_reorders_argument :
  let a := mkFileBlob (str "db/schema.rb") 1 [] in
  let b := mkFileBlob (str "engines/x/db/schema.rb") 2 [] in
  snd (buildPrompt (mkPromptArgs [] [a; b] None)) = [b; a]
  /\ snd (buildPrompt (mkPromptArgs [] [b; a] None)) = [a; b].
Proof. vm_compute. split; reflexivity. Qed.

(* ================================================================== *)
(** ** The encoding and the byte budget in general *)
(* ================================================================== *)

Lemma check_range_spec bits base ok :
  check_range bits base ok = true ->
  forall c, base <= c < base + 2 ^ N.of_nat bits -> ok c = true.
Proof.
  revert base. induction bits as [|bits IH]; intros base H c Hc.
  - cbn in *. replace c with base by lia. exact H.
  - cbn [check_range] in H. apply andb_true_iff in H as [H1 H2].
    rewrite N.shiftl_1_l in H2.
    rewrite Nat2N.inj_succ, N.pow_succ_r' in Hc.
    destruct (N.lt_ge_cases c (base + 2 ^ N.of_nat bits)).
    + apply (IH base H1). lia.
    + apply (IH _ H2). lia.
Qed.

Lemma all_scalars_ok :
  check_range 21 0 (fun c => negb (scalar c) || scalar_ok c) = true.
Proof. vm_compute. reflexivity. Qed.

Lemma scalar_scalar_ok c : scalar c = true -> scalar_ok c = true.
Proof.
  intros Hc.
  assert (Hr : 0 <= c < 0 + 2 ^ N.of_nat 21).
  { unfold scalar in Hc. change (2 ^ N.of_nat 21) with 2097152.
    apply orb_true_iff in Hc as [Hc|Hc].
    - apply N.ltb_lt in Hc. lia.
    - apply andb_true_iff in Hc as [_ Hc]. apply N.ltb_lt in Hc. lia. }
  pose proof (check_range_spec _ _ _ all_scalars_ok c Hr) as H.
  cbv beta in H. rewrite Hc in H. exact H.
Qed.

Lemma decode_from_app st bs rest :
  decode_from st (bs ++ rest)
  = fst (decode_run st bs) ++ decode_from (snd (decode_run st bs)) rest.
Proof.
  revert st. induction bs as [|b bs IH]; intros st; [reflexivity|].
  cbn [app decode_from decode_run].
  destruct (decode_step st b) as [out st']. rewrite IH.
  destruct (decode_run st' bs) as [outs st'']. cbn [fst snd].
  now rewrite app_assoc.
Qed.

Lemma decoder_is_init_eq st : decoder_is_init st = true -> st = decoder_init.
Proof.
  destruct st as [a b c d e]. unfold decoder_is_init. cbn.
  rewrite !andb_true_iff, !N.eqb_eq. intros [[[[-> ->] ->] ->] ->].
  reflexivity.
Qed.

Lemma utf8_of_codePoint_length c :
  (1 <= List.length (utf8_of_codePoint c) <= 4)%nat.
Proof.
  unfold utf8_of_codePoint.
  destruct (c <? 0x80); [cbn; lia|].
  destruct (c <? 0x800); [cbn; lia|].
  destruct (c <? 0x10000); cbn; lia.
Qed.

(** The bytes of a scalar value decode to it. *)
Lemma decode_scalar c rest :
  scalar c = true ->
  decode_from decoder_init (utf8_of_codePoint c ++ rest)
  = c :: decode_from decoder_init rest.
Proof.
  intros Hc. apply scalar_scalar_ok in Hc. unfold scalar_ok in Hc.
  apply andb_true_iff in Hc as [Hc _]. apply andb_true_iff in Hc as [Hc _].
  unfold decodes_to in Hc. apply andb_true_iff in Hc as [H1 H2].
  apply eqb_eq in H1. apply decoder_is_init_eq in H2.
  now rewrite decode_from_app, H1, H2.
Qed.

Lemma decode_scalars cps rest :
  Forall (fun c => scalar c = true) cps ->
  decode_from decoder_init (flat_map utf8_of_codePoint cps ++ rest)
  = cps ++ decode_from decoder_init rest.
Proof.
  induction 1 as [|c cps Hc Hcps IH]; [reflexivity|].
  cbn [flat_map]. rewrite <- app_assoc, decode_scalar by assumption.
  now rewrite IH.
Qed.

(** A proper start of the bytes of a scalar value, at the end of the
    input, decodes to one U+FFFD. *)
Lemma decode_cut_scalar c j :
  scalar c = true -> (0 < j < List.length (utf8_of_codePoint c))%nat ->
  decode_from decoder_init (firstn j (utf8_of_codePoint c)) = [0xFFFD].
Proof.
  intros Hc Hj. apply scalar_scalar_ok in Hc. unfold scalar_ok in Hc.
  apply andb_true_iff in Hc as [Hc _]. apply andb_true_iff in Hc as [_ Hc].
  rewrite forallb_forall in Hc.
  pose proof (utf8_of_codePoint_length c) as Hlen.
  assert (Hin : In j [1; 2; 3]%nat) by (cbn; lia).
  apply Hc in Hin. apply orb_true_iff in Hin as [Hin|Hin].
  { apply Nat.leb_le in Hin. lia. }
  unfold decodes_pending in Hin. apply andb_true_iff in Hin as [H1 H2].
  rewrite <- (app_nil_r (firstn j _)), decode_from_app.
  destruct (fst (decode_run decoder_init (firstn j (utf8_of_codePoint c))));
    [|discriminate].
  cbn [app decode_from]. apply negb_true_iff in H2. now rewrite H2.
Qed.

(** The code units of a scalar value give it back. *)
Lemma codePoints_scalar c rest :
  scalar c = true ->
  codePoints (utf16_of_codePoint c ++ rest) = c :: codePoints rest.
Proof.
  intros Hc. apply scalar_scalar_ok in Hc. unfold scalar_ok in Hc.
  apply andb_true_iff in Hc as [_ Hc]. unfold utf16_ok in Hc.
  destruct (utf16_of_codePoint c) as [|u [|l [|? ?]]]; try discriminate.
  - rewrite !andb_true_iff, !negb_true_iff in Hc.
    destruct Hc as [[Hu H1] H2]. apply N.eqb_eq in Hu. subst u.
    cbn [app codePoints]. now rewrite H1, H2.
  - rewrite !andb_true_iff in Hc. destruct Hc as [[H1 H2] H3].
    apply N.eqb_eq in H3. cbn [app codePoints]. now rewrite H1, H2, H3.
Qed.

Lemma codePoints_scalars cps :
  Forall (fun c => scalar c = true) cps ->
  codePoints (flat_map utf16_of_codePoint cps) = cps.
Proof.
  induction 1 as [|c cps Hc Hcps IH]; [reflexivity|].
  cbn [flat_map]. now rewrite codePoints_scalar, IH.
Qed.

(** *** Strings without unpaired surrogate *)

Lemma well_formed_step (P : jsstring -> Prop) :
  P [] ->
  (forall u rest,
      is_high_surrogate u = false -> is_low_surrogate u = false ->
      u < 0x10000 -> well_formed rest = true -> P rest -> P (u :: rest)) ->
  (forall u v rest,
      is_high_surrogate u = true -> is_low_surrogate v = true ->
      well_formed rest = true -> P rest -> P (u :: v :: rest)) ->
  forall s, well_formed s = true -> P s.
Proof.
  intros Hnil Hone Hpair s.
  assert (H : forall n s, (List.length s <= n)%nat -> well_formed s = true -> P s).
  { clear s. induction n as [|n IH]; intros s Hlen Hs.
    - destruct s; [exact Hnil|cbn in Hlen; lia].
    - destruct s as [|u rest]; [exact Hnil|]. cbn [well_formed] in Hs.
      destruct (is_high_surrogate u) eqn:Hu.
      + destruct rest as [|v rest']; [discriminate|].
        apply andb_true_iff in Hs as [Hv Hs]. cbn [List.length] in Hlen.
        apply Hpair; auto. apply IH; [lia|assumption].
      + rewrite !andb_true_iff, negb_true_iff in Hs.
        destruct Hs as [[Hl Hlt] Hs]. apply N.ltb_lt in Hlt.
        cbn [List.length] in Hlen.
        apply Hone; auto. apply IH; [lia|assumption]. }
  apply (H (List.length s)). lia.
Qed.

Lemma pair_codePoint u v :
  is_high_surrogate u = true -> is_low_surrogate v = true ->
  let c := 0x10000 + (u - 0xD800) * 0x400 + (v - 0xDC00) in
  scalar c = true /\ utf16_of_codePoint c = [u; v].
Proof.
  intros Hu Hv c.
  assert (Hur : 0xD800 <= u <= 0xDBFF) by (revert Hu; surrogate_cases).
  assert (Hvr : 0xDC00 <= v <= 0xDFFF) by (revert Hv; surrogate_cases).
  assert (Hc : 0x10000 <= c < 0x110000) by (unfold c; lia).
  split; [surrogate_cases|].
  unfold utf16_of_codePoint.
  destruct (N.ltb_spec c 0x10000); [lia|].
  replace (c - 0x10000) with ((u - 0xD800) * 0x400 + (v - 0xDC00)) by (unfold c; lia).
  change 0x3FF with (N.ones 10).
  rewrite N.shiftr_div_pow2, N.land_ones. change (2 ^ 10) with 0x400.
  rewrite <- (N.div_unique _ 0x400 (u - 0xD800) (v - 0xDC00)) by lia.
  rewrite <- (N.mod_unique _ 0x400 (u - 0xD800) (v - 0xDC00)) by lia.
  f_equal; [lia|f_equal; lia].
Qed.

Lemma well_formed_codePoints s :
  well_formed s = true ->
  Forall (fun c => scalar c = true) (codePoints s)
  /\ flat_map utf16_of_codePoint (codePoints s) = s.
Proof.
  revert s. apply well_formed_step.
  - split; [constructor|reflexivity].
  - intros u rest Hh Hl Hu _ [IH1 IH2]. cbn [codePoints]. rewrite Hh, Hl.
    split.
    + constructor; [|assumption]. revert Hh Hl. surrogate_cases.
    + cbn [flat_map]. rewrite IH2. unfold utf16_of_codePoint.
      destruct (N.ltb_spec u 0x10000); [reflexivity|lia].
  - intros u v rest Hu Hv _ [IH1 IH2]. cbn [codePoints]. rewrite Hu, Hv.
    destruct (pair_codePoint u v Hu Hv) as [Hs He]. split.
    + constructor; assumption.
    + cbn [flat_map]. now rewrite He, IH2.
Qed.

Lemma codePoints_app p q :
  well_formed p = true -> codePoints (p ++ q) = codePoints p ++ codePoints q.
Proof.
  revert p. apply (well_formed_step (fun p => codePoints (p ++ q) = codePoints p ++ codePoints q)).
  - reflexivity.
  - intros u rest Hh Hl _ _ IH. cbn [app codePoints]. now rewrite Hh, Hl, IH.
  - intros u v rest Hu Hv _ IH. cbn [app codePoints]. now rewrite Hu, Hv, IH.
Qed.

Lemma utf8_encode_app p q :
  well_formed p = true -> utf8_encode (p ++ q) = utf8_encode p ++ utf8_encode q.
Proof.
  intros Hp. unfold utf8_encode. now rewrite codePoints_app, flat_map_app.
Qed.

Lemma utf8_of_codePoint_nonempty c : utf8_of_codePoint c <> [].
Proof.
  pose proof (utf8_of_codePoint_length c) as H.
  destruct (utf8_of_codePoint c); [cbn in H; lia|discriminate].
Qed.

Lemma utf8_encode_nil s : utf8_encode s = [] -> s = [].
Proof.
  unfold utf8_encode. destruct s as [|u rest]; [reflexivity|].
  intros H. exfalso. cbn [codePoints] in H.
  destruct (is_high_surrogate u).
  - destruct rest as [|v rest']; [discriminate|].
    destruct (is_low_surrogate v); cbn [flat_map] in H;
      apply app_eq_nil in H as [H _]; now apply utf8_of_codePoint_nonempty in H.
  - destruct (is_low_surrogate u); cbn [flat_map] in H;
      apply app_eq_nil in H as [H _]; now apply utf8_of_codePoint_nonempty in H.
Qed.

(** Encoding a string without unpaired surrogate and decoding the bytes
    gives the string back. *)
Lemma utf8_round_trip s :
  well_formed s = true -> utf8_decode (utf8_encode s) = s.
Proof.
  intros Hs. destruct (well_formed_codePoints s Hs) as [H1 H2].
  unfold utf8_decode, utf8_encode.
  rewrite <- (app_nil_r (flat_map utf8_of_codePoint _)).
  rewrite decode_scalars by assumption.
  cbn [decode_from]. now rewrite app_nil_r.
Qed.

Lemma code_units_codePoints s :
  code_units s -> Forall (fun c => scalar c = true) (codePoints s).
Proof.
  assert (H : forall n s, (List.length s <= n)%nat -> code_units s ->
                          Forall (fun c => scalar c = true) (codePoints s)).
  { clear s. induction n as [|n IH]; intros s Hlen Hs.
    - destruct s; [constructor|cbn in Hlen; lia].
    - destruct s as [|u rest]; [constructor|].
      apply Forall_cons_iff in Hs as [Hu Hs]. cbn [List.length] in Hlen.
      cbn [codePoints]. destruct (is_high_surrogate u) eqn:Hh.
      + destruct rest as [|v rest']; [now repeat constructor|].
        destruct (is_low_surrogate v) eqn:Hl.
        * constructor; [now apply pair_codePoint|].
          apply Forall_cons_iff in Hs as [_ Hs]. cbn [List.length] in Hlen.
          apply IH; [lia|assumption].
        * constructor; [reflexivity|]. apply IH; [lia|assumption].
      + destruct (is_low_surrogate u) eqn:Hl.
        * constructor; [reflexivity|]. apply IH; [lia|assumption].
        * constructor; [|apply IH; [lia|assumption]].
          revert Hh Hl. surrogate_cases. }
  intros Hs. apply (H (List.length s)); [lia|assumption].
Qed.

Lemma firstn_flat_map {A B : Type} (f : A -> list B) (l : list A) (n : nat) :
  (n < List.length (flat_map f l))%nat ->
  exists l1 a l2 j,
    l = l1 ++ a :: l2
    /\ (j < List.length (f a))%nat
    /\ n = (List.length (flat_map f l1) + j)%nat
    /\ firstn n (flat_map f l) = flat_map f l1 ++ firstn j (f a).
Proof.
  revert n. induction l as [|a l IH]; intros n Hn; [cbn in Hn; lia|].
  cbn [flat_map] in *. rewrite length_app in Hn.
  destruct (Nat.lt_ge_cases n (List.length (f a))) as [Hlt|Hge].
  - exists [], a, l, n. cbn [flat_map app List.length].
    repeat split; [assumption|].
    rewrite firstn_app. replace (n - List.length (f a))%nat with 0%nat by lia.
    now rewrite firstn_O, app_nil_r.
  - destruct (IH (n - List.length (f a))%nat) as (l1 & b & l2 & j & -> & Hj & Hn' & E);
      [lia|].
    exists (a :: l1), b, l2, j. cbn [flat_map]. rewrite length_app.
    repeat split; [assumption|lia|].
    rewrite firstn_app, E, firstn_all2 by lia. now rewrite app_assoc.
Qed.

(** What the decoder makes of the first [n] bytes of a text: the
    characters that lie within them, and U+FFFD if the cut falls inside
    the next one. *)
Lemma decode_cut cps n :
  Forall (fun c => scalar c = true) cps ->
  (n < List.length (flat_map utf8_of_codePoint cps))%nat ->
  exists cps1 c cps2 j,
    cps = cps1 ++ c :: cps2
    /\ (j < List.length (utf8_of_codePoint c))%nat
    /\ n = (List.length (flat_map utf8_of_codePoint cps1) + j)%nat
    /\ decode_from decoder_init (firstn n (flat_map utf8_of_codePoint cps))
       = cps1 ++ (if (j =? 0)%nat then [] else [0xFFFD]).
Proof.
  intros Hs Hn.
  destruct (firstn_flat_map utf8_of_codePoint cps n Hn)
    as (cps1 & c & cps2 & j & -> & Hj & Hn' & E).
  exists cps1, c, cps2, j. repeat split; try assumption.
  rewrite E. apply Forall_app in Hs as [Hs1 Hs2].
  apply Forall_cons_iff in Hs2 as [Hc _].
  rewrite decode_scalars by assumption. f_equal.
  destruct (Nat.eqb_spec j 0) as [->|Hj0]; [reflexivity|].
  apply decode_cut_scalar; [assumption|lia].
Qed.

Lemma utf8_encode_scalars cps :
  Forall (fun c => scalar c = true) cps ->
  utf8_encode (flat_map utf16_of_codePoint cps) = flat_map utf8_of_codePoint cps.
Proof.
  intros H. unfold utf8_encode. now rewrite codePoints_scalars.
Qed.

Lemma well_formed_scalars cps :
  Forall (fun c => scalar c = true) cps ->
  well_formed (flat_map utf16_of_codePoint cps) = true.
Proof.
  induction 1 as [|c cps Hc Hcps IH]; [reflexivity|].
  cbn [flat_map]. apply scalar_scalar_ok in Hc. unfold scalar_ok in Hc.
  apply andb_true_iff in Hc as [_ Hc]. unfold utf16_ok in Hc.
  destruct (utf16_of_codePoint c) as [|u [|l [|? ?]]] eqn:E; try discriminate.
  - rewrite !andb_true_iff, !negb_true_iff in Hc.
    destruct Hc as [[Hu H1] H2]. cbn [app well_formed]. rewrite H1, H2, IH.
    unfold utf16_of_codePoint in E.
    destruct (N.ltb_spec c 0x10000); [|discriminate].
    injection E as <-. destruct (N.ltb_spec c 0x10000); [reflexivity|lia].
  - rewrite !andb_true_iff in Hc. destruct Hc as [[H1 H2] _].
    cbn [app well_formed]. now rewrite H1, H2, IH.
Qed.

(** X1.  A budget that ends exactly where a prefix without unpaired
    surrogate ends keeps that prefix and nothing else: the cut is clean
    on a character boundary, whatever follows. *)
Theorem clampBytes_at_boundary p q :
  well_formed p = true -> clampBytes (p ++ q) (byteLength p) = p.
Proof.
  intros Hp. unfold clampBytes, byteLength.
  rewrite utf8_encode_app by assumption. rewrite length_app.
  destruct (N.leb_spec (N.of_nat (List.length (utf8_encode p) + List.length (utf8_encode q)))
                       (N.of_nat (List.length (utf8_encode p)))) as [Hle|Hgt].
  - assert (Hq : utf8_encode q = []).
    { destruct (utf8_encode q); [reflexivity|cbn [List.length] in Hle; lia]. }
    apply utf8_encode_nil in Hq. subst q. apply app_nil_r.
  - rewrite Nat2N.id, firstn_app, Nat.sub_diag, firstn_all, firstn_O, app_nil_r.
    now apply utf8_round_trip.
Qed.

Lemma clampBytes_at_boundary_witness :
  well_formed [0x61; 0xD834; 0xDD1E] = true
  /\ clampBytes ([0x61; 0xD834; 0xDD1E] ++ [0xE9; 0xDC00])
                (byteLength [0x61; 0xD834; 0xDD1E])
     = [0x61; 0xD834; 0xDD1E].
Proof.
  split; [reflexivity|].
  apply (clampBytes_at_boundary [0x61; 0xD834; 0xDD1E] [0xE9; 0xDC00]).
  reflexivity.
Defined.

(** X2.  The result of [clampBytes] can take more bytes than the budget,
    but never more than two over it: a cut inside a character replaces
    at least one byte by the three bytes of U+FFFD. *)
Theorem clampBytes_overshoot s max :
  code_units s -> byteLength (clampBytes s max) <= max + 2.
Proof.
  intros Hs. unfold clampBytes.
  destruct (N.leb_spec (N.of_nat (List.length (utf8_encode s))) max) as [Hle|Hgt].
  { unfold byteLength. lia. }
  apply code_units_codePoints in Hs.
  unfold utf8_encode in Hgt |- *.
  destruct (decode_cut (codePoints s) (N.to_nat max) Hs)
    as (cps1 & c & cps2 & j & E & Hj & Hn & D); [lia|].
  unfold utf8_decode. rewrite D. rewrite E in Hs.
  apply Forall_app in Hs as [Hs1 _].
  unfold byteLength. rewrite utf8_encode_scalars.
  - rewrite flat_map_app, length_app.
    destruct (Nat.eqb_spec j 0) as [Hj0|Hj0]; cbn [flat_map List.length app].
    + lia.
    + change (List.length (utf8_of_codePoint 0xFFFD ++ [])) with 3%nat. lia.
  - apply Forall_app. split; [assumption|].
    destruct (j =? 0)%nat; now repeat constructor.
Qed.

Lemma clampBytes_overshoot_witness :
  code_units [0x61; 0xE9; 0x62]
  /\ byteLength (clampBytes [0x61; 0xE9; 0x62] 2) <= 2 + 2.
Proof.
  assert (H : code_units [0x61; 0xE9; 0x62]) by (repeat constructor).
  split; [exact H|].
  exact (clampBytes_overshoot [0x61; 0xE9; 0x62] 2 H).
Defined.

(** X3.  On a text without unpaired surrogate, [clampBytes] returns a
    prefix of the text made of whole characters that fit the budget,
    alone when the text fits or the cut falls between two characters,
    and followed by one U+FFFD when the cut falls inside the next
    character (which then would not have fitted). *)
Theorem clampBytes_prefix s max :
  well_formed s = true ->
  exists p rest,
    s = p ++ rest
    /\ well_formed p = true
    /\ byteLength p <= max
    /\ ((clampBytes s max = p /\ (rest = [] \/ byteLength p = max))
        \/ (clampBytes s max = p ++ [0xFFFD]
            /\ rest <> [] /\ byteLength p < max < byteLength p + 4)).
Proof.
  intros Hs. unfold clampBytes.
  destruct (N.leb_spec (N.of_nat (List.length (utf8_encode s))) max) as [Hle|Hgt].
  { exists s, []. rewrite app_nil_r. repeat split; try assumption.
    left. split; [reflexivity|now left]. }
  destruct (well_formed_codePoints s Hs) as [Hcps Hback].
  unfold utf8_encode in Hgt |- *.
  destruct (decode_cut (codePoints s) (N.to_nat max) Hcps)
    as (cps1 & c & cps2 & j & E & Hj & Hn & D); [lia|].
  unfold utf8_decode. rewrite D.
  rewrite E in Hcps, Hback. apply Forall_app in Hcps as [Hs1 Hs2].
  exists (flat_map utf16_of_codePoint cps1),
         (flat_map utf16_of_codePoint (c :: cps2)).
  assert (Hlen : byteLength (flat_map utf16_of_codePoint cps1)
                 = N.of_nat (List.length (flat_map utf8_of_codePoint cps1))).
  { unfold byteLength. now rewrite utf8_encode_scalars. }
  pose proof (utf8_of_codePoint_length c) as Hc.
  rewrite Hlen, flat_map_app.
  split; [now rewrite <- flat_map_app|].
  split; [now apply well_formed_scalars|].
  split; [lia|].
  destruct (Nat.eqb_spec j 0) as [->|Hj0].
  - left. cbn [flat_map]. rewrite app_nil_r. split; [reflexivity|right; lia].
  - right. split; [reflexivity|]. split; [|lia].
    cbn [flat_map]. intros H. apply app_eq_nil in H as [H _].
    apply Forall_cons_iff in Hs2 as [Hsc _].
    apply scalar_scalar_ok in Hsc. unfold scalar_ok in Hsc.
    apply andb_true_iff in Hsc as [_ Hsc]. unfold utf16_ok in Hsc.
    rewrite H in Hsc. discriminate.
Qed.

Lemma clampBytes_prefix_witness :
  well_formed [0x61; 0xD834; 0xDD1E; 0x62] = true
  /\ exists p rest,
       [0x61; 0xD834; 0xDD1E; 0x62] = p ++ rest
       /\ well_formed p = true
       /\ byteLength p <= 3
       /\ ((clampBytes [0x61; 0xD834; 0xDD1E; 0x62] 3 = p
            /\ (rest = [] \/ byteLength p = 3))
           \/ (clampBytes [0x61; 0xD834; 0xDD1E; 0x62] 3 = p ++ [0xFFFD]
               /\ rest <> [] /\ byteLength p < 3 < byteLength p + 4)).
Proof.
  split; [reflexivity|].
  apply (clampBytes_prefix [0x61; 0xD834; 0xDD1E; 0x62] 3).
  reflexivity.
Defined.

(* ================================================================== *)
(** ** The run as a whole *)
(* ================================================================== *)

Lemma required_message :
  str "Input required and not supplied: " ++ str "openai_api_key"
  = str "Input required and not supplied: openai_api_key".
Proof. vm_compute. reflexivity. Qed.

Lemma run_until_answer_without_key w :
  inputs w (str "openai_api_key") = [] ->
  run_until_answer w []
  = (Throw (str "Input required and not supplied: openai_api_key"), []).
Proof.
  intros Hkey.
  cbv [run_until_answer bind core_getInput lift ret throw].
  rewrite Hkey. cbv [andb is_empty]. cbv beta iota.
  now rewrite required_message.
Qed.

Lemma is_empty_nil (s : jsstring) : is_empty s = true <-> s = [].
Proof. destruct s; split; intros H; try reflexivity; discriminate. Qed.

(** The ways a run can end. *)
Lemma main_cases {ucd : CaseData} w :
  (exists m tr, main w = (Throw m, tr ++ [SetFailed m]))
  \/ main w = (Ok NoSchemaFiles, [SetFailed no_schema_message])
  \/ (exists outputPath cur r tr0,
        run_until_answer w [] = (Ok (Some (outputPath, cur, r)), tr0)
        /\ job_failed tr0 = false
        /\ main w = catch_setFailed (classify w outputPath cur r tr0)).
Proof.
  destruct (is_empty (inputs w (str "openai_api_key"))) eqn:Hkey.
  { left. apply is_empty_nil in Hkey.
    exists (str "Input required and not supplied: openai_api_key"), [].
    unfold main, run, bind. now rewrite (run_until_answer_without_key w Hkey). }
  pose proof (run_until_answer_eq w Hkey) as E.
  destruct (run_until_answer w []) as [[[x|]|m] tr0] eqn:R.
  - right. right. destruct x as [[outputPath cur] r].
    exists outputPath, cur, r, tr0. split; [reflexivity|]. split.
    + now apply (run_until_answer_quiet w _ _ R).
    + now apply main_classify.
  - right. left. unfold main, run, bind. rewrite R. cbv [ret catch_setFailed].
    destruct (collect w _) as [[|f fs]|m]; [now injection E as <-| |discriminate].
    destruct (read_currentERD w _) as [c|m]; [|discriminate].
    cbv zeta in E. destruct (callOpenAI _ _ _ _ _) as [[r|m] tr]; discriminate.
  - left. exists m, tr0. unfold main, run, bind. now rewrite R.
Qed.

(** X4.  For every state of the repository and every behaviour of the
    generator, the job passes exactly when the run ends in the verdict
    NoChange: every exception, the guard on the schema files and the
    verdict MaterialChange all fail it. *)
Theorem job_passes_iff_NoChange {ucd : CaseData} w :
  job_failed (snd (main w)) = false <-> fst (main w) = Ok (Classified NoChange).
Proof.
  destruct (main_cases w) as [(m & tr & ->)|[->|(o & cur & r & tr0 & _ & Hq & ->)]].
  - cbn [fst snd]. rewrite job_failed_app. cbn. rewrite orb_true_r.
    split; discriminate.
  - cbn. split; discriminate.
  - destruct (classify_cases w o cur r tr0)
      as [(tr' & -> & Hf)|[(tr' & -> & Hf)|(m & tr' & ->)]];
      cbn [catch_setFailed fst snd].
    + rewrite Hf, Hq. split; reflexivity.
    + rewrite Hf. split; discriminate.
    + rewrite job_failed_app. cbn. rewrite orb_true_r. split; discriminate.
Qed.

(** X5.  Without the credential the job fails with the message of the
    missing input and nothing else happens, whatever the repository
    holds: the credential is asked for before the schema files are
    collected, so even the guard on the schema files is not reached. *)
Theorem missing_credential_fails_first {ucd : CaseData} w :
  inputs w (str "openai_api_key") = [] ->
  main w
  = (Throw (str "Input required and not supplied: openai_api_key"),
     [SetFailed (str "Input required and not supplied: openai_api_key")]).
Proof.
  intros Hkey. unfold main, run, bind.
  now rewrite (run_until_answer_without_key w Hkey).
Qed.

Lemma missing_credential_fails_first_witness :
  let ucd := unicode_rows in
  let w := with_input empty_world (str "openai_api_key") [] in
  inputs w (str "openai_api_key") = []
  /\ main w
     = (Throw (str "Input required and not supplied: openai_api_key"),
        [SetFailed (str "Input required and not supplied: openai_api_key")]).
Proof.
  intros ucd w.
  assert (H : inputs w (str "openai_api_key") = []) by reflexivity.
  split; [exact H|].
  exact (missing_credential_fails_first w H).
Defined.

Lemma requests_app tr1 tr2 : requests (tr1 ++ tr2) = requests tr1 ++ requests tr2.
Proof. apply flat_map_app. Qed.

Lemma requests_quiet extra :
  forallb (fun e => negb (is_HttpPost e)) extra = true -> requests extra = [].
Proof.
  induction extra as [|e extra IH]; [reflexivity|]. cbn [forallb].
  intros H. apply andb_true_iff in H as [He H].
  unfold requests in *. cbn [flat_map]. rewrite (IH H).
  destruct e; try reflexivity. discriminate.
Qed.

Lemma classify_requests {ucd : CaseData} w outputPath cur r tr :
  requests (snd (classify w outputPath cur r tr)) = requests tr.
Proof.
  destruct (classify_trace w outputPath cur r tr) as (extra & -> & Hq).
  now rewrite requests_app, (requests_quiet extra Hq), app_nil_r.
Qed.

(** X6.  A run sends at most one request.  It sends one exactly when
    the credential is given, the collection yields a schema file and the
    stored diagram, if it exists, can be read; the request then carries
    the trimmed credential, the trimmed model name and the prompt
    composed from the PromptContext.  There is no second attempt,
    whatever the generator answers. *)
Theorem requests_of_a_run {ucd : CaseData} w :
  requests (snd (main w))
  = if is_empty (inputs w (str "openai_api_key")) then []
    else match prompt_context w with
         | Ok args =>
             match schemaFiles args with
             | [] => []
             | _ :: _ => [request_of w args]
             end
         | Throw _ => []
         end.
Proof.
  destruct (is_empty (inputs w (str "openai_api_key"))) eqn:Hkey.
  { apply is_empty_nil in Hkey. unfold main, run, bind.
    now rewrite (run_until_answer_without_key w Hkey). }
  unfold main, run, bind, prompt_context, request_of.
  rewrite (run_until_answer_eq w Hkey).
  destruct (collect w _) as [[|f fs]|m]; [| |reflexivity].
  { destruct (read_currentERD w _); reflexivity. }
  destruct (read_currentERD w _) as [cur|m]; [|reflexivity].
  cbv zeta. cbn [schemaFiles].
  match goal with
  | |- context [callOpenAI ?w ?k ?m ?p ?t] =>
      destruct (callOpenAI_trace w k m p t) as [x Hx]; rewrite Hx
  end.
  destruct x as [r|m]; cbn [app].
  - match goal with
    | |- context [classify ?w ?o ?c ?r ?t] =>
        pose proof (classify_requests w o c r t) as Hc;
        destruct (classify w o c r t) as [[e|m] tr']
    end; cbn [catch_setFailed snd] in *; try rewrite requests_app; rewrite Hc;
      reflexivity.
  - reflexivity.
Qed.

(** X7.  When the generator answers with a status that is not a
    success, the job fails with the message
    [OpenAI API error: <status> <body>], after the one request and with
    no verdict: nothing of the body is taken for a diagram. *)
Theorem generator_error_fails_job {ucd : CaseData} w args res txt :
  is_empty (inputs w (str "openai_api_key")) = false ->
  prompt_context w = Ok args -> schemaFiles args <> [] ->
  fetch w (request_of w args) = Ok res ->
  res_ok res = false -> res_text res = Ok txt ->
  main w
  = (Throw (str "OpenAI API error: " ++ decimal (res_status res) ++ str " " ++ txt),
     [LogInfo (detected_message (currentERD args));
      HttpPost (request_of w args);
      SetFailed (str "OpenAI API error: " ++ decimal (res_status res)
                 ++ str " " ++ txt)]).
Proof.
  intros Hkey Hctx Hne Hfetch Hok Htxt. unfold prompt_context in Hctx.
  unfold request_of in *.
  unfold main, run, bind. rewrite (run_until_answer_eq w Hkey).
  destruct (collect w _) as [files|m]; [|discriminate].
  destruct (read_currentERD w _) as [cur|m]; [|discriminate].
  assert (Ha : args = mkPromptArgs (context_owner w ++ str "/" ++ context_repo w)
                                   files cur) by congruence.
  subst args. clear Hctx. cbn [schemaFiles] in Hne. cbn [currentERD].
  destruct files as [|f fs]; [congruence|]. cbv zeta.
  cbv [callOpenAI bind emit lift throw ret].
  rewrite Hfetch, Hok. cbv [negb]. cbv beta iota. rewrite Htxt.
  reflexivity.
Qed.

Lemma generator_error_fails_job_witness :
  let ucd := unicode_rows in
  let w := other_world None in
  exists args res,
    is_empty (inputs w (str "openai_api_key")) = false
    /\ prompt_context w = Ok args /\ schemaFiles args <> []
    /\ fetch w (request_of w args) = Ok res
    /\ res_ok res = false /\ res_text res = Ok (str "rate limited")
    /\ main w
       = (Throw (str "OpenAI API error: " ++ decimal (res_status res)
                 ++ str " " ++ str "rate limited"),
          [LogInfo (detected_message (currentERD args));
           HttpPost (request_of w args);
           SetFailed (str "OpenAI API error: " ++ decimal (res_status res)
                      ++ str " " ++ str "rate limited")]).
Proof.
  intros ucd w.
  assert (Hc : exists args, prompt_context w = Ok args).
  { eexists. vm_compute. reflexivity. }
  destruct Hc as [args Hc].
  assert (Hne : schemaFiles args <> []).
  { intros E. revert Hc. vm_compute. intros [= <-]. discriminate. }
  pose (res := mkResponse false 429 (Ok (str "rate limited"))
                          (Throw (str "no body"))).
  exists args, res.
  assert (H1 : is_empty (inputs w (str "openai_api_key")) = false) by reflexivity.
  assert (H2 : fetch w (request_of w args) = Ok res) by reflexivity.
  assert (H3 : res_ok res = false) by reflexivity.
  assert (H4 : res_text res = Ok (str "rate limited")) by reflexivity.
  repeat (split; [assumption|]).
  exact (generator_error_fails_job w args res (str "rate limited") H1 Hc Hne H2 H3 H4).
Defined.

(** X8.  When the path of the stored diagram exists but cannot be read
    (a directory, a file without read permission), the job fails with the
    error of the read: the run does not go on as if no diagram were
    stored, and it sends no request. *)
Theorem unreadable_diagram_fails_before_request {ucd : CaseData} w f fs st m :
  is_empty (inputs w (str "openai_api_key")) = false ->
  collect w (trim (inputs w (str "schema_globs"))) = Ok (f :: fs) ->
  fs_stat w (trim (inputs w (str "output_path"))) = Ok st ->
  fs_readFile w (trim (inputs w (str "output_path"))) = Throw m ->
  main w = (Throw m, [SetFailed m]).
Proof.
  intros Hkey Hfiles Hstat Hread.
  unfold main, run, bind. rewrite (run_until_answer_eq w Hkey), Hfiles.
  unfold read_currentERD, fileExists, readText. now rewrite Hstat, Hread.
Qed.

Lemma unreadable_diagram_fails_before_request_witness :
  let ucd := unicode_rows in
  let w := directory_world in
  exists f fs st,
    is_empty (inputs w (str "openai_api_key")) = false
    /\ collect w (trim (inputs w (str "schema_globs"))) = Ok (f :: fs)
    /\ fs_stat w (trim (inputs w (str "output_path"))) = Ok st
    /\ fs_readFile w (trim (inputs w (str "output_path"))) = Throw (str "EISDIR")
    /\ main w = (Throw (str "EISDIR"), [SetFailed (str "EISDIR")]).
Proof.
  intros ucd w.
  assert (Hc : exists f fs, collect w (trim (inputs w (str "schema_globs"))) = Ok (f :: fs)).
  { eexists _, _. vm_compute. reflexivity. }
  destruct Hc as (f & fs & Hc).
  exists f, fs, (mkStats false 4096).
  assert (H1 : is_empty (inputs w (str "openai_api_key")) = false) by reflexivity.
  assert (H2 : fs_stat w (trim (inputs w (str "output_path"))) = Ok (mkStats false 4096))
    by (vm_compute; reflexivity).
  assert (H3 : fs_readFile w (trim (inputs w (str "output_path"))) = Throw (str "EISDIR"))
    by (vm_compute; reflexivity).
  repeat (split; [assumption|]).
  exact (unreadable_diagram_fails_before_request w f fs _ _ H1 Hc H2 H3).
Defined.

(** X9.  When the globbing throws, the job fails with its error, and
    neither the guard on the schema files nor the generator is reached. *)
Theorem glob_error_fails_job {ucd : CaseData} w m :
  is_empty (inputs w (str "openai_api_key")) = false ->
  globby w (parse_globs (trim (inputs w (str "schema_globs")))) = Throw m ->
  main w = (Throw m, [SetFailed m]).
Proof.
  intros Hkey Hglob.
  unfold main, run, bind. rewrite (run_until_answer_eq w Hkey).
  unfold collect. now rewrite Hglob.
Qed.

Lemma glob_error_fails_job_witness :
  let ucd := unicode_rows in
  let w := broken_glob_world in
  is_empty (inputs w (str "openai_api_key")) = false
  /\ globby w (parse_globs (trim (inputs w (str "schema_globs")))) = Throw (str "EACCES")
  /\ main w = (Throw (str "EACCES"), [SetFailed (str "EACCES")]).
Proof.
  intros ucd w.
  assert (H1 : is_empty (inputs w (str "openai_api_key")) = false) by reflexivity.
  assert (H2 : globby w (parse_globs (trim (inputs w (str "schema_globs"))))
               = Throw (str "EACCES")) by reflexivity.
  repeat (split; [assumption|]).
  exact (glob_error_fails_job w _ H1 H2).
Defined.

Lemma collect_loop_with_input w name v paths out :
  collect_loop (with_input w name v) paths out = collect_loop w paths out.
Proof.
  revert out. induction paths as [|p paths IH]; intros out; [reflexivity|].
  cbn [collect_loop]. unfold readText. cbn [fs_stat fs_readFile with_input].
  destruct (fs_stat w p) as [st|e]; [|apply IH].
  destruct (isFile st && (st_size st <? 1000000)); [|apply IH].
  destruct (fs_readFile w p); apply IH.
Qed.

Lemma other_inputs :
  eqb (str "openai_api_key") (str "include_models") = false
  /\ eqb (str "model") (str "include_models") = false
  /\ eqb (str "output_path") (str "include_models") = false
  /\ eqb (str "schema_globs") (str "include_models") = false.
Proof. vm_compute. repeat split. Qed.

(** X10.  The input [include_models] has no effect: a run reads it and
    nothing depends on what it holds. *)
Theorem include_models_is_ignored {ucd : CaseData} w v :
  main (with_input w (str "include_models") v) = main w.
Proof.
  destruct other_inputs as (E1 & E2 & E3 & E4).
  unfold main, run. f_equal.
  cbv [run_until_answer bind core_getInput lift ret throw core_setFailed
       core_info emit collect read_currentERD fileExists readText callOpenAI].
  cbn [inputs with_input context_owner context_repo globby fs_stat fs_readFile fetch].
  rewrite E1, E2, E3, E4. cbv [andb]. cbv beta iota.
  destruct (is_empty (inputs w (str "openai_api_key"))); [reflexivity|].
  destruct (globby w _) as [paths|m]; [|reflexivity].
  now rewrite collect_loop_with_input.
Qed.

(* ================================================================== *)
(** ** The cleaning of the answer *)
(* ================================================================== *)

Lemma equals_i_length p t : equals_i p t = true -> List.length t = List.length p.
Proof.
  revert t. induction p as [|x p IH]; intros [|y t] H; try discriminate;
    [reflexivity|].
  cbn [equals_i] in H. apply andb_true_iff in H as [_ H].
  cbn [List.length]. now rewrite (IH t H).
Qed.

Lemma startsWith_i_app p t r : equals_i p t = true -> startsWith_i p (t ++ r) = true.
Proof.
  revert t. induction p as [|x p IH]; intros [|y t] H; try discriminate;
    [reflexivity|].
  cbn [equals_i] in H. apply andb_true_iff in H as [H1 H2].
  cbn [app startsWith_i]. now rewrite H1, IH.
Qed.

Lemma endsWith_app (x p : jsstring) : endsWith p (x ++ p) = true.
Proof. unfold endsWith. rewrite rev_app_distr. apply startsWith_app. Qed.

Lemma fence_units : str "```" = [0x60; 0x60; 0x60].
Proof. reflexivity. Qed.

Lemma mermaid_length : List.length (str "mermaid") = 7%nat.
Proof. reflexivity. Qed.

Lemma skipn_app_length {A} (x y : list A) : skipn (List.length x) (x ++ y) = y.
Proof. induction x; [reflexivity|assumption]. Qed.

Lemma firstn_app_length {A} (x y : list A) :
  firstn (List.length (x ++ y) - List.length y) (x ++ y) = x.
Proof.
  rewrite length_app, Nat.add_sub, firstn_app, Nat.sub_diag, firstn_all.
  cbn [firstn]. apply app_nil_r.
Qed.

Lemma startsWith_i_fence p d :
  Forall (fun x => canonicalize x <> 0x60) p ->
  startsWith_i p (d ++ [0x60; 0x60; 0x60]) = startsWith_i p d.
Proof.
  intros Hp. revert d. induction Hp as [|x p Hx Hp IH]; intros d.
  - now destruct d.
  - destruct d as [|y d].
    + cbn [app startsWith_i]. change (canonicalize 0x60) with 0x60.
      destruct (N.eqb_spec (canonicalize x) 0x60); [contradiction|reflexivity].
    + cbn [app startsWith_i]. now rewrite IH.
Qed.

Lemma startsWith_i_length p d :
  startsWith_i p d = true -> (List.length p <= List.length d)%nat.
Proof.
  revert d. induction p as [|x p IH]; intros d H; [cbn; lia|].
  destruct d as [|y d]; [discriminate|].
  cbn [startsWith_i] in H. apply andb_true_iff in H as [_ H].
  apply IH in H. cbn [List.length]. lia.
Qed.

Lemma mermaid_units : Forall (fun x => canonicalize x <> 0x60) (str "mermaid").
Proof.
  vm_compute. repeat (apply Forall_cons; [discriminate|]). apply Forall_nil.
Qed.

(** The two replacements on a fenced text leave what the fence holds,
    without the language tag if it begins with one. *)
Lemma strip_fences body :
  strip_closing_fence (strip_opening_fence (str "```" ++ body ++ str "```"))
  = if startsWith_i (str "mermaid") body then skipn 7 body else body.
Proof.
  assert (S3 : skipn 3 (str "```" ++ body ++ str "```") = body ++ str "```")
    by apply (skipn_app_length (str "```")).
  assert (C : forall x, strip_closing_fence (x ++ str "```") = x).
  { intros x. unfold strip_closing_fence. rewrite endsWith_app.
    change 3%nat with (List.length (str "```")). apply firstn_app_length. }
  unfold strip_opening_fence. rewrite startsWith_app, S3.
  replace (startsWith_i (str "mermaid") (body ++ str "```"))
    with (startsWith_i (str "mermaid") body)
    by (symmetry; rewrite fence_units; apply startsWith_i_fence, mermaid_units).
  destruct (startsWith_i (str "mermaid") body) eqn:E; [|apply C].
  apply startsWith_i_length in E. rewrite mermaid_length in E.
  rewrite skipn_app. replace (7 - List.length body)%nat with 0%nat by lia.
  rewrite skipn_O. apply C.
Qed.

(** X11.  An answer whose content, white space at its ends apart, is
    wrapped in a code fence is cleaned to what the fence holds: the
    opening fence goes with its language tag [mermaid], in any letter
    case, when the text begins with one, the closing fence goes, and
    the white space left at the ends is trimmed. *)
Theorem fenced_answer_is_unwrapped w apiKey model prompt res data body tr :
  fetch w (openai_request apiKey model prompt) = Ok res ->
  res_ok res = true -> res_json res = Ok data ->
  first_content data = str "```" ++ body ++ str "```" ->
  callOpenAI w apiKey model prompt tr
  = (Ok (trim (if startsWith_i (str "mermaid") body then skipn 7 body else body)),
     tr ++ [HttpPost (openai_request apiKey model prompt)]).
Proof.
  intros Hfetch Hok Hjson Hcontent.
  cbv [callOpenAI bind emit lift throw ret].
  rewrite Hfetch, Hok. cbv [negb]. cbv beta iota. rewrite Hjson.
  now rewrite Hcontent, strip_fences.
Qed.

Lemma fenced_answer_is_unwrapped_witness :
  let content := str "  ```Mermaid
erDiagram
  USER { id int }
```
" in
  let w := sample_world None (Some content) in
  let request := openai_request (str "sk-sample") (str "gpt-4o-mini") (str "prompt") in
  exists res data body,
    fetch w request = Ok res
    /\ res_ok res = true /\ res_json res = Ok data
    /\ first_content data = str "```" ++ body ++ str "```"
    /\ callOpenAI w (str "sk-sample") (str "gpt-4o-mini") (str "prompt") []
       = (Ok sample_diagram, [HttpPost request]).
Proof.
  intros content w request.
  pose (data := mkChatResponse [mkChatChoice (Some (mkChatMessage (Some content)))]).
  pose (res := mkResponse true 200 (Ok []) (Ok data)).
  pose (body := str "Mermaid
erDiagram
  USER { id int }
").
  exists res, data, body.
  assert (H1 : fetch w request = Ok res) by reflexivity.
  assert (H2 : res_ok res = true) by reflexivity.
  assert (H3 : res_json res = Ok data) by reflexivity.
  assert (H4 : first_content data = str "```" ++ body ++ str "```")
    by (vm_compute; reflexivity).
  repeat (split; [assumption|]).
  rewrite (fenced_answer_is_unwrapped w _ _ _ res data body [] H1 H2 H3 H4).
  vm_compute. reflexivity.
Defined.

(* ================================================================== *)
(** ** The collection in the order of the globbing *)
(* ================================================================== *)

Lemma collected_readable w p :
  map path (option_list (collected w p))
  = if readable_small_file w p then [p] else [].
Proof.
  unfold collected, readable_small_file, readText.
  destruct (fs_stat w p) as [st|m]; [|reflexivity].
  destruct (fs_readFile w p) as [text|m];
    destruct (isFile st && (st_size st <? 1000000)); reflexivity.
Qed.

(** X12.  The collection holds one entry for every matched path that
    names a readable regular file under the size limit, in the order in
    which the globbing reported the paths, a path reported twice being
    kept twice. *)
Theorem collect_keeps_glob_order w globsCSV paths :
  globby w (parse_globs globsCSV) = Ok paths ->
  exists out,
    collect w globsCSV = Ok out
    /\ map path out = filter (readable_small_file w) paths.
Proof.
  intros Hglob. unfold collect. rewrite Hglob. eexists. split; [reflexivity|].
  rewrite collect_loop_spec. cbn [app]. clear Hglob.
  induction paths as [|p paths IH]; [reflexivity|].
  cbn [flat_map filter]. rewrite map_app, collected_readable, IH.
  now destruct (readable_small_file w p).
Qed.

Lemma collect_keeps_glob_order_witness :
  let w := sample_world None None in
  let csv := str "db/schema.rb, db/structure.sql" in
  let paths := [str "db/structure.sql"; str "db/gone.rb"; str "db/schema.rb"] in
  globby w (parse_globs csv) = Ok paths
  /\ exists out,
       collect w csv = Ok out
       /\ map path out = filter (readable_small_file w) paths.
Proof.
  intros w csv paths.
  assert (H1 : globby w (parse_globs csv) = Ok paths) by reflexivity.
  split; [exact H1|].
  exact (collect_keeps_glob_order w csv paths H1).
Defined.

(* ================================================================== *)
(** ** The globs *)
(* ================================================================== *)

Lemma trim_nil_iff l : trim l = [] <-> all_whitespace l.
Proof.
  split.
  - intros H. destruct (trim_split l) as (w1 & w2 & H1 & H2 & _ & E).
    rewrite H in E. cbn [app] in E. rewrite E. now apply all_whitespace_app.
  - intros H. rewrite <- (app_nil_r l). apply (trim_unique l [] []).
    + assumption.
    + constructor.
    + split; exact I.
Qed.

Lemma trim_head u l : is_whitespace u = false -> trim (u :: l) <> [].
Proof.
  intros Hu H. apply trim_nil_iff in H. apply Forall_cons_iff in H as [H _].
  congruence.
Qed.

Lemma parse_globs_comma s : parse_globs (0x2C :: s) = parse_globs s.
Proof. unfold parse_globs. now rewrite split_sep. Qed.

Lemma parse_globs_whitespace u s :
  is_whitespace u = true -> parse_globs (u :: s) = parse_globs s.
Proof.
  intros Hu. unfold parse_globs.
  destruct (N.eqb_spec u 0x2C) as [->|Hne]; [discriminate|].
  destruct (split_other 0x2C u s Hne) as (l & ls & -> & ->).
  cbn [map]. now rewrite trim_leading.
Qed.

Lemma parse_globs_other u s :
  is_whitespace u = false -> u <> 0x2C -> parse_globs (u :: s) <> [].
Proof.
  intros Hu Hne. unfold parse_globs.
  destruct (split_other 0x2C u s Hne) as (l & ls & _ & ->).
  cbn [map filter]. pose proof (trim_head u l Hu) as Ht.
  destruct (trim (u :: l)); [congruence|discriminate].
Qed.

(** X13.  Every glob handed to the globbing is a non-empty text without
    a comma and without white space at its ends; and no glob at all is
    handed over exactly when the input holds nothing but commas and
    white space. *)
Theorem parse_globs_spec globsCSV :
  Forall (fun g => g <> [] /\ trim g = g /\ ~ In 0x2C g) (parse_globs globsCSV)
  /\ (parse_globs globsCSV = []
      <-> Forall (fun u => is_whitespace u = true \/ u = 0x2C) globsCSV).
Proof.
  split.
  - unfold parse_globs. apply Forall_forall. intros g Hg.
    apply filter_In in Hg as [Hg Hne]. apply in_map_iff in Hg as (l & <- & Hl).
    split; [|split].
    + intros E. rewrite E in Hne. discriminate.
    + apply trim_idempotent.
    + pose proof (split_lines_free 0x2C globsCSV) as Hfree.
      rewrite Forall_forall in Hfree. specialize (Hfree l Hl).
      apply (trim_Forall (fun u => u <> 0x2C)) in Hfree.
      rewrite Forall_forall in Hfree. intros Hin. now apply (Hfree 0x2C).
  - induction globsCSV as [|u s IH].
    + split; [constructor|reflexivity].
    + destruct (N.eqb_spec u 0x2C) as [->|Hne].
      { rewrite parse_globs_comma, IH. split.
        - intros H. constructor; [now right|assumption].
        - intros H. now apply Forall_cons_iff in H as [_ H]. }
      destruct (is_whitespace u) eqn:Hu.
      { rewrite (parse_globs_whitespace u s Hu), IH. split.
        - intros H. constructor; [now left|assumption].
        - intros H. now apply Forall_cons_iff in H as [_ H]. }
      split.
      * intros H. now apply parse_globs_other in H.
      * intros H. apply Forall_cons_iff in H as [[H|H] _]; congruence.
Qed.

(* ================================================================== *)
(** ** The lower-casing *)
(* ================================================================== *)


Lemma mapping_nonempty {ucd : CaseData} c : mapping c <> [].
Proof. unfold mapping. destruct (Lowercase_Mapping c). discriminate. Qed.

Lemma lower_codePoint_nonempty {ucd : CaseData} b a c : lower_codePoint b a c <> [].
Proof.
  unfold lower_codePoint. destruct (_ && _); [discriminate|apply mapping_nonempty].
Qed.

Lemma utf16_of_codePoint_nonempty c : utf16_of_codePoint c <> [].
Proof. unfold utf16_of_codePoint. destruct (c <? 0x10000); discriminate. Qed.

Lemma StringToCodePoints_nil s : StringToCodePoints s = [] -> s = [].
Proof.
  destruct s as [|u rest]; [reflexivity|]. cbn [StringToCodePoints].
  destruct (is_high_surrogate u); [|discriminate].
  destruct rest as [|v rest']; [discriminate|].
  destruct (is_low_surrogate v); discriminate.
Qed.

(** Lower-casing empties no text. *)
Lemma toLowerCase_nil {ucd : CaseData} s : toLowerCase s = [] <-> s = [].
Proof.
  split; [|now intros ->].
  unfold toLowerCase, CodePointsToString. intros H.
  apply StringToCodePoints_nil.
  destruct (StringToCodePoints s) as [|c cps]; [reflexivity|exfalso].
  cbn [toLowercase_from] in H.
  pose proof (lower_codePoint_nonempty [] cps c) as Hc.
  destruct (lower_codePoint [] cps c) as [|d ds]; [congruence|].
  cbn [app flat_map] in H. apply app_eq_nil in H as [H _].
  now apply utf16_of_codePoint_nonempty in H.
Qed.

(** *** Contexts *)











(** *** Code points *)








(** *** Lines *)



(** *** Lower-casing twice *)
















(** *** White space under the lower-casing *)














(** *** The normal form *)













(** *** The sample rows *)







(* ================================================================== *)
(** ** The normal form is reached at once, and what it is blind to *)
(* ================================================================== *)




(** All four kinds of difference at once. *)
Example normalizeERD_blind_sample :
  let ucd := unicode_rows in
  normalizeERD [0x20; 0x45; 0x52; 0x0D; 0x0A; 0x0D; 0x0A; 0x09; 0x41; 0x20; 0x42; 0x20; 0x0A]
  = normalizeERD [0x65; 0x72; 0x0A; 0x61; 0x20; 0x62].
Proof. vm_compute. reflexivity. Qed.


(* ================================================================== *)
(** ** Blank texts and the comparison *)
(* ================================================================== *)

Lemma significant_lines_blank s : all_whitespace s -> significant_lines s = [].
Proof.
  induction 1 as [|u s Hu Hs IH]; [reflexivity|].
  now rewrite significant_lines_leading.
Qed.

Lemma normalizeERD_blank {ucd : CaseData} s :
  all_whitespace s -> normalizeERD s = [].
Proof.
  intros H. rewrite normalizeERD_lines.
  change (filter nonblank (map trim (split 0x0A s))) with (significant_lines s).
  now rewrite significant_lines_blank.
Qed.

Lemma significant_lines_nil s : significant_lines s = [] -> all_whitespace s.
Proof.
  induction s as [|u s IH]; intros H; [constructor|].
  destruct (is_whitespace u) eqn:Hu.
  - rewrite significant_lines_leading in H by assumption.
    constructor; [assumption|now apply IH].
  - exfalso. assert (Hne : u <> 0x0A) by (intros ->; discriminate).
    unfold significant_lines in H.
    destruct (split_other 0x0A u s Hne) as (l & ls & _ & E). rewrite E in H.
    cbn [map filter] in H. pose proof (trim_head u l Hu) as Ht.
    unfold nonblank in H. destruct (trim (u :: l)); [congruence|discriminate].
Qed.

(** X14.  The normal form of a text is empty exactly when the text
    holds nothing but white space. *)
Theorem normalizeERD_empty_iff {ucd : CaseData} s :
  normalizeERD s = [] <-> all_whitespace s.
Proof.
  split; [|apply normalizeERD_blank].
  intros H. rewrite normalizeERD_lines in H.
  change (filter nonblank (map trim (split 0x0A s))) with (significant_lines s) in H.
  apply significant_lines_nil.
  pose proof (significant_lines_spec s) as Hspec.
  destruct (significant_lines s) as [|l ls]; [reflexivity|exfalso].
  apply Forall_cons_iff in Hspec as [(Hl & _) _].
  apply (proj1 (toLowerCase_nil _)) in H.
  destruct l as [|u l]; [cbv in Hl; discriminate|].
  cbn [join] in H. destruct ls; cbn [app] in H; discriminate.
Qed.

(** X15.  The classification depends on the stored diagram only through
    its normal form: two stored diagrams with the same normal form, or
    one with an empty normal form and none, give the same verdict and
    the same log for every answer. *)
Theorem classify_by_normal_form {ucd : CaseData} w outputPath cur1 cur2 result tr :
  normalizeERD (stored_text cur1) = normalizeERD (stored_text cur2) ->
  classify w outputPath cur1 result tr = classify w outputPath cur2 result tr.
Proof.
  intros H. destruct (is_sentinel result) eqn:Hs.
  - now rewrite !classify_sentinel.
  - destruct (eqb (normalizeERD (stored_text cur1)) (normalizeERD result)) eqn:He.
    + apply eqb_eq in He.
      rewrite (classify_match w outputPath cur1) by assumption.
      rewrite (classify_match w outputPath cur2) by congruence. reflexivity.
    + apply eqb_neq in He.
      rewrite (classify_differ w outputPath cur1) by assumption.
      rewrite (classify_differ w outputPath cur2) by congruence. reflexivity.
Qed.

Lemma classify_by_normal_form_witness :
  let ucd := unicode_rows in
  let w := sample_world None None in
  let cur1 := Some (str "erDiagram
  CAFÉ { id int }") in
  let cur2 := Some (str "ERDIAGRAM

café { id int }  ") in
  normalizeERD (stored_text cur1) = normalizeERD (stored_text cur2)
  /\ classify w (str "docs/ERD.md") cur1 (str "erDiagram") []
     = classify w (str "docs/ERD.md") cur2 (str "erDiagram") [].
Proof.
  intros ucd w cur1 cur2.
  assert (H : normalizeERD (stored_text cur1) = normalizeERD (stored_text cur2))
    by (vm_compute; reflexivity).
  split; [exact H|].
  exact (classify_by_normal_form w (str "docs/ERD.md") cur1 cur2 (str "erDiagram") [] H).
Defined.

(** X16.  A stored diagram that holds nothing but white space is
    classified as if no diagram were stored. *)
Theorem blank_diagram_counts_as_none {ucd : CaseData} w outputPath s result tr :
  all_whitespace s ->
  classify w outputPath (Some s) result tr = classify w outputPath None result tr.
Proof.
  intros H. pose proof (normalizeERD_blank s H) as Hn.
  assert (Hnone : normalizeERD (stored_text None) = []) by reflexivity.
  destruct (is_sentinel result) eqn:Hs.
  - now rewrite !classify_sentinel.
  - destruct (eqb [] (normalizeERD result)) eqn:He.
    + apply eqb_eq in He.
      rewrite (classify_match w outputPath (Some s)) by (cbn [stored_text]; congruence).
      rewrite (classify_match w outputPath None) by congruence. reflexivity.
    + apply eqb_neq in He.
      rewrite (classify_differ w outputPath (Some s)) by (cbn [stored_text]; congruence).
      rewrite (classify_differ w outputPath None) by congruence. reflexivity.
Qed.

Lemma blank_diagram_counts_as_none_witness :
  let ucd := unicode_rows in
  let w := sample_world None None in
  all_whitespace [0x20; 0x0D; 0x0A; 0x09]
  /\ classify w (str "docs/ERD.md") (Some [0x20; 0x0D; 0x0A; 0x09]) (str "erDiagram") []
     = classify w (str "docs/ERD.md") None (str "erDiagram") [].
Proof.
  intros ucd w.
  assert (H : all_whitespace [0x20; 0x0D; 0x0A; 0x09]) by (repeat constructor).
  split; [exact H|].
  exact (blank_diagram_counts_as_none w (str "docs/ERD.md") _ (str "erDiagram") [] H).
Defined.

(* ================================================================== *)
(** ** The shape of the prompt *)
(* ================================================================== *)

Lemma trimStart_app l r : trimStart l <> [] -> trimStart (l ++ r) = trimStart l ++ r.
Proof.
  induction l as [|u l IH]; intros H; [now contradiction H|].
  cbn [app trimStart] in *. destruct (is_whitespace u); [now apply IH|reflexivity].
Qed.

Lemma trimStart_nil l : trimStart l = [] -> all_whitespace l.
Proof.
  intros H. destruct (trimStart_split l) as (w & Hw & E & _).
  rewrite H, app_nil_r in E. now rewrite E.
Qed.

Lemma trimEnd_trailing l c : is_whitespace c = true -> trimEnd (l ++ [c]) = trimEnd l.
Proof.
  intros Hc. unfold trimEnd. rewrite rev_app_distr. cbn [rev app trimStart].
  now rewrite Hc.
Qed.

Lemma trimEnd_app x y : ~ all_whitespace y -> trimEnd (x ++ y) = x ++ trimEnd y.
Proof.
  intros Hy. unfold trimEnd. rewrite rev_app_distr, trimStart_app.
  - now rewrite rev_app_distr, rev_involutive.
  - intros H. apply trimStart_nil, all_whitespace_rev in H.
    now rewrite rev_involutive in H.
Qed.

Lemma prompt_head_start : trimStart prompt_head = tl prompt_head.
Proof. vm_compute. reflexivity. Qed.

Lemma prompt_head_text : tl prompt_head <> [].
Proof. vm_compute. discriminate. Qed.

Lemma prompt_tail_unit : prompt_tail = [0x0A].
Proof. reflexivity. Qed.

Lemma prompt_schema_heading_text c : ~ all_whitespace (prompt_schema_heading ++ c).
Proof.
  intros H. apply Forall_app in H as [H _].
  assert (E : prompt_schema_heading = 0x0A :: 0x0A :: 0x53 :: skipn 3 prompt_schema_heading)
    by (vm_compute; reflexivity).
  rewrite E in H.
  do 2 apply Forall_cons_iff in H as [_ H].
  apply Forall_cons_iff in H as [H _]. discriminate.
Qed.

(** X17.  The prompt is the fixed text of the template with the
    repository identifier, the section of the stored diagram and the
    clamped schema text put in as they are: the final [trim] takes away
    the line feed the template begins with and, at the end, the line feed
    the template ends with and the white space the schema text ends in,
    and nothing else.  The stored diagram goes in whole, whatever its
    size: the byte budget applies to the schema text only. *)
Theorem buildPrompt_shape args :
  fst (buildPrompt args)
  = tl prompt_head ++ repo args ++ prompt_rules
    ++ current_section (currentERD args)
    ++ trimEnd (prompt_schema_heading
                ++ clampBytes
                     (schemaJoined (ArraySort.sort schema_first (schemaFiles args)))
                     MAX_SCHEMA_BYTES).
Proof.
  unfold buildPrompt. cbn [fst]. unfold trim.
  set (c := clampBytes _ _).
  rewrite trimStart_app, prompt_head_start
    by (rewrite prompt_head_start; apply prompt_head_text).
  rewrite prompt_tail_unit.
  replace (tl prompt_head ++ repo args ++ prompt_rules
           ++ current_section (currentERD args)
           ++ prompt_schema_heading ++ c ++ [0x0A])
    with (((tl prompt_head ++ repo args ++ prompt_rules
            ++ current_section (currentERD args))
           ++ (prompt_schema_heading ++ c)) ++ [0x0A])
    by (now rewrite <- !app_assoc).
  rewrite trimEnd_trailing by reflexivity.
  rewrite trimEnd_app by apply prompt_schema_heading_text.
  now rewrite <- !app_assoc.
Qed.
